(** * lally-ui: registry catalog, import rewriting, materializer, exporter

    A shallow embedding of [packages/ui/src/registry/*.ts] and of the
    exporter ([registry/export.ts]), with the properties the specification
    states about them.

    Conventions.
    - A JavaScript string is a [string]; its code units are modelled by
      [ascii] (the templates and identifiers of this repository are ASCII).
    - [Record<string,string>] is the list of its entries in the order
      [Object.entries] enumerates them; an optional value is an [option].
    - [async] functions run their awaits in sequence, so they are state
      transformers over the file system that may throw. *)

From Stdlib Require Import String Ascii List Bool Arith Lia.
From stdpp Require Import base option gmap strings list pretty.

Open Scope string_scope.
Open Scope list_scope.
Import ListNotations.

(** ** JavaScript string primitives *)

Module Js.

(** [s.startsWith(p)] *)
Fixpoint startsWith (s p : string) {struct p} : bool :=
  match p, s with
  | EmptyString, _ => true
  | String _ _, EmptyString => false
  | String c p', String d s' => if Ascii.eqb c d then startsWith s' p' else false
  end.

(** [s.includes(p)] *)
Fixpoint includes (s p : string) : bool :=
  startsWith s p ||
  match s with
  | EmptyString => false
  | String _ s' => includes s' p
  end.

(** [s.slice(n)] for [0 <= n] *)
Fixpoint slice (n : nat) (s : string) : string :=
  match n, s with
  | O, _ => s
  | S _, EmptyString => EmptyString
  | S k, String _ s' => slice k s'
  end.

(** [s.slice(0, n)] for [0 <= n] *)
Fixpoint take (n : nat) (s : string) : string :=
  match n, s with
  | O, _ => EmptyString
  | S _, EmptyString => EmptyString
  | S k, String c s' => String c (take k s')
  end.

End Js.

(** ** registry/types.ts *)

Record RegistryFile := {
  source : string;
  target : string;
  replaceImports : option (list (string * string))
}.

Record RegistryItem := {
  id : string;
  namespace : string;
  name : string;
  description : string;
  dependencies : option (list string);
  registryDependencies : option (list string);
  files : list RegistryFile
}.

Module ComponentsConfig.
Record Aliases := {
  components : option string;
  ui : option string;
  utils : option string
}.
Record t := {
  aliases : option Aliases
}.
End ComponentsConfig.

Record AliasContext := {
  componentsAlias : string;
  uiAlias : string;
  utilsAlias : string
}.

(** ** registry/items/*.ts *)

Definition fumadocsSdkLayoutItem : RegistryItem := {|
  id := "fumadocs/sdk-layout";
  namespace := "fumadocs";
  name := "sdk-layout";
  description := "Interactive SDK docs layout components for Fumadocs pages.";
  dependencies := Some ["fumadocs-ui"; "json5"];
  registryDependencies := Some ["combobox"];
  files := [
    {| source := "fumadocs/blocks/sdk-layout/index.ts";
       target := "sdk-layout/index.ts";
       replaceImports := None |};
    {| source := "fumadocs/blocks/sdk-layout/types/sdk-function-page-types.ts";
       target := "sdk-layout/types/sdk-function-page-types.ts";
       replaceImports := None |};
    {| source := "fumadocs/blocks/sdk-layout/sections/sdk-section.tsx";
       target := "sdk-layout/sections/sdk-section.tsx";
       replaceImports := Some [("../../../lib/cn", "{utilsAlias}")] |};
    {| source := "fumadocs/blocks/sdk-layout/interactive/sdk-function-page-interactive.tsx";
       target := "sdk-layout/interactive/sdk-function-page-interactive.tsx";
       replaceImports := Some [
         ("../../../components/shared/package-manager-tabs",
          "{componentsAlias}/mdx/package-manager-tabs");
         ("@/components/ui/combobox", "{uiAlias}/combobox")] |};
    {| source := "fumadocs/components/mdx/package-manager-tabs.tsx";
       target := "mdx/package-manager-tabs.tsx";
       replaceImports := None |}
  ]
|}.

Definition brandingLogoWithBadgeItem : RegistryItem := {|
  id := "branding/logo-with-badge";
  namespace := "branding";
  name := "logo-with-badge";
  description := "Brand header row with logo slot, title, and badge text.";
  dependencies := None;
  registryDependencies := None;
  files := [
    {| source := "branding/components/branding/logo-with-badge.tsx";
       target := "components/branding/logo-with-badge.tsx";
       replaceImports := None |}
  ]
|}.

(** ** registry/registry.ts *)

Definition items : list RegistryItem :=
  [fumadocsSdkLayoutItem; brandingLogoWithBadgeItem].

(** [listRegistryItems()] returns the module's array itself; nothing in the
    repository writes to it. *)
Definition listRegistryItems : list RegistryItem := items.

(** [catalog.find((item) => item.id === id) ?? null] *)
Fixpoint findIn (catalog : list RegistryItem) (wanted : string) : option RegistryItem :=
  match catalog with
  | [] => None
  | item :: rest => if String.eqb (id item) wanted then Some item else findIn rest wanted
  end.

Definition findRegistryItem (wanted : string) : option RegistryItem :=
  findIn items wanted.

(** ** registry/export.ts: file classification *)

Inductive ExportedFileType :=
| registry_component
| registry_lib
| registry_hook
| registry_page.

Definition fileTypeForTarget (target : string) : ExportedFileType :=
  if Js.startsWith target "app/" then registry_page
  else if Js.includes target "/hooks/" || Js.startsWith target "hooks/" then registry_hook
  else if Js.includes target "/lib/" || Js.startsWith target "lib/"
          || Js.includes target "/types/" || Js.startsWith target "types/"
       then registry_lib
  else registry_component.

(** ** The fragment of JavaScript regular expressions and of
       [String.prototype.replace] / [replaceAll] that the helpers use *)

Module RegExp.

(** The double quote, which a template literal writes as an escaped quote. *)
Definition dquote : ascii := "034"%char.
Definition squote : ascii := "039"%char.

(** Pattern atoms. The patterns built by [applyImportReplacements] are
    sequences of single-character matchers whenever the interpolated key
    holds ordinary characters, dots and plain classes. *)
Inductive atom :=
| Lit (c : ascii)
| Dot
| Class (cs : list ascii).

Definition isLineTerminator (c : ascii) : bool :=
  Ascii.eqb c "010"%char || Ascii.eqb c "013"%char.

(** SyntaxCharacter of the ECMAScript pattern grammar. *)
Definition isSyntaxCharacter (c : ascii) : bool :=
  existsb (Ascii.eqb c)
    ["^"; "$"; "\"; "."; "*"; "+"; "?"; "("; ")"; "["; "]"; "{"; "}"; "|"]%char.

(** [new RegExp(pattern, "g")] on the fragment. [None] stands for a pattern
    outside the fragment (quantifiers, groups, anchors, escapes, ranges and
    negated classes), including the patterns the constructor rejects. *)
Fixpoint parse (inClass : option (list ascii)) (pattern : string) : option (list atom) :=
  match pattern with
  | EmptyString =>
      match inClass with
      | None => Some []
      | Some _ => None
      end
  | String c rest =>
      match inClass with
      | Some cs =>
          if Ascii.eqb c "]"%char then
            match parse None rest with
            | Some re => Some (Class (rev cs) :: re)
            | None => None
            end
          else if Ascii.eqb c "\"%char || Ascii.eqb c "-"%char then None
          else if Ascii.eqb c "^"%char && match cs with [] => true | _ => false end then None
          else parse (Some (c :: cs)) rest
      | None =>
          if Ascii.eqb c "["%char then parse (Some []) rest
          else if Ascii.eqb c "."%char then
            match parse None rest with
            | Some re => Some (Dot :: re)
            | None => None
            end
          else if isSyntaxCharacter c then None
          else
            match parse None rest with
            | Some re => Some (Lit c :: re)
            | None => None
            end
      end
  end.

Definition compile (pattern : string) : option (list atom) := parse None pattern.

Definition atomMatches (a : atom) (c : ascii) : bool :=
  match a with
  | Lit d => Ascii.eqb d c
  | Dot => negb (isLineTerminator c)
  | Class cs => existsb (Ascii.eqb c) cs
  end.

(** Does the pattern match at the head of [s]? A match spans
    [length re] code units. *)
Fixpoint matchesAt (re : list atom) (s : string) : bool :=
  match re with
  | [] => true
  | a :: re' =>
      match s with
      | EmptyString => false
      | String c s' => atomMatches a c && matchesAt re' s'
      end
  end.

(** GetSubstitution for a match without capture groups: [$$], [$&],
    [$`] and [$'] are expanded, any other [$] is literal. *)
Fixpoint GetSubstitution (matched before after template : string) : string :=
  match template with
  | EmptyString => EmptyString
  | String c rest =>
      if Ascii.eqb c "$"%char then
        match rest with
        | EmptyString => String c EmptyString
        | String d rest' =>
            if Ascii.eqb d "$"%char then String "$"%char (GetSubstitution matched before after rest')
            else if Ascii.eqb d "&"%char then matched +:+ GetSubstitution matched before after rest'
            else if Ascii.eqb d "`"%char then before +:+ GetSubstitution matched before after rest'
            else if Ascii.eqb d squote then after +:+ GetSubstitution matched before after rest'
            else String c (GetSubstitution matched before after rest)
        end
      else String c (GetSubstitution matched before after rest)
  end.

(** The global replacement loop: scan left to right, replace the
    leftmost match, resume after it. [seen] is the part of the subject
    already passed, [skip] counts the code units of the current match
    still to pass. *)
Fixpoint replaceFrom (re : list atom) (template seen : string) (skip : nat) (s : string) : string :=
  match s with
  | EmptyString =>
      if matchesAt re EmptyString
      then GetSubstitution EmptyString seen EmptyString template
      else EmptyString
  | String c s' =>
      match skip with
      | S k => replaceFrom re template (seen +:+ String c EmptyString) k s'
      | O =>
          if matchesAt re s then
            GetSubstitution (Js.take (length re) s) seen (Js.slice (length re) s) template
            +:+ match length re with
                | O => String c (replaceFrom re template (seen +:+ String c EmptyString) 0 s')
                | S n => replaceFrom re template (seen +:+ String c EmptyString) n s'
                end
          else String c (replaceFrom re template (seen +:+ String c EmptyString) 0 s')
      end
  end.

(** [s.replace(re, template)] for a global [re] *)
Definition replace (re : list atom) (template s : string) : string :=
  replaceFrom re template EmptyString 0 s.

(** [s.replaceAll(search, template)] for a string [search] *)
Definition replaceAll (search template s : string) : string :=
  replaceFrom (map Lit (list_ascii_of_string search)) template EmptyString 0 s.

End RegExp.

(** ** node:path (POSIX) *)

Module Path.

(** [s.split("/")] *)
Fixpoint split (s : string) : list string :=
  match s with
  | EmptyString => [EmptyString]
  | String c rest =>
      if Ascii.eqb c "/"%char then EmptyString :: split rest
      else
        match split rest with
        | [] => [String c EmptyString]
        | seg :: segs => String c seg :: segs
        end
  end.

(** [segs.join("/")] *)
Fixpoint join (segs : list string) : string :=
  match segs with
  | [] => EmptyString
  | [seg] => seg
  | seg :: rest => seg +:+ "/" +:+ join rest
  end.

(** normalizeString: empty and [.] segments are dropped, [..] removes the
    segment before it; above the root [..] is dropped, or kept when
    [allowAboveRoot]. [stack] holds the kept segments, last first. *)
Fixpoint normalize (allowAboveRoot : bool) (stack : list string) (segs : list string) : list string :=
  match segs with
  | [] => rev stack
  | seg :: rest =>
      if String.eqb seg "" || String.eqb seg "." then normalize allowAboveRoot stack rest
      else if String.eqb seg ".." then
        match stack with
        | top :: below =>
            if String.eqb top ".." then normalize allowAboveRoot (seg :: stack) rest
            else normalize allowAboveRoot below rest
        | [] =>
            if allowAboveRoot then normalize allowAboveRoot [seg] rest
            else normalize allowAboveRoot [] rest
        end
      else normalize allowAboveRoot (seg :: stack) rest
  end.

Definition isAbsolute (p : string) : bool := Js.startsWith p "/".

(** The right-to-left loop of [resolve]: [paths] lists the arguments last
    first, followed by [process.cwd()]; the loop stops at the first
    absolute path. Returns [resolvedPath] and [resolvedAbsolute]. *)
Fixpoint gather (paths : list string) : string * bool :=
  match paths with
  | [] => (EmptyString, false)
  | p :: rest =>
      if String.eqb p "" then gather rest
      else if isAbsolute p then (p +:+ "/", true)
      else let '(acc, abs) := gather rest in (acc +:+ p +:+ "/", abs)
  end.

(** The segments of [resolve(...args)]. *)
Definition resolveSegs (processCwd : string) (args : list string) : list string :=
  let '(resolvedPath, resolvedAbsolute) := gather (rev args ++ [processCwd])%list in
  normalize (negb resolvedAbsolute) [] (split resolvedPath).

(** [resolve(...args)] *)
Definition resolve (processCwd : string) (args : list string) : string :=
  let '(resolvedPath, resolvedAbsolute) := gather (rev args ++ [processCwd])%list in
  let normalized := join (normalize (negb resolvedAbsolute) [] (split resolvedPath)) in
  if resolvedAbsolute then "/" +:+ normalized
  else if String.eqb normalized "" then "." else normalized.

(** The index [end] that the backward loop of [dirname] finds over
    [p[1..]]: the last slash that is followed, somewhere, by a character
    other than a slash. [i] is the index of the head of [s] in [p]. *)
Fixpoint dirnameEnd (i : nat) (pending found : option nat) (s : string) : option nat :=
  match s with
  | EmptyString => found
  | String c rest =>
      if Ascii.eqb c "/"%char then dirnameEnd (S i) (Some i) found rest
      else dirnameEnd (S i) pending (match pending with Some e => Some e | None => found end) rest
  end.

(** [dirname(p)] *)
Definition dirname (p : string) : string :=
  match p with
  | EmptyString => "."
  | String c rest =>
      let hasRoot := Ascii.eqb c "/"%char in
      match dirnameEnd 1 None None rest with
      | None => if hasRoot then "/" else "."
      | Some e => if hasRoot && Nat.eqb e 1 then "//" else Js.take e p
      end
  end.

End Path.

(** ** registry/export.ts: the exported documents *)

Module ExportedRegistryFile.
Record t := {
  path : string;
  content : string;
  type : ExportedFileType;
  target : option string
}.
End ExportedRegistryFile.

Module ExportedRegistryItem.
Record t := {
  schema : string;
  name : string;
  type : string;
  title : string;
  description : string;
  dependencies : option (list string);
  registryDependencies : option (list string);
  files : list ExportedRegistryFile.t
}.
End ExportedRegistryItem.

(** The elements of [exportedItems] and of their [files]. *)
Module ManifestFile.
Record t := {
  path : string;
  type : ExportedFileType;
  target : option string
}.
End ManifestFile.

Module ManifestItem.
Record t := {
  name : string;
  type : string;
  title : string;
  description : string;
  dependencies : option (list string);
  registryDependencies : option (list string);
  files : list ManifestFile.t
}.
End ManifestItem.

Module RegistryManifest.
Record t := {
  schema : string;
  name : string;
  homepage : string;
  items : list ManifestItem.t
}.
End RegistryManifest.

(** The values handed to [writeJson]. *)
Inductive JsonDoc :=
| ItemDoc (item : ExportedRegistryItem.t)
| ManifestDoc (manifest : RegistryManifest.t).

(** ** The host: file system, process and engine *)

(** A file-system entry, keyed by the segments of its absolute path. The
    root is the empty list and always a directory. There are no symbolic
    links: the entry a path names is found lexically, and the walk to it
    fails where the operating system fails ([Fs.access]). *)
Inductive Entry :=
| File (content : string)
| Dir.

Inductive Event :=
| EvWriteFile (path content : string)
| EvLog (message : string)
| EvSpawn (command : string) (args : list string) (cwd : string).

Record World := {
  fs : gmap (list string) Entry;
  trace : list Event
}.

Inductive Error :=
| JsError (message : string)
| SyntaxError
| SystemError (code path : string).

Record Host := {
  (** [process.cwd()] *)
  processCwd : string;
  (** [__dirname] of the bundled module *)
  moduleDirname : string;
  (** [JSON.parse(raw) as ComponentsConfig], read at the declared type: an
      alias is a string or absent ([null] counts as absent, as [??] and
      [?.] treat it); [None]: SyntaxError *)
  JSON_parse : string -> option ComponentsConfig.t;
  (** [JSON.stringify(value, null, 2)] *)
  JSON_stringify : JsonDoc -> string;
  (** [subject.replace(new RegExp(pattern, "g"), template)] for the
      patterns outside the fragment of [RegExp]; [None]: SyntaxError *)
  RegExp_replace : string -> string -> string -> option string;
  (** [spawnSync(command, args, { cwd })]: exit status and the file
      system the child process leaves *)
  spawnSync : string -> list string -> string -> gmap (list string) Entry ->
              option Z * gmap (list string) Entry
}.

Inductive Result (A : Type) :=
| Ok (a : A) (w : World)
| Throw (e : Error) (w : World).
Arguments Ok {A} a w.
Arguments Throw {A} e w.

Definition M (A : Type) : Type := World -> Result A.

Definition ret {A} (a : A) : M A := fun w => Ok a w.
Definition throw {A} (e : Error) : M A := fun w => Throw e w.
Definition bind {A B} (m : M A) (k : A -> M B) : M B :=
  fun w => match m w with
           | Ok a w' => k a w'
           | Throw e w' => Throw e w'
           end.

#[global] Instance M_ret : MRet M := @ret.
#[global] Instance M_bind : MBind M := fun A B k m => bind m k.

Definition consoleLog (message : string) : M unit :=
  fun w => Ok tt {| fs := fs w; trace := (trace w ++ [EvLog message])%list |}.

Module Fs.

(** The entry that a path names when the walk through it succeeds:
    without symbolic links, the lexical resolution of the path against
    the working directory. *)
Definition segments (h : Host) (p : string) : list string :=
  Path.resolveSegs (processCwd h) [p].

Definition isDir (m : gmap (list string) Entry) (segs : list string) : bool :=
  match segs with
  | [] => true
  | _ => match m !! segs with
         | Some Dir => true
         | _ => false
         end
  end.

(** The path asks for a directory: it ends in a slash or in a [.]
    component. *)
Definition trailing (p : string) : bool :=
  let final := List.last (Path.split p) "" in
  String.eqb final "" || String.eqb final ".".

Inductive Walk :=
| Through
| NoEntry
| NotDir.

(** The operating system walks a path component by component; going up
    with [..] from a name needs that name to be an existing directory
    (ENOENT or ENOTDIR otherwise). [stack] is the place reached, last
    segment first, kept as [normalize] keeps it; [named] tells that the
    place was reached by a name, which nothing has looked up yet. Names
    that no [..] follows are looked up by the operation itself. *)
Fixpoint walk (m : gmap (list string) Entry) (allowAboveRoot : bool) (stack : list string)
    (named : bool) (components : list string) : Walk :=
  match components with
  | [] => Through
  | seg :: rest =>
      if String.eqb seg "" || String.eqb seg "." then walk m allowAboveRoot stack named rest
      else if String.eqb seg ".." then
        if named && negb (isDir m (rev stack)) then
          match m !! rev stack with
          | Some (File _) => NotDir
          | _ => NoEntry
          end
        else
          match stack with
          | top :: below =>
              if String.eqb top ".." then walk m allowAboveRoot (seg :: stack) false rest
              else walk m allowAboveRoot below false rest
          | [] =>
              if allowAboveRoot then walk m allowAboveRoot [seg] false rest
              else walk m allowAboveRoot [] false rest
          end
      else walk m allowAboveRoot (seg :: stack) true rest
  end.

(** Where the walk of a relative path starts: the working directory. *)
Definition start (h : Host) (p : string) : bool * list string :=
  if Path.isAbsolute p then (false, [])
  else
    let allowAboveRoot := negb (Path.isAbsolute (processCwd h)) in
    (allowAboveRoot, rev (Path.normalize allowAboveRoot [] (Path.split (processCwd h)))).

(** The walk through [p]; the empty path names nothing. *)
Definition access (h : Host) (p : string) (m : gmap (list string) Entry) : Walk :=
  if String.eqb p "" then NoEntry
  else walk m (fst (start h p)) (snd (start h p)) false (Path.split p).

Definition lookup (h : Host) (p : string) (w : World) : option Entry :=
  match access h p (fs w) with
  | Through =>
      match segments h p with
      | [] => Some Dir
      | segs =>
          match fs w !! segs with
          | Some (File content) => if trailing p then None else Some (File content)
          | found => found
          end
      end
  | _ => None
  end.

(** [existsSync(p)] *)
Definition existsSync (h : Host) (p : string) (w : World) : bool :=
  match lookup h p w with
  | Some _ => true
  | None => false
  end.

(** Create the directories [done ++ [s1]], [done ++ [s1; s2]], ... that are
    missing; a regular file in the way is an error. *)
Fixpoint mkdirGo (done todo : list string) (m : gmap (list string) Entry)
    : option (gmap (list string) Entry) :=
  match todo with
  | [] => Some m
  | seg :: rest =>
      let d := (done ++ [seg])%list in
      match m !! d with
      | Some (File _) => None
      | Some Dir => mkdirGo d rest m
      | None => mkdirGo d rest (<[d := Dir]> m)
      end
  end.

(** No regular file stands where [mkdirGo done todo] needs a directory. *)
Fixpoint clearWay (done todo : list string) (m : gmap (list string) Entry) : bool :=
  match todo with
  | [] => true
  | seg :: rest =>
      let d := (done ++ [seg])%list in
      match m !! d with
      | Some (File _) => false
      | _ => clearWay d rest m
      end
  end.

(** The code of the error for a path at which nothing is found: ENOTDIR
    when a regular file stands on the way, ENOENT otherwise. *)
Definition missingCode (h : Host) (p : string) (w : World) : string :=
  match access h p (fs w) with
  | NotDir => "ENOTDIR"
  | NoEntry => "ENOENT"
  | Through =>
      match fs w !! segments h p with
      | Some (File _) => "ENOTDIR"
      | _ => if clearWay [] (removelast (segments h p)) (fs w) then "ENOENT" else "ENOTDIR"
      end
  end.

(** [await readFile(p, "utf8")] *)
Definition readFile (h : Host) (p : string) : M string :=
  fun w => match lookup h p w with
           | Some (File content) => Ok content w
           | Some Dir => Throw (SystemError "EISDIR" p) w
           | None => Throw (SystemError (missingCode h p w) p) w
           end.

(** The recursive [mkdir] along the components of a path: every name on
    the way is made a directory if nothing is there, also a name that a
    later [..] leaves again; a regular file in the way is an error. *)
Fixpoint mkdirWalk (allowAboveRoot : bool) (stack components : list string)
    (m : gmap (list string) Entry) : option (gmap (list string) Entry) :=
  match components with
  | [] => Some m
  | seg :: rest =>
      if String.eqb seg "" || String.eqb seg "." then mkdirWalk allowAboveRoot stack rest m
      else if String.eqb seg ".." then
        match stack with
        | top :: below =>
            if String.eqb top ".." then mkdirWalk allowAboveRoot (seg :: stack) rest m
            else mkdirWalk allowAboveRoot below rest m
        | [] =>
            if allowAboveRoot then mkdirWalk allowAboveRoot [seg] rest m
            else mkdirWalk allowAboveRoot [] rest m
        end
      else
        let d := rev (seg :: stack) in
        match m !! d with
        | Some (File _) => None
        | Some Dir => mkdirWalk allowAboveRoot (seg :: stack) rest m
        | None => mkdirWalk allowAboveRoot (seg :: stack) rest (<[d := Dir]> m)
        end
  end.

(** [await mkdir(p, { recursive: true })] *)
Definition mkdir (h : Host) (p : string) : M unit :=
  fun w =>
    if String.eqb p "" then Throw (SystemError "ENOENT" p) w
    else
      match mkdirWalk (fst (start h p)) (snd (start h p)) (Path.split p) (fs w) with
      | Some m => Ok tt {| fs := m; trace := trace w |}
      | None =>
          match fs w !! segments h p with
          | Some (File _) => Throw (SystemError "EEXIST" p) w
          | _ => Throw (SystemError "ENOTDIR" p) w
          end
      end.

(** [await writeFile(p, content, "utf8")] *)
Definition writeFile (h : Host) (p content : string) : M unit :=
  fun w =>
    let segs := segments h p in
    match access h p (fs w) with
    | NoEntry => Throw (SystemError "ENOENT" p) w
    | NotDir => Throw (SystemError "ENOTDIR" p) w
    | Through =>
        if isDir (fs w) segs then Throw (SystemError "EISDIR" p) w
        else if isDir (fs w) (removelast segs) then
          if trailing p then
            Throw (SystemError (if String.eqb (List.last (Path.split p) "") "." then
                                  match fs w !! segs with
                                  | Some (File _) => "ENOTDIR"
                                  | _ => "ENOENT"
                                  end
                                else "EISDIR") p) w
          else Ok tt {| fs := <[segs := File content]> (fs w);
                        trace := (trace w ++ [EvWriteFile p content])%list |}
        else Throw (SystemError (if clearWay [] (removelast segs) (fs w)
                                 then "ENOENT" else "ENOTDIR") p) w
    end.

End Fs.

(** ** registry/helpers.ts *)

Definition resolveAliasPath (h : Host) (alias cwd : string) : string :=
  if Js.startsWith alias "@/" then
    Path.resolve (processCwd h) [cwd; "src"; Js.slice 2 alias]
  else if Js.startsWith alias "./" || Js.startsWith alias "../" then
    Path.resolve (processCwd h) [cwd; alias]
  else Path.resolve (processCwd h) [cwd; alias].

Inductive WriteOutcome := created | skipped.

Definition writeIfMissing (h : Host) (path content : string) : M WriteOutcome :=
  fun w =>
    if Fs.existsSync h path w then Ok skipped w
    else (Fs.mkdir h (Path.dirname path) ;;
          Fs.writeFile h path content ;;
          ret created) w.

(** [`from ['\"]${from}['\"]`] *)
Definition importPattern (from : string) : string :=
  "from ['" +:+ String RegExp.dquote "]" +:+ from +:+ "['" +:+ String RegExp.dquote "]".

(** [next.replace(new RegExp(`from ['\"]${from}['\"]`, "g"), `from '${to}'`)];
    [None]: the constructor throws. *)
Definition replaceImport (h : Host) (from to next : string) : option string :=
  match RegExp.compile (importPattern from) with
  | Some re => Some (RegExp.replace re ("from '" +:+ to +:+ "'") next)
  | None => RegExp_replace h (importPattern from) ("from '" +:+ to +:+ "'") next
  end.

(** The [for ... of Object.entries(replaceImports)] loop. *)
Fixpoint rewriteEntries (h : Host) (next : string) (entries : list (string * string))
    : option string :=
  match entries with
  | [] => Some next
  | (from, to) :: rest =>
      match replaceImport h from to next with
      | Some next' => rewriteEntries h next' rest
      | None => None
      end
  end.

Definition applyImportReplacements (h : Host) (content : string)
    (replaceImports : option (list (string * string))) : option string :=
  match replaceImports with
  | None => Some content
  | Some entries => rewriteEntries h content entries
  end.

Module ResolvedAliases.
Record t := {
  aliases : AliasContext;
  componentsRoot : string
}.
End ResolvedAliases.

(** [a ?? b] *)
Definition nullish {A} (a : option A) (b : A) : A :=
  match a with
  | Some v => v
  | None => b
  end.

Definition readAliasContext (h : Host) (cwd : string) : M ResolvedAliases.t :=
  let componentsJsonPath := Path.resolve (processCwd h) [cwd; "components.json"] in
  fun w =>
    if negb (Fs.existsSync h componentsJsonPath w) then
      Throw (JsError "Missing components.json in current directory. Run shadcn init first.") w
    else
      (rawConfig ← Fs.readFile h componentsJsonPath;
       match JSON_parse h rawConfig with
       | None => throw SyntaxError
       | Some config =>
           let aliases := {|
             componentsAlias :=
               nullish (ComponentsConfig.aliases config ≫= ComponentsConfig.components) "@/components";
             uiAlias :=
               nullish (ComponentsConfig.aliases config ≫= ComponentsConfig.ui) "@/components/ui";
             utilsAlias :=
               nullish (ComponentsConfig.aliases config ≫= ComponentsConfig.utils) "@/lib/utils"
           |} in
           ret {| ResolvedAliases.aliases := aliases;
                  ResolvedAliases.componentsRoot := resolveAliasPath h (componentsAlias aliases) cwd |}
       end) w.

Definition interpolateTargetPath (template : string) (aliases : AliasContext) : string :=
  RegExp.replaceAll "{utilsAlias}" (utilsAlias aliases)
    (RegExp.replaceAll "{uiAlias}" (uiAlias aliases)
      (RegExp.replaceAll "{componentsAlias}" (componentsAlias aliases) template)).

(** [Object.fromEntries(Object.entries(r).map(([from, to]) =>
    [from, interpolateTargetPath(to, aliases)]))], or [undefined] *)
Definition interpolateReplacements (aliases : AliasContext)
    (replaceImports : option (list (string * string))) : option (list (string * string)) :=
  match replaceImports with
  | Some entries =>
      Some (map (fun '(from, to) => (from, interpolateTargetPath to aliases)) entries)
  | None => None
  end.

(** A call of [applyImportReplacements] inside an [async] function. *)
Definition rewriteImports (h : Host) (content : string)
    (replaceImports : option (list (string * string))) : M string :=
  match applyImportReplacements h content replaceImports with
  | Some next => ret next
  | None => throw SyntaxError
  end.

(** ** registry/apply.ts *)

Inductive PackageManager := pnpm | npm | yarn | bun.

Definition packageManagerName (pm : PackageManager) : string :=
  match pm with
  | pnpm => "pnpm"
  | npm => "npm"
  | yarn => "yarn"
  | bun => "bun"
  end.

Definition detectPackageManager (h : Host) (cwd : string) (w : World) : PackageManager :=
  if Fs.existsSync h (Path.resolve (processCwd h) [cwd; "pnpm-lock.yaml"]) w then pnpm
  else if Fs.existsSync h (Path.resolve (processCwd h) [cwd; "yarn.lock"]) w then yarn
  else if Fs.existsSync h (Path.resolve (processCwd h) [cwd; "bun.lockb"]) w
          || Fs.existsSync h (Path.resolve (processCwd h) [cwd; "bun.lock"]) w then bun
  else npm.

(** [deps.join(sep)] *)
Fixpoint joinWith (sep : string) (parts : list string) : string :=
  match parts with
  | [] => EmptyString
  | [part] => part
  | part :: rest => part +:+ sep +:+ joinWith sep rest
  end.

Definition spawn (h : Host) (command : string) (args : list string) (cwd : string)
    : M (option Z) :=
  fun w =>
    let '(status, m) := spawnSync h command args cwd (fs w) in
    Ok status {| fs := m; trace := (trace w ++ [EvSpawn command args cwd])%list |}.

Definition installDepsIfNeeded (h : Host) (cwd : string) (deps : list string) : M unit :=
  match deps with
  | [] => ret tt
  | _ =>
      fun w =>
        let pm := detectPackageManager h cwd w in
        let args := match pm with
                    | npm => "install" :: deps
                    | _ => "add" :: deps
                    end in
        (consoleLog ("Installing dependencies via " +:+ packageManagerName pm +:+ ": "
                     +:+ joinWith ", " deps) ;;
         status ← spawn h (packageManagerName pm) args cwd;
         match status with
         | Some 0%Z => ret tt
         | _ => consoleLog "Dependency install skipped/failed; you can install manually."
         end) w
  end.

(** The [for (const file of item.files)] loop of [applyRegistryItem]. *)
Fixpoint applyFiles (h : Host) (aliases : AliasContext) (componentsRoot templateRoot : string)
    (pending : list RegistryFile) : M unit :=
  match pending with
  | [] => ret tt
  | file :: rest =>
      let sourcePath := Path.resolve (processCwd h) [templateRoot; source file] in
      src ← Fs.readFile h sourcePath;
      transformed ← rewriteImports h src (interpolateReplacements aliases (replaceImports file));
      let targetPath := Path.resolve (processCwd h) [componentsRoot; target file] in
      result ← writeIfMissing h targetPath transformed;
      consoleLog ((match result with created => "Created" | skipped => "Skipped" end)
                  +:+ " " +:+ targetPath) ;;
      applyFiles h aliases componentsRoot templateRoot rest
  end.

Definition applyRegistryItem (h : Host) (cwd : string) (item : RegistryItem) : M unit :=
  resolved ← readAliasContext h cwd;
  let templateCandidates :=
    [Path.resolve (processCwd h) [moduleDirname h; "../templates"];
     Path.resolve (processCwd h) [moduleDirname h; "../../templates"]] in
  ((fun w =>
    match List.find (fun candidate => Fs.existsSync h candidate w) templateCandidates with
    | None =>
        Throw (JsError "Template directory not found in package output. Reinstall @chris-lally/ui.") w
    | Some templateRoot =>
        (applyFiles h (ResolvedAliases.aliases resolved) (ResolvedAliases.componentsRoot resolved)
           templateRoot (files item) ;;
         installDepsIfNeeded h cwd (nullish (dependencies item) [])) w
    end) : M unit).

(** ** registry/export.ts *)

Definition DEFAULT_ALIASES : AliasContext := {|
  componentsAlias := "@/components";
  uiAlias := "@/components/ui";
  utilsAlias := "@/lib/utils"
|}.

Definition isWordChar (c : ascii) : bool :=
  let n := nat_of_ascii c in
  (Nat.leb 48 n && Nat.leb n 57) || (Nat.leb 65 n && Nat.leb n 90)
  || (Nat.leb 97 n && Nat.leb n 122) || Nat.eqb n 95.

Definition toUpperCase (c : ascii) : ascii :=
  let n := nat_of_ascii c in
  if Nat.leb 97 n && Nat.leb n 122 then ascii_of_nat (n - 32) else c.

(** [text.replace(/[-_]/g, " ")] *)
Fixpoint dashesToSpaces (text : string) : string :=
  match text with
  | EmptyString => EmptyString
  | String c rest =>
      String (if Ascii.eqb c "-"%char || Ascii.eqb c "_"%char then " "%char else c)
             (dashesToSpaces rest)
  end.

(** [text.replace(/\b\w/g, (ch) => ch.toUpperCase())]; [afterWord] tells
    whether the previous character is a word character. *)
Fixpoint capitalizeWords (afterWord : bool) (text : string) : string :=
  match text with
  | EmptyString => EmptyString
  | String c rest =>
      String (if isWordChar c && negb afterWord then toUpperCase c else c)
             (capitalizeWords (isWordChar c) rest)
  end.

Definition titleCase (text : string) : string :=
  capitalizeWords false (dashesToSpaces text).

Definition slugForItem (item : RegistryItem) : string :=
  RegExp.replaceAll "/" "-" (id item).

(** The [for (const file of item.files)] loop of [readTemplateContent];
    [collected] is the array [files] built so far. *)
Fixpoint readTemplateFiles (h : Host) (templateRoot : string) (item : RegistryItem)
    (pending : list RegistryFile) (collected : list ExportedRegistryFile.t)
    : M (list ExportedRegistryFile.t) :=
  match pending with
  | [] => ret collected
  | file :: rest =>
      let sourcePath := Path.resolve (processCwd h) [templateRoot; source file] in
      fun w =>
        if negb (Fs.existsSync h sourcePath w) then
          Throw (JsError ("Missing template source for registry export: " +:+ sourcePath)) w
        else
          (src ← Fs.readFile h sourcePath;
           content ← rewriteImports h src
                       (interpolateReplacements DEFAULT_ALIASES (replaceImports file));
           readTemplateFiles h templateRoot item rest
             (collected ++ [{|
                ExportedRegistryFile.path :=
                  "registry/chris-lally/" +:+ slugForItem item +:+ "/" +:+ target file;
                ExportedRegistryFile.content := content;
                ExportedRegistryFile.type := fileTypeForTarget (target file);
                ExportedRegistryFile.target := Some (target file) |}])%list) w
  end.

Definition readTemplateContent (h : Host) (templateRoot : string) (item : RegistryItem)
    : M (list ExportedRegistryFile.t) :=
  readTemplateFiles h templateRoot item (files item) [].

Definition writeJson (h : Host) (path : string) (value : JsonDoc) : M unit :=
  Fs.mkdir h (Path.dirname path) ;;
  Fs.writeFile h path (JSON_stringify h value +:+ String "010"%char EmptyString).

Definition exportedItemOf (item : RegistryItem) (exported : list ExportedRegistryFile.t)
    : ExportedRegistryItem.t := {|
  ExportedRegistryItem.schema := "https://ui.shadcn.com/schema/registry-item.json";
  ExportedRegistryItem.name := slugForItem item;
  ExportedRegistryItem.type := "registry:component";
  ExportedRegistryItem.title := titleCase (slugForItem item);
  ExportedRegistryItem.description := description item;
  ExportedRegistryItem.dependencies := dependencies item;
  ExportedRegistryItem.registryDependencies := registryDependencies item;
  ExportedRegistryItem.files := exported
|}.

Definition manifestItemOf (item : RegistryItem) (exported : list ExportedRegistryFile.t)
    : ManifestItem.t := {|
  ManifestItem.name := slugForItem item;
  ManifestItem.type := "registry:component";
  ManifestItem.title := titleCase (slugForItem item);
  ManifestItem.description := description item;
  ManifestItem.dependencies := dependencies item;
  ManifestItem.registryDependencies := registryDependencies item;
  ManifestItem.files :=
    map (fun file => {| ManifestFile.path := ExportedRegistryFile.path file;
                        ManifestFile.type := ExportedRegistryFile.type file;
                        ManifestFile.target := ExportedRegistryFile.target file |}) exported
|}.

(** The [for (const item of items)] loop of [exportRegistry]. *)
Fixpoint exportItems (h : Host) (templateRoot outDir : string)
    (pending : list RegistryItem) (exportedItems : list ManifestItem.t)
    : M (list ManifestItem.t) :=
  match pending with
  | [] => ret exportedItems
  | item :: rest =>
      let slug := slugForItem item in
      exported ← readTemplateContent h templateRoot item;
      writeJson h (Path.resolve (processCwd h) [outDir; slug +:+ ".json"])
        (ItemDoc (exportedItemOf item exported)) ;;
      exportItems h templateRoot outDir rest
        (exportedItems ++ [manifestItemOf item exported])%list
  end.

Definition manifestOf (exportedItems : list ManifestItem.t) : RegistryManifest.t := {|
  RegistryManifest.schema := "https://ui.shadcn.com/schema/registry.json";
  RegistryManifest.name := "chris-lally";
  RegistryManifest.homepage := "https://github.com/ChrisLally/lally-ui";
  RegistryManifest.items := exportedItems
|}.

(** [exportRegistry] over the catalog that [listRegistryItems()] returns. *)
Definition exportRegistryOf (catalog : list RegistryItem) (h : Host) (outDir : string) : M unit :=
  let templateRoot := Path.resolve (processCwd h) [moduleDirname h; "../../templates"] in
  fun w =>
    if negb (Fs.existsSync h templateRoot w) then
      Throw (JsError ("Missing templates directory: " +:+ templateRoot)) w
    else
      (exportedItems ← exportItems h templateRoot outDir catalog [];
       writeJson h (Path.resolve (processCwd h) [outDir; "registry.json"])
         (ManifestDoc (manifestOf exportedItems)) ;;
       consoleLog ("Exported " +:+ pretty (length catalog) +:+ " registry item(s) to " +:+ outDir)) w.

Definition exportRegistry (h : Host) (outDir : string) : M unit :=
  exportRegistryOf listRegistryItems h outDir.

(** A host and a small project used to run the model on concrete inputs. *)
Definition demoHost : Host := {|
  processCwd := "/proj";
  moduleDirname := "/pkg/dist/registry";
  JSON_parse := fun raw =>
    if String.eqb raw "{}" then Some {| ComponentsConfig.aliases := None |} else None;
  JSON_stringify := fun doc =>
    match doc with
    | ItemDoc item => ExportedRegistryItem.name item
    | ManifestDoc manifest => RegistryManifest.name manifest
    end;
  RegExp_replace := fun _ _ _ => None;
  spawnSync := fun _ _ _ m => (Some 0%Z, m)
|}.

Definition demoFs : gmap (list string) Entry :=
  list_to_map [
    (["pkg"], Dir);
    (["pkg"; "templates"], Dir);
    (["pkg"; "templates"; "branding"], Dir);
    (["pkg"; "templates"; "branding"; "components"], Dir);
    (["pkg"; "templates"; "branding"; "components"; "branding"], Dir);
    (["pkg"; "templates"; "branding"; "components"; "branding"; "logo-with-badge.tsx"],
     File "import { Badge } from '@/components/ui/badge';");
    (["proj"], Dir);
    (["proj"; "components.json"], File "{}")
  ].

Definition demoWorld : World := {| fs := demoFs; trace := [] |}.

(** The vocabulary of the specification for paths and texts. *)
Definition beginsWith (s p : string) : Prop := exists rest, s = p +:+ rest.
Definition contains (s p : string) : Prop := exists before after, s = before +:+ p +:+ after.

(** The canonical form of an absolute path: empty and [.] segments
    dropped, [..] resolved, no trailing slash. *)
Definition canonical (p : string) : string :=
  "/" +:+ Path.join (Path.normalize false [] (Path.split p)).

(** A source line importing [cn] from [specifier], in double quotes. *)
Definition doubleQuotedImport (specifier rest : string) : string :=
  "import { cn } from " +:+ String RegExp.dquote specifier +:+ String RegExp.dquote rest.

(** A world in which the regular file [/a] stands where [/a/b] needs a
    directory. *)
Definition blockedWorld : World :=
  {| fs := {[ ["a"] := File "data" ]}; trace := [] |}.

(** The write of the per-item document of [item], and of the manifest. *)
Definition itemWrite (h : Host) (outDir : string) (item : RegistryItem)
    (doc : ExportedRegistryItem.t) : Event :=
  EvWriteFile (Path.resolve (processCwd h) [outDir; slugForItem item +:+ ".json"])
              (JSON_stringify h (ItemDoc doc) +:+ String "010"%char EmptyString).

Definition manifestWrite (h : Host) (outDir : string) (manifest : RegistryManifest.t) : Event :=
  EvWriteFile (Path.resolve (processCwd h) [outDir; "registry.json"])
              (JSON_stringify h (ManifestDoc manifest) +:+ String "010"%char EmptyString).

Definition templateRootOf (h : Host) : string :=
  Path.resolve (processCwd h) [moduleDirname h; "../../templates"].

(** No regular file is found at [p]. *)
Definition missingFile (h : Host) (p : string) (w : World) : Prop :=
  forall c, Fs.lookup h p w <> Some (File c).

(** The rules of [fileTypeForTarget], in the order the code tests them. *)
Definition hookPath (target : string) : Prop :=
  contains target "/hooks/" \/ beginsWith target "hooks/".
Definition libPath (target : string) : Prop :=
  contains target "/lib/" \/ beginsWith target "lib/" \/
  contains target "/types/" \/ beginsWith target "types/".

(** Keys and replacements without special characters. A dotted key holds
    ordinary pattern characters and dots; a plain key holds ordinary
    pattern characters only. *)
Fixpoint dottedKey (key : string) : bool :=
  match key with
  | EmptyString => true
  | String c rest =>
      (Ascii.eqb c "."%char || negb (RegExp.isSyntaxCharacter c)) && dottedKey rest
  end.

Fixpoint plainKey (key : string) : bool :=
  match key with
  | EmptyString => true
  | String c rest => negb (RegExp.isSyntaxCharacter c) && plainKey rest
  end.

Fixpoint dollarFree (s : string) : bool :=
  match s with
  | EmptyString => true
  | String c rest => negb (Ascii.eqb c "$"%char) && dollarFree rest
  end.

Definition isQuote (c : ascii) : bool :=
  Ascii.eqb c RegExp.squote || Ascii.eqb c RegExp.dquote.

(** The specifiers that the pattern of a dotted key accepts: the key with
    any character but a line terminator in the place of each dot. *)
Fixpoint specifierMatches (key specifier : string) : bool :=
  match key, specifier with
  | EmptyString, EmptyString => true
  | String k key', String c specifier' =>
      (if Ascii.eqb k "."%char then negb (RegExp.isLineTerminator c) else Ascii.eqb k c)
      && specifierMatches key' specifier'
  | _, _ => false
  end.

(** The text [from <q1><specifier><q2>], for a specifier that the key
    accepts, at the head of [s]. *)
Definition importAtHead (key s : string) : Prop :=
  exists q1 q2 specifier rest,
    isQuote q1 = true /\ isQuote q2 = true /\
    specifierMatches key specifier = true /\
    s = "from " +:+ String q1 (specifier +:+ String q2 rest).

Definition keyAtom (c : ascii) : RegExp.atom :=
  if Ascii.eqb c "."%char then RegExp.Dot else RegExp.Lit c.

(** The pattern that [importPattern key] compiles to for a dotted key. *)
Definition importRegex (key : string) : list RegExp.atom :=
  map RegExp.Lit (list_ascii_of_string "from ") ++
  [RegExp.Class [RegExp.squote; RegExp.dquote]] ++
  map keyAtom (list_ascii_of_string key) ++
  [RegExp.Class [RegExp.squote; RegExp.dquote]].

(** A segment as [resolve] returns them: not empty, neither [.] nor [..],
    without a slash. *)
Fixpoint noSlash (s : string) : bool :=
  match s with
  | EmptyString => true
  | String c rest => negb (Ascii.eqb c "/"%char) && noSlash rest
  end.

Definition cleanSegment (seg : string) : bool :=
  noSlash seg && negb (String.eqb seg "") && negb (String.eqb seg ".")
  && negb (String.eqb seg "..").

(** ** The command line ([runCli]) *)

Module Cli.

Record CliArgs := {
  command : option string;
  rest : list string
}.

(** [const [command, ...rest] = argv] *)
Definition parseArgs (argv : list string) : CliArgs :=
  {| command := head argv; rest := tail argv |}.

(** [!value] for a string that may be [undefined] *)
Definition falsy (value : option string) : bool :=
  match value with
  | None => true
  | Some s => String.eqb s ""
  end.

(** A [Map<string, string[]>], its entries in insertion order. *)
Fixpoint mapGet (key : string) (entries : list (string * list string))
    : option (list string) :=
  match entries with
  | [] => None
  | (k, v) :: later => if String.eqb k key then Some v else mapGet key later
  end.

Fixpoint mapSet (key : string) (value : list string) (entries : list (string * list string))
    : list (string * list string) :=
  match entries with
  | [] => [(key, value)]
  | (k, v) :: later =>
      if String.eqb k key then (k, value) :: later else (k, v) :: mapSet key value later
  end.

(** The loop of [printHelp] that fills [byNamespace]. *)
Fixpoint groupByNamespace (pending : list RegistryItem)
    (byNamespace : list (string * list string)) : list (string * list string) :=
  match pending with
  | [] => byNamespace
  | item :: later =>
      let names := nullish (mapGet (namespace item) byNamespace) [] in
      groupByNamespace later (mapSet (namespace item) (names ++ [name item]) byNamespace)
  end.

Fixpoint logAll (lines : list string) : M unit :=
  match lines with
  | [] => ret tt
  | line :: later => consoleLog line ;; logAll later
  end.

Definition helpLines : list string := [
  "lally-ui";
  "";
  "Usage:";
  "  lally-ui <command> [options]";
  "";
  "Commands:";
  "  init      Initialize UI project config";
  "  add       Add UI components/templates";
  "  registry  Export shadcn-compatible registry JSON";
  "  doctor    Validate UI project setup";
  "";
  "Examples:";
  "  lally-ui init";
  "  lally-ui add fumadocs/sdk-layout";
  "  lally-ui add branding/logo-with-badge";
  "  lally-ui registry export --out public/r";
  "  lally-ui doctor";
  "";
  "Available items:"
].

(** [`  ${namespace}/${names.join(`, ${namespace}/`)}`] *)
Definition namespaceLine (entry : string * list string) : string :=
  "  " +:+ fst entry +:+ "/" +:+ joinWith (", " +:+ fst entry +:+ "/") (snd entry).

Definition printHelpOf (catalog : list RegistryItem) : M unit :=
  logAll helpLines ;;
  logAll (map namespaceLine (groupByNamespace catalog [])).

(** [[...new Set(values)]]: the first occurrence of each value, in order. *)
Fixpoint unique (seen values : list string) : list string :=
  match values with
  | [] => []
  | value :: later =>
      if existsb (String.eqb value) seen then unique seen later
      else value :: unique (value :: seen) later
  end.

(** The loop of [registry export] over [registryArgs]. *)
Fixpoint outDirOf (registryArgs : list string) (outDir : string) : string :=
  match registryArgs with
  | [] => outDir
  | arg :: later =>
      if String.eqb arg "--out" then
        match later with
        | value :: later' =>
            if String.eqb value "" then outDirOf later outDir else outDirOf later' value
        | [] => outDir
        end
      else outDirOf later outDir
  end.

(** How a call of [runCli] ends: the promise is fulfilled or rejected. *)
Inductive Settled :=
| Fulfilled
| Rejected (e : Error).

(** What a call of [runCli] leaves: the world, the lines written with
    [console.error], and the value it assigned to [process.exitCode], if
    any. *)
Record Run := {
  settled : Settled;
  after : World;
  errors : list string;
  exitCode : option Z
}.

Definition finish (r : Result unit) : Run :=
  match r with
  | Ok _ w => {| settled := Fulfilled; after := w; errors := []; exitCode := None |}
  | Throw e w => {| settled := Rejected e; after := w; errors := []; exitCode := None |}
  end.

(** [console.error] of each line, then [process.exitCode = 1; return]. *)
Definition fail (lines : list string) (w : World) : Run :=
  {| settled := Fulfilled; after := w; errors := lines; exitCode := Some 1%Z |}.

Definition add (catalog : list RegistryItem) (h : Host) (rest : list string) (w : World) : Run :=
  let item := head rest in
  if falsy item then
    fail ["Missing component/template name."; "Usage: lally-ui add <namespace/item>"] w
  else
    let parts := Path.split (nullish item "") in
    if falsy (parts !! 0) || falsy (parts !! 1) then
      fail ["Invalid item format.";
            "Use <namespace/item>, for example: fumadocs/sdk-layout"] w
    else
      let namespace' := nullish (parts !! 0) "" in
      let name' := nullish (parts !! 1) "" in
      let supportedNamespaces := unique [] (map namespace catalog) in
      if negb (existsb (String.eqb namespace') supportedNamespaces) then
        fail ["Unknown namespace: " +:+ namespace';
              "Available namespaces: " +:+ joinWith ", " supportedNamespaces] w
      else
        let itemId := namespace' +:+ "/" +:+ name' in
        match findIn catalog itemId with
        | None =>
            let available :=
              map name (List.filter (fun entry => String.eqb (namespace entry) namespace')
                          catalog) in
            fail ["Unknown " +:+ namespace' +:+ " item: " +:+ name';
                  "Available: " +:+ joinWith ", " available] w
        | Some itemEntry => finish (applyRegistryItem h (processCwd h) itemEntry w)
        end.

Definition registry (catalog : list RegistryItem) (h : Host) (rest : list string) (w : World)
    : Run :=
  let subcommand := head rest in
  let registryArgs := tail rest in
  match subcommand with
  | Some "export" =>
      let outDir := outDirOf registryArgs "public/r" in
      finish (exportRegistryOf catalog h
                (Path.resolve (processCwd h) [processCwd h; outDir]) w)
  | _ =>
      fail ["Unknown registry command: " +:+ nullish subcommand "(missing)";
            "Usage: lally-ui registry export [--out <dir>]"] w
  end.

(** [runCli] over the catalog that [listRegistryItems()] returns. *)
Definition runCliOf (catalog : list RegistryItem) (h : Host) (argv : list string) (w : World)
    : Run :=
  let args := parseArgs argv in
  if falsy (command args) then finish (printHelpOf catalog w)
  else
    let command' := nullish (command args) "" in
    if String.eqb command' "--help" || String.eqb command' "-h" || String.eqb command' "help"
    then finish (printHelpOf catalog w)
    else if String.eqb command' "init" then finish (consoleLog "init: scaffold coming soon" w)
    else if String.eqb command' "add" then add catalog h (rest args) w
    else if String.eqb command' "doctor" then
      finish (consoleLog "doctor: checks coming soon" w)
    else if String.eqb command' "registry" then registry catalog h (rest args) w
    else
      match (consoleLog "" ;; printHelpOf catalog) w with
      | Ok _ w' =>
          {| settled := Fulfilled; after := w';
             errors := ["Unknown command: " +:+ command']; exitCode := Some 1%Z |}
      | Throw e w' =>
          {| settled := Rejected e; after := w';
             errors := ["Unknown command: " +:+ command']; exitCode := None |}
      end.

Definition runCli (h : Host) (argv : list string) (w : World) : Run :=
  runCliOf listRegistryItems h argv w.

End Cli.

(** ** Vocabulary of the further properties *)

(** Components that the walk passes without a look at the file system:
    no [..] follows a name. [named] tells whether the place before the
    components was reached by a name; [namedAfter] is that flag after
    them. *)
Fixpoint steady (named : bool) (components : list string) : bool :=
  match components with
  | [] => true
  | seg :: rest =>
      if String.eqb seg "" || String.eqb seg "." then steady named rest
      else if String.eqb seg ".." then negb named && steady false rest
      else steady true rest
  end.

Fixpoint namedAfter (named : bool) (components : list string) : bool :=
  match components with
  | [] => named
  | seg :: rest =>
      if String.eqb seg "" || String.eqb seg "." then namedAfter named rest
      else if String.eqb seg ".." then namedAfter false rest
      else namedAfter true rest
  end.

(** The world an operation leaves, whether it returns or throws. *)
Definition worldOf {A} (r : Result A) : World :=
  match r with
  | Ok _ w => w
  | Throw _ w => w
  end.

(** Every slash replaced by a dash. *)
Fixpoint slashesToDashes (s : string) : string :=
  match s with
  | EmptyString => EmptyString
  | String c rest =>
      String (if Ascii.eqb c "/"%char then "-"%char else c) (slashesToDashes rest)
  end.

(** A text without an opening brace. *)
Fixpoint noBrace (s : string) : bool :=
  match s with
  | EmptyString => true
  | String c rest => negb (Ascii.eqb c "{"%char) && noBrace rest
  end.

(** The processes spawned, in order. *)
Definition isSpawn (ev : Event) : bool :=
  match ev with
  | EvSpawn _ _ _ => true
  | _ => false
  end.

Definition spawnsOf (events : list Event) : list Event := List.filter isSpawn events.


(** What a completed pass over the files of an item establishes about
    each file, in the world it leaves: the source is read, the rewriting
    succeeds, and something exists at the target. *)
Definition settled (h : Host) (aliases : AliasContext) (componentsRoot templateRoot : string)
    (m : gmap (list string) Entry) (file : RegistryFile) : Prop :=
  exists src transformed,
    Fs.lookup h (Path.resolve (processCwd h) [templateRoot; source file])
      {| fs := m; trace := [] |} = Some (File src) /\
    applyImportReplacements h src (interpolateReplacements aliases (replaceImports file))
    = Some transformed /\
    Fs.existsSync h (Path.resolve (processCwd h) [componentsRoot; target file])
      {| fs := m; trace := [] |} = true.

(** * Properties *)

(** ** Strings *)

Lemma append_nil (t : string) : "" +:+ t = t.
Proof. reflexivity. Qed.

Lemma append_cons (c : ascii) (s t : string) : String c s +:+ t = String c (s +:+ t).
Proof. reflexivity. Qed.

(** Push [+:+] through the constructors of its first argument. *)
Ltac str_simpl := repeat (rewrite append_cons || rewrite append_nil).

Lemma append_empty_r (s : string) : s +:+ "" = s.
Proof. induction s as [|c s IH]; str_simpl; [reflexivity | now rewrite IH]. Qed.

Lemma append_assoc (a b c : string) : (a +:+ b) +:+ c = a +:+ (b +:+ c).
Proof. induction a as [|x a IH]; str_simpl; [reflexivity | now rewrite IH]. Qed.

Lemma startsWith_beginsWith (s p : string) :
  Js.startsWith s p = true <-> beginsWith s p.
Proof.
  unfold beginsWith. revert s.
  induction p as [|c p IH]; intros s; simpl.
  - split; [intros _; now exists s | reflexivity].
  - destruct s as [|d s].
    + split; [discriminate | intros [r Hr]; discriminate].
    + destruct (Ascii.eqb_spec c d) as [->|Hne].
      * rewrite IH. split; intros [r Hr]; exists r; [now rewrite Hr | now inversion Hr].
      * split; [discriminate | intros [r Hr]; inversion Hr; congruence].
Qed.

Lemma includes_contains (s p : string) :
  Js.includes s p = true <-> contains s p.
Proof.
  unfold contains.
  induction s as [|d s IH].
  - simpl. rewrite orb_false_r, startsWith_beginsWith. split.
    + intros [r Hr]. exists "", r. exact Hr.
    + intros [a [b Hab]]. destruct a; [now exists b | discriminate].
  - change (Js.includes (String d s) p)
      with (Js.startsWith (String d s) p || Js.includes s p).
    rewrite orb_true_iff, IH, startsWith_beginsWith. split.
    + intros [[r Hr] | [a [b Hab]]].
      * exists "", r. exact Hr.
      * exists (String d a), b. simpl. now rewrite Hab.
    + intros [a [b Hab]]. destruct a as [|x a].
      * left. now exists b.
      * right. exists a, b. now inversion Hab.
Qed.

(** ** The catalog *)

Lemma findIn_some (catalog : list RegistryItem) (wanted : string) (item : RegistryItem) :
  findIn catalog wanted = Some item -> In item catalog /\ id item = wanted.
Proof.
  induction catalog as [|x rest IH]; simpl; [discriminate|].
  destruct (String.eqb_spec (id x) wanted) as [Heq|Hne].
  - intros [= <-]. auto.
  - intros H. destruct (IH H). auto.
Qed.

Lemma findIn_none (catalog : list RegistryItem) (wanted : string) :
  findIn catalog wanted = None -> forall other, In other catalog -> id other <> wanted.
Proof.
  induction catalog as [|x rest IH]; simpl; [tauto|].
  destruct (String.eqb_spec (id x) wanted) as [Heq|Hne]; [discriminate|].
  intros H other [<-|Hin]; [assumption | now apply IH].
Qed.

Lemma unique_by_id (catalog : list RegistryItem) (a b : RegistryItem) :
  List.NoDup (map id catalog) -> In a catalog -> In b catalog -> id a = id b -> a = b.
Proof.
  induction catalog as [|x rest IH]; simpl; [tauto|].
  intros Hnd Ha Hb Hab. apply List.NoDup_cons_iff in Hnd as [Hx Hnd].
  destruct Ha as [<-|Ha], Hb as [<-|Hb]; auto.
  - exfalso. apply Hx. rewrite Hab. now apply in_map.
  - exfalso. apply Hx. rewrite <- Hab. now apply in_map.
Qed.

(** C8. The catalog lists its items in a fixed order, no two of them share
    an id, and [findRegistryItem] returns the one item whose id is the
    argument, or nothing when there is none; it never throws. *)
Theorem catalog_list_and_find :
  listRegistryItems = [fumadocsSdkLayoutItem; brandingLogoWithBadgeItem] /\
  List.NoDup (map id listRegistryItems) /\
  (forall wanted,
     match findRegistryItem wanted with
     | Some item =>
         In item listRegistryItems /\ id item = wanted /\
         forall other, In other listRegistryItems -> id other = wanted -> other = item
     | None => forall other, In other listRegistryItems -> id other <> wanted
     end) /\
  findRegistryItem "branding/logo-with-badge" = Some brandingLogoWithBadgeItem /\
  findRegistryItem "nonexistent/thing" = None.
Proof.
  assert (Hnd : List.NoDup (map id listRegistryItems)).
  { unfold listRegistryItems, items. simpl.
    repeat constructor; simpl; intros H; decompose [or] H; try discriminate; auto. }
  split; [reflexivity|]. split; [exact Hnd|]. split; [|split; reflexivity].
  intros wanted. unfold findRegistryItem.
  destruct (findIn items wanted) as [item|] eqn:Hfind.
  - destruct (findIn_some _ _ _ Hfind) as [Hin Hid].
    repeat split; auto.
    intros other Hother Hoid. apply (unique_by_id items); auto. congruence.
  - now apply findIn_none.
Qed.

(** ** File classification *)

(** C7 as stated fails: a path that contains [hooks/] without a [hooks]
    directory segment is not classified as a hook. *)
Lemma fileType_contains_hooks_counterexample :
  ~ (forall target,
       ~ beginsWith target "app/" -> contains target "hooks/" ->
       fileTypeForTarget target = registry_hook).
Proof.
  intros H. specialize (H "src/myhooks/a.ts").
  assert (Hty : fileTypeForTarget "src/myhooks/a.ts" = registry_component) by reflexivity.
  rewrite Hty in H.
  assert (registry_component = registry_hook); [|discriminate].
  apply H.
  - intros [r Hr]. discriminate.
  - exists "src/my", "a.ts". reflexivity.
Qed.

(** C7, amended. Four rules in priority order: a path beginning with
    [app/] is a page; otherwise a path containing [/hooks/] or beginning
    with [hooks/] is a hook; otherwise a path containing [/lib/] or
    [/types/], or beginning with [lib/] or [types/], is a library;
    otherwise it is a component. *)
Theorem fileTypeForTarget_rules (target : string) :
  (beginsWith target "app/" -> fileTypeForTarget target = registry_page) /\
  (~ beginsWith target "app/" -> hookPath target ->
   fileTypeForTarget target = registry_hook) /\
  (~ beginsWith target "app/" -> ~ hookPath target -> libPath target ->
   fileTypeForTarget target = registry_lib) /\
  (~ beginsWith target "app/" -> ~ hookPath target -> ~ libPath target ->
   fileTypeForTarget target = registry_component) /\
  fileTypeForTarget "app/page.tsx" = registry_page /\
  fileTypeForTarget "hooks/use-foo.ts" = registry_hook /\
  fileTypeForTarget "lib/utils.ts" = registry_lib /\
  fileTypeForTarget "components/button.tsx" = registry_component.
Proof.
  unfold hookPath, libPath, fileTypeForTarget.
  rewrite <- !startsWith_beginsWith, <- !includes_contains.
  destruct (Js.startsWith target "app/");
    destruct (Js.includes target "/hooks/");
    destruct (Js.startsWith target "hooks/");
    destruct (Js.includes target "/lib/");
    destruct (Js.startsWith target "lib/");
    destruct (Js.includes target "/types/");
    destruct (Js.startsWith target "types/"); simpl;
    repeat split; try reflexivity; try congruence; try tauto;
    intros; exfalso; intuition congruence.
Qed.

Lemma fileTypeForTarget_rules_witness :
  fileTypeForTarget "src/hooks/use-foo.ts" = registry_hook /\
  fileTypeForTarget "src/types/a.ts" = registry_lib.
Proof.
  split.
  - apply (proj1 (proj2 (fileTypeForTarget_rules "src/hooks/use-foo.ts"))).
    + intros [r Hr]. discriminate.
    + left. exists "src", "use-foo.ts". reflexivity.
  - apply (proj1 (proj2 (proj2 (fileTypeForTarget_rules "src/types/a.ts")))).
    + intros [r Hr]. discriminate.
    + unfold hookPath. rewrite <- startsWith_beginsWith, <- includes_contains.
      simpl. intuition discriminate.
    + right. right. left. exists "src", "a.ts". reflexivity.
Defined.

(** ** Import rewriting *)

(** *** Rewriting with keys and replacements without special characters *)

Lemma parse_dotted (key rest : string) :
  dottedKey key = true ->
  RegExp.parse None (key +:+ rest)
  = match RegExp.parse None rest with
    | Some re => Some (map keyAtom (list_ascii_of_string key) ++ re)
    | None => None
    end.
Proof.
  induction key as [|c key IH]; str_simpl; simpl.
  - intros _. now destruct (RegExp.parse None rest).
  - intros H. apply andb_true_iff in H as [Hc Hkey]. rewrite (IH Hkey). unfold keyAtom.
    destruct (Ascii.eqb_spec c ".") as [->|Hdot].
    + simpl. now destruct (RegExp.parse None rest).
    + simpl in Hc. apply negb_true_iff in Hc. rewrite Hc.
      destruct (Ascii.eqb_spec c "[") as [->|Hbr]; [discriminate Hc|].
      now destruct (RegExp.parse None rest).
Qed.

Lemma compile_importPattern (key : string) :
  dottedKey key = true -> RegExp.compile (importPattern key) = Some (importRegex key).
Proof.
  intros Hkey. unfold RegExp.compile, importPattern, importRegex, RegExp.dquote, RegExp.squote.
  str_simpl. simpl. rewrite (parse_dotted key _ Hkey). reflexivity.
Qed.

Lemma matchesAt_lits (text : string) (re : list RegExp.atom) (s : string) :
  RegExp.matchesAt (map RegExp.Lit (list_ascii_of_string text) ++ re) s = true
  <-> exists rest, s = text +:+ rest /\ RegExp.matchesAt re rest = true.
Proof.
  revert s. induction text as [|c text IH]; intros s; simpl.
  - split; [intros H; now exists s | now intros [rest [-> H]]].
  - destruct s as [|d s].
    + split; [discriminate | intros [rest [H _]]; discriminate].
    + rewrite andb_true_iff, IH. split.
      * intros [Hc [rest [-> Hre]]]. apply Ascii.eqb_eq in Hc as ->. now exists rest.
      * intros [rest [Heq Hre]]. inversion Heq; subst. split; [apply Ascii.eqb_refl | eauto].
Qed.

Lemma matchesAt_key (key : string) (re : list RegExp.atom) (s : string) :
  RegExp.matchesAt (map keyAtom (list_ascii_of_string key) ++ re) s = true
  <-> exists specifier rest,
        s = specifier +:+ rest /\ specifierMatches key specifier = true /\
        RegExp.matchesAt re rest = true.
Proof.
  revert s. induction key as [|k key IH]; intros s; simpl.
  - split.
    + intros H. now exists "", s.
    + intros (specifier & rest & -> & Hspec & H). now destruct specifier.
  - destruct s as [|d s].
    + split; [discriminate|].
      intros (specifier & rest & Heq & Hspec & _). destruct specifier; discriminate.
    + rewrite andb_true_iff, IH. unfold keyAtom. split.
      * intros [Hc (specifier & rest & -> & Hspec & Hre)].
        exists (String d specifier), rest. repeat split; [|exact Hre].
        simpl. rewrite Hspec, andb_true_r.
        destruct (Ascii.eqb k "."); exact Hc.
      * intros (specifier & rest & Heq & Hspec & Hre).
        destruct specifier as [|c specifier]; [discriminate|].
        inversion Heq; subst. simpl in Hspec. apply andb_true_iff in Hspec as [Hc Hspec].
        split; [destruct (Ascii.eqb k "."); exact Hc | eauto].
Qed.

Lemma matchesAt_quote (re : list RegExp.atom) (s : string) :
  RegExp.matchesAt (RegExp.Class [RegExp.squote; RegExp.dquote] :: re) s = true
  <-> exists q rest, isQuote q = true /\ s = String q rest /\ RegExp.matchesAt re rest = true.
Proof.
  simpl. destruct s as [|d s].
  - split; [discriminate | intros (q & rest & _ & H & _); discriminate].
  - rewrite andb_true_iff, orb_false_r. unfold isQuote. split.
    + intros [Hq Hre]. now exists d, s.
    + intros (q & rest & Hq & Heq & Hre). now inversion Heq; subst.
Qed.

Lemma matchesAt_importRegex (key s : string) :
  RegExp.matchesAt (importRegex key) s = true <-> importAtHead key s.
Proof.
  unfold importRegex, importAtHead.
  rewrite matchesAt_lits. split.
  - intros (r1 & -> & H1). simpl app in H1.
    apply matchesAt_quote in H1 as (q1 & r2 & Hq1 & -> & H2).
    apply matchesAt_key in H2 as (specifier & r3 & -> & Hspec & H3).
    apply matchesAt_quote in H3 as (q2 & r4 & Hq2 & -> & _).
    now exists q1, q2, specifier, r4.
  - intros (q1 & q2 & specifier & rest & Hq1 & Hq2 & Hspec & ->).
    exists (String q1 (specifier +:+ String q2 rest)). split; [reflexivity|].
    simpl app. apply matchesAt_quote.
    exists q1, (specifier +:+ String q2 rest). repeat split; auto.
    apply matchesAt_key. exists specifier, (String q2 rest). repeat split; auto.
    apply matchesAt_quote. now exists q2, rest.
Qed.

Lemma specifierMatches_length (key specifier : string) :
  specifierMatches key specifier = true -> String.length specifier = String.length key.
Proof.
  revert specifier. induction key as [|k key IH]; intros [|c specifier]; simpl;
    try discriminate; [reflexivity|].
  intros H. apply andb_true_iff in H as [_ H]. now rewrite (IH _ H).
Qed.

(** A plain key accepts itself only. *)
Lemma specifierMatches_plain (key specifier : string) :
  plainKey key = true -> (specifierMatches key specifier = true <-> specifier = key).
Proof.
  revert specifier. induction key as [|k key IH]; intros [|c specifier]; simpl;
    try (intros _; split; [discriminate | discriminate]); [tauto|].
  intros H. apply andb_true_iff in H as [Hk Hkey]. apply negb_true_iff in Hk.
  destruct (Ascii.eqb_spec k ".") as [->|Hdot]; [discriminate Hk|].
  rewrite andb_true_iff, (IH _ Hkey), Ascii.eqb_eq. split.
  - now intros [-> ->].
  - intros [= -> ->]. auto.
Qed.

Lemma GetSubstitution_dollarFree (matched before after template : string) :
  dollarFree template = true ->
  RegExp.GetSubstitution matched before after template = template.
Proof.
  induction template as [|c rest IH]; simpl; [reflexivity|].
  intros H. apply andb_true_iff in H as [Hc Hrest]. apply negb_true_iff in Hc.
  now rewrite Hc, (IH Hrest).
Qed.

Lemma replaceFrom_seen (re : list RegExp.atom) (template : string) :
  dollarFree template = true ->
  forall s seen seen' skip,
    RegExp.replaceFrom re template seen skip s = RegExp.replaceFrom re template seen' skip s.
Proof.
  intros Hfree. induction s as [|c s IH]; intros seen seen' skip; simpl.
  - now rewrite !GetSubstitution_dollarFree.
  - destruct skip as [|k]; [|apply IH].
    rewrite !GetSubstitution_dollarFree by assumption.
    destruct (RegExp.matchesAt re (String c s)); [|f_equal; apply IH].
    f_equal. destruct (length re); [f_equal|]; apply IH.
Qed.

Lemma replaceFrom_skip (re : list RegExp.atom) (template matched rest seen : string) :
  RegExp.replaceFrom re template seen (String.length matched) (matched +:+ rest)
  = RegExp.replaceFrom re template (seen +:+ matched) 0 rest.
Proof.
  revert seen. induction matched as [|c matched IH]; intros seen; str_simpl.
  - now rewrite append_empty_r.
  - simpl. rewrite IH, append_assoc. reflexivity.
Qed.

(** Where the pattern matches nowhere the text is returned as it is. *)
Lemma replace_no_match (re : list RegExp.atom) (template s : string) :
  (forall before after, s = before +:+ after -> RegExp.matchesAt re after = false) ->
  RegExp.replace re template s = s.
Proof.
  intros Hnone. unfold RegExp.replace. generalize EmptyString as seen.
  revert Hnone. induction s as [|c s IH]; intros Hnone seen; simpl.
  - now rewrite (Hnone "" "" eq_refl).
  - rewrite (Hnone "" (String c s) eq_refl). f_equal. apply IH.
    intros before after ->. apply (Hnone (String c before) after). reflexivity.
Qed.

(** The leftmost match is replaced by the template and the scan resumes
    after it. *)
Lemma replace_leftmost (re : list RegExp.atom) (template before matched rest : string) :
  dollarFree template = true ->
  re <> [] ->
  String.length matched = length re ->
  RegExp.matchesAt re (matched +:+ rest) = true ->
  (forall skipped here, before = skipped +:+ here -> here <> EmptyString ->
     RegExp.matchesAt re (here +:+ matched +:+ rest) = false) ->
  RegExp.replace re template (before +:+ matched +:+ rest)
  = before +:+ template +:+ RegExp.replace re template rest.
Proof.
  intros Hfree Hre Hlen Hmatch Hleft. unfold RegExp.replace. generalize EmptyString as seen.
  revert Hleft. induction before as [|c before IH]; intros Hleft seen; str_simpl.
  - destruct matched as [|c matched]; [destruct re; [congruence | discriminate]|].
    str_simpl. simpl. rewrite ?append_cons in Hmatch. rewrite Hmatch.
    rewrite GetSubstitution_dollarFree by assumption.
    simpl in Hlen. rewrite <- Hlen. f_equal.
    rewrite replaceFrom_skip. now apply replaceFrom_seen.
  - simpl. rewrite <- append_cons.
    rewrite (Hleft "" (String c before) eq_refl) by discriminate.
    f_equal. rewrite IH.
    + do 2 f_equal. now apply replaceFrom_seen.
    + intros skipped here -> Hhere. now apply (Hleft (String c skipped) here).
Qed.

Lemma dollarFree_append (a b : string) :
  dollarFree (a +:+ b) = dollarFree a && dollarFree b.
Proof.
  induction a as [|c a IH]; str_simpl; simpl; [reflexivity|].
  now rewrite IH, andb_assoc.
Qed.

Lemma length_append (a b : string) :
  String.length (a +:+ b) = String.length a + String.length b.
Proof. induction a as [|c a IH]; str_simpl; simpl; [reflexivity | now rewrite IH]. Qed.

Lemma length_chars (s : string) : length (list_ascii_of_string s) = String.length s.
Proof. induction s as [|c s IH]; simpl; [reflexivity | now rewrite IH]. Qed.

(** One step of the rewriting loop, for a key of ordinary characters and
    dots and a replacement without [$]: a text without occurrence of
    [from <quote><specifier><quote>], for a specifier the key accepts, is
    returned as it is; otherwise the leftmost occurrence, whatever its
    quotes, is replaced by [from '<to>'] and the step goes on with the text
    after it. *)
Theorem replaceImport_rule (h : Host) (key to : string) :
  dottedKey key = true -> dollarFree to = true ->
  (forall s,
     (forall before after, s = before +:+ after -> ~ importAtHead key after) ->
     replaceImport h key to s = Some s) /\
  (forall before q1 q2 specifier rest,
     isQuote q1 = true -> isQuote q2 = true -> specifierMatches key specifier = true ->
     (forall skipped here, before = skipped +:+ here -> here <> EmptyString ->
        ~ importAtHead key (here +:+ "from " +:+ String q1 (specifier +:+ String q2 rest))) ->
     exists out,
       replaceImport h key to rest = Some out /\
       replaceImport h key to (before +:+ "from " +:+ String q1 (specifier +:+ String q2 rest))
       = Some (before +:+ "from '" +:+ to +:+ "'" +:+ out)).
Proof.
  intros Hkey Hto. unfold replaceImport. rewrite (compile_importPattern key Hkey).
  assert (Hfree : dollarFree ("from '" +:+ to +:+ "'") = true).
  { rewrite !dollarFree_append, Hto. reflexivity. }
  assert (Hnot : forall s, ~ importAtHead key s -> RegExp.matchesAt (importRegex key) s = false).
  { intros s Hs. destruct (RegExp.matchesAt (importRegex key) s) eqn:Hm; [|reflexivity].
    now apply matchesAt_importRegex in Hm. }
  split.
  - intros s Hnone. f_equal. apply replace_no_match.
    intros before after Heq. apply Hnot. now apply (Hnone before).
  - intros before q1 q2 specifier rest Hq1 Hq2 Hspec Hleft.
    exists (RegExp.replace (importRegex key) ("from '" +:+ to +:+ "'") rest).
    split; [reflexivity|]. f_equal.
    pose (matched := "from " +:+ String q1 (specifier +:+ String q2 "")).
    assert (Hsplit : "from " +:+ String q1 (specifier +:+ String q2 rest) = matched +:+ rest).
    { unfold matched. str_simpl. now rewrite append_assoc. }
    rewrite Hsplit in *.
    rewrite (replace_leftmost (importRegex key) ("from '" +:+ to +:+ "'") before matched rest).
    + now rewrite !append_assoc.
    + exact Hfree.
    + discriminate.
    + unfold matched, importRegex. str_simpl. simpl.
      rewrite length_app, length_map, length_chars, length_append.
      rewrite (specifierMatches_length _ _ Hspec). simpl. lia.
    + apply matchesAt_importRegex. rewrite <- Hsplit. now exists q1, q2, specifier, rest.
    + intros skipped here Hbefore Hhere. apply Hnot. now apply (Hleft skipped).
Qed.

Lemma importAtHead_from (key s : string) :
  importAtHead key s -> Js.startsWith s "from " = true.
Proof. intros (q1 & q2 & specifier & rest & _ & _ & _ & ->). reflexivity. Qed.

(** The rule at work on the catalog's own key, with a double-quoted import. *)
Example replaceImport_rule_example :
  replaceImport demoHost "../../../lib/cn" "@/lib/utils"
    (doubleQuotedImport "../../../lib/cn" ";")
  = Some "import { cn } from '@/lib/utils';".
Proof.
  destruct (replaceImport_rule demoHost "../../../lib/cn" "@/lib/utils" eq_refl eq_refl)
    as [_ Hleft].
  destruct (Hleft "import { cn } " RegExp.dquote RegExp.dquote "../../../lib/cn" ";"
              eq_refl eq_refl eq_refl) as (out & Hout & Hrun).
  - intros skipped here Heq Hne Hat. apply importAtHead_from in Hat.
    repeat (destruct skipped as [|? skipped];
            [ rewrite append_nil in Heq; subst here; discriminate Hat
            | rewrite append_cons in Heq; injection Heq as <- Heq ]).
    destruct skipped; [rewrite append_nil in Heq; subst here; congruence | discriminate].
  - injection Hout as <-. exact Hrun.
Qed.

(** *** What the code does with special characters *)

(** C1 (the code falls short of it). The key is interpolated into the
    pattern unescaped, so its dots match any character: with the
    catalog's own mapping for [../../../lib/cn], an import of the
    different module [ab/cd/ef/lib/cn] is rewritten as well. *)
Theorem applyImportReplacements_dot_is_wildcard (h : Host) :
  "ab/cd/ef/lib/cn" <> "../../../lib/cn" /\
  applyImportReplacements h "import { cn } from 'ab/cd/ef/lib/cn';"
    (Some [("../../../lib/cn", "@/lib/utils")])
  = Some "import { cn } from '@/lib/utils';".
Proof. split; [discriminate | reflexivity]. Qed.

(** C10 (the code falls short of it). The replacement is interpolated into
    the replacement template unescaped, so a [$] in it starts a
    replacement pattern: a specifier ending in [$] swallows the closing
    quote and repeats the rest of the text. *)
Theorem applyImportReplacements_dollar_is_pattern (h : Host) :
  applyImportReplacements h (doubleQuotedImport "k" "; rest") (Some [("k", "a$")])
  = Some "import { cn } from 'a; rest; rest" /\
  applyImportReplacements h (doubleQuotedImport "k" "; rest") (Some [("k", "a$")])
  <> Some "import { cn } from 'a$'; rest".
Proof. split; [reflexivity | discriminate]. Qed.

(** ** Paths *)

Lemma split_nonempty (s : string) : Path.split s <> [].
Proof.
  destruct s as [|c s]; simpl; [discriminate|].
  destruct (Ascii.eqb c "/"); [discriminate|].
  destruct (Path.split s); discriminate.
Qed.

Lemma split_app (a b : string) :
  Path.split (a +:+ String "/" b) = (Path.split a ++ Path.split b)%list.
Proof.
  induction a as [|c a IH]; str_simpl; [reflexivity|].
  simpl. rewrite IH.
  destruct (Ascii.eqb c "/"); [reflexivity|].
  destruct (Path.split a) eqn:Hs; [now destruct (split_nonempty a) | reflexivity].
Qed.

Lemma normalize_app (allow : bool) (l1 l2 stack : list string) :
  Path.normalize allow stack (l1 ++ l2)
  = Path.normalize allow (rev (Path.normalize allow stack l1)) l2.
Proof.
  revert stack. induction l1 as [|seg l1 IH]; intros stack; simpl.
  - now rewrite rev_involutive.
  - destruct (String.eqb seg "" || String.eqb seg "."); [apply IH|].
    destruct (String.eqb seg ".."); [|apply IH].
    destruct stack as [|top below].
    + destruct allow; apply IH.
    + destruct (String.eqb top ".."); apply IH.
Qed.

(** A trailing slash, single or doubled, does not change the segments. *)
Lemma normalize_trailing (allow : bool) (p : string) :
  Path.normalize allow [] (Path.split (p +:+ "/"))
  = Path.normalize allow [] (Path.split p).
Proof.
  rewrite split_app, normalize_app. simpl.
  now rewrite rev_involutive.
Qed.

Lemma isAbsolute_nonempty (p : string) : Path.isAbsolute p = true -> String.eqb p "" = false.
Proof. destruct p; [discriminate | reflexivity]. Qed.

Lemma isAbsolute_append (p q : string) :
  Path.isAbsolute p = true -> Path.isAbsolute (p +:+ q) = true.
Proof. destruct p as [|c p]; [discriminate|]. str_simpl. exact (fun H => H). Qed.

Lemma gather_single_absolute (p : string) (rest : list string) :
  Path.isAbsolute p = true -> Path.gather (p :: rest) = (p +:+ "/", true).
Proof.
  intros Habs. simpl. now rewrite (isAbsolute_nonempty p Habs), Habs.
Qed.

Lemma gather_last_absolute (paths : list string) (cwd : string) :
  Path.isAbsolute cwd = true -> snd (Path.gather (paths ++ [cwd])) = true.
Proof.
  intros Habs. induction paths as [|p paths IH].
  - simpl app. now rewrite gather_single_absolute.
  - change ((p :: paths) ++ [cwd])%list with (p :: (paths ++ [cwd]))%list.
    simpl. destruct (String.eqb p ""); [exact IH|].
    destruct (Path.isAbsolute p); [reflexivity|].
    destruct (Path.gather (paths ++ [cwd])). exact IH.
Qed.

Lemma resolve_isAbsolute (processCwd : string) (args : list string) :
  Path.isAbsolute processCwd = true ->
  Path.isAbsolute (Path.resolve processCwd args) = true.
Proof.
  intros Habs. unfold Path.resolve.
  pose proof (gather_last_absolute (rev args) processCwd Habs) as Hg.
  destruct (Path.gather (rev args ++ [processCwd])) as [p abs].
  simpl in Hg. subst abs. reflexivity.
Qed.

Lemma resolve_single_absolute (processCwd p : string) :
  Path.isAbsolute p = true -> Path.resolve processCwd [p] = canonical p.
Proof.
  intros Habs. unfold Path.resolve, canonical. simpl rev. simpl app.
  rewrite gather_single_absolute by assumption.
  simpl negb. now rewrite normalize_trailing.
Qed.

(** An absolute argument makes [resolve] forget the arguments before it. *)
Lemma resolve_restart (processCwd : string) (before : list string) (p : string) :
  Path.isAbsolute p = true ->
  Path.resolve processCwd (before ++ [p]) = canonical p.
Proof.
  intros Habs. rewrite <- (resolve_single_absolute processCwd p Habs).
  unfold Path.resolve. rewrite rev_app_distr. simpl rev. simpl app.
  now rewrite !gather_single_absolute.
Qed.

(** Resolving a relative path against an absolute base is resolving
    their concatenation. *)
Lemma resolve_relative (processCwd base p : string) :
  Path.isAbsolute base = true -> Path.isAbsolute p = false ->
  Path.resolve processCwd [base; p] = canonical (base +:+ "/" +:+ p).
Proof.
  intros Hbase Hp.
  rewrite <- (resolve_single_absolute processCwd (base +:+ "/" +:+ p))
    by now apply isAbsolute_append.
  unfold Path.resolve. simpl rev. simpl app.
  rewrite (gather_single_absolute (base +:+ "/" +:+ p)) by now apply isAbsolute_append.
  change (Path.gather [p; base; processCwd])
    with (if String.eqb p "" then Path.gather [base; processCwd]
          else if Path.isAbsolute p then (p +:+ "/", true)
          else let '(acc, abs) := Path.gather [base; processCwd] in (acc +:+ p +:+ "/", abs)).
  rewrite Hp, (gather_single_absolute base) by assumption.
  destruct (String.eqb_spec p "") as [->|Hne].
  - simpl negb. rewrite append_empty_r, !normalize_trailing. reflexivity.
  - now rewrite !append_assoc.
Qed.

Lemma resolve_src_relative (processCwd cwd rem : string) :
  Path.isAbsolute cwd = true -> Path.isAbsolute rem = false ->
  Path.resolve processCwd [cwd; "src"; rem] = canonical (cwd +:+ "/src/" +:+ rem).
Proof.
  intros Hcwd Hrem.
  rewrite <- (resolve_single_absolute processCwd (cwd +:+ "/src/" +:+ rem))
    by now apply isAbsolute_append.
  unfold Path.resolve. simpl rev. simpl app.
  rewrite (gather_single_absolute (cwd +:+ "/src/" +:+ rem)) by now apply isAbsolute_append.
  change (Path.gather [rem; "src"; cwd; processCwd])
    with (if String.eqb rem "" then Path.gather ["src"; cwd; processCwd]
          else if Path.isAbsolute rem then (rem +:+ "/", true)
          else let '(acc, abs) := Path.gather ["src"; cwd; processCwd] in
               (acc +:+ rem +:+ "/", abs)).
  change (Path.gather ["src"; cwd; processCwd])
    with (let '(acc, abs) := Path.gather [cwd; processCwd] in (acc +:+ "src" +:+ "/", abs)).
  rewrite Hrem, (gather_single_absolute cwd) by assumption.
  destruct (String.eqb_spec rem "") as [->|Hne].
  - simpl negb. rewrite append_empty_r.
    replace ((cwd +:+ "/") +:+ "src" +:+ "/") with ((cwd +:+ "/src") +:+ "/")
      by now rewrite !append_assoc.
    replace ((cwd +:+ "/src/") +:+ "/") with (((cwd +:+ "/src") +:+ "/") +:+ "/")
      by now rewrite !append_assoc.
    now rewrite !normalize_trailing.
  - now rewrite !append_assoc.
Qed.

Lemma slice_prefix (p rest : string) : Js.slice (String.length p) (p +:+ rest) = rest.
Proof. induction p as [|c p IH]; [reflexivity | exact IH]. Qed.

(** C6 as stated fails: when the remainder after [@/] is itself absolute,
    the result is that remainder, not a path below [<cwd>/src]. *)
Lemma resolveAliasPath_absolute_remainder_counterexample :
  resolveAliasPath demoHost "@//etc" "/proj" = "/etc" /\
  resolveAliasPath demoHost "@//etc" "/proj" <> "/proj" +:+ "/src/" +:+ "/etc" /\
  resolveAliasPath demoHost "@//etc" "/proj" <> canonical ("/proj" +:+ "/src/" +:+ "/etc").
Proof. split; [reflexivity | split; discriminate]. Qed.

(** C6, amended. [resolveAliasPath] returns an absolute path. For an alias
    [@/<remainder>] it is [<cwd>/src/<remainder>] in canonical form when
    the remainder is relative, and the remainder in canonical form when the
    remainder is absolute. For any other alias it is the alias in
    canonical form when the alias is absolute, and [<cwd>/<alias>] in
    canonical form otherwise. *)
Theorem resolveAliasPath_rules (h : Host) (alias cwd : string) :
  Path.isAbsolute (processCwd h) = true ->
  Path.isAbsolute cwd = true ->
  Path.isAbsolute (resolveAliasPath h alias cwd) = true /\
  (forall rem, alias = "@/" +:+ rem ->
     (Path.isAbsolute rem = false ->
      resolveAliasPath h alias cwd = canonical (cwd +:+ "/src/" +:+ rem)) /\
     (Path.isAbsolute rem = true ->
      resolveAliasPath h alias cwd = canonical rem)) /\
  (~ beginsWith alias "@/" ->
     (Path.isAbsolute alias = true -> resolveAliasPath h alias cwd = canonical alias) /\
     (Path.isAbsolute alias = false ->
      resolveAliasPath h alias cwd = canonical (cwd +:+ "/" +:+ alias))).
Proof.
  intros Hproc Hcwd. split; [|split].
  - unfold resolveAliasPath.
    destruct (Js.startsWith alias "@/"); [|destruct (_ || _)];
      now apply resolve_isAbsolute.
  - intros rem ->. unfold resolveAliasPath.
    change (Js.startsWith ("@/" +:+ rem) "@/") with true. cbv iota.
    change (Js.slice 2 ("@/" +:+ rem)) with rem.
    split; intros Hrem.
    + now apply resolve_src_relative.
    + now apply (resolve_restart (processCwd h) [cwd; "src"]).
  - intros Hno. unfold resolveAliasPath.
    destruct (Js.startsWith alias "@/") eqn:Hat.
    { exfalso. apply Hno. now apply startsWith_beginsWith. }
    assert (Hsame : (if Js.startsWith alias "./" || Js.startsWith alias "../"
                     then Path.resolve (processCwd h) [cwd; alias]
                     else Path.resolve (processCwd h) [cwd; alias])
                    = Path.resolve (processCwd h) [cwd; alias])
      by now destruct (_ || _).
    rewrite Hsame. split; intros Halias.
    + now apply (resolve_restart (processCwd h) [cwd]).
    + now apply resolve_relative.
Qed.

Lemma resolveAliasPath_rules_witness :
  resolveAliasPath demoHost "@/components" "/proj" = "/proj/src/components" /\
  resolveAliasPath demoHost "lib/../ui" "/proj" = "/proj/ui".
Proof.
  destruct (resolveAliasPath_rules demoHost "@/components" "/proj" eq_refl eq_refl)
    as (_ & Hat & _).
  destruct (resolveAliasPath_rules demoHost "lib/../ui" "/proj" eq_refl eq_refl)
    as (_ & _ & Hplain).
  split.
  - rewrite (proj1 (Hat "components" eq_refl) eq_refl). reflexivity.
  - rewrite (proj2 (Hplain ltac:(intros [r Hr]; discriminate)) eq_refl). reflexivity.
Defined.

(** *** Resolved paths name an entry of their directory *)

Lemma noSlash_split (s : string) : noSlash s = true -> Path.split s = [s].
Proof.
  induction s as [|c s IH]; [reflexivity|]. simpl.
  intros H. apply andb_true_iff in H as [Hc Hs]. apply negb_true_iff in Hc.
  now rewrite Hc, (IH Hs).
Qed.

Lemma split_noSlash (s : string) : Forall (fun seg => noSlash seg = true) (Path.split s).
Proof.
  induction s as [|c s IH]; simpl.
  - repeat constructor.
  - destruct (Ascii.eqb c "/") eqn:Hc.
    + constructor; [reflexivity | exact IH].
    + destruct (Path.split s) as [|seg segs].
      * repeat constructor. simpl. now rewrite Hc.
      * inversion IH; subst. constructor; [|assumption]. simpl. now rewrite Hc.
Qed.

Lemma normalize_clean (stack segs : list string) :
  Forall (fun seg => cleanSegment seg = true) stack ->
  Forall (fun seg => noSlash seg = true) segs ->
  Forall (fun seg => cleanSegment seg = true) (Path.normalize false stack segs).
Proof.
  revert stack. induction segs as [|seg segs IH]; intros stack Hstack Hsegs; simpl.
  - now apply Forall_rev.
  - inversion Hsegs as [|? ? Hseg Hrest]; subst.
    destruct (String.eqb seg "") eqn:He; simpl; [now apply IH|].
    destruct (String.eqb seg ".") eqn:Hd; simpl; [now apply IH|].
    destruct (String.eqb seg "..") eqn:Hdd.
    + destruct stack as [|top below]; [now apply IH|].
      inversion Hstack as [|? ? Htop Hbelow]; subst.
      assert (Hnot : String.eqb top ".." = false).
      { unfold cleanSegment in Htop. apply andb_true_iff in Htop as [_ Htop].
        now apply negb_true_iff in Htop. }
      rewrite Hnot. now apply IH.
    + apply IH; [|assumption]. constructor; [|assumption].
      unfold cleanSegment. now rewrite Hseg, He, Hd, Hdd.
Qed.

Lemma normalize_of_clean (stack segs : list string) :
  Forall (fun seg => cleanSegment seg = true) segs ->
  Path.normalize false stack segs = rev stack ++ segs.
Proof.
  revert stack. induction segs as [|seg segs IH]; intros stack Hsegs; simpl.
  - now rewrite app_nil_r.
  - inversion Hsegs as [|? ? Hseg Hrest]; subst.
    unfold cleanSegment in Hseg.
    apply andb_true_iff in Hseg as [Hseg Hdd]. apply andb_true_iff in Hseg as [Hseg Hd].
    apply andb_true_iff in Hseg as [_ He].
    apply negb_true_iff in He, Hd, Hdd. rewrite He, Hd, Hdd. simpl.
    rewrite (IH _ Hrest). simpl. now rewrite <- app_assoc.
Qed.

Lemma split_join (segs : list string) :
  segs <> [] -> Forall (fun seg => noSlash seg = true) segs ->
  Path.split (Path.join segs) = segs.
Proof.
  induction segs as [|seg segs IH]; [congruence|]. intros _ Hsegs.
  inversion Hsegs as [|? ? Hseg Hrest]; subst.
  destruct segs as [|seg' segs].
  - simpl. now apply noSlash_split.
  - change (Path.join (seg :: seg' :: segs)) with (seg +:+ "/" +:+ Path.join (seg' :: segs)).
    str_simpl.
    rewrite split_app, (noSlash_split seg Hseg), IH; [reflexivity | discriminate | assumption].
Qed.

Lemma cleanSegment_noSlash (segs : list string) :
  Forall (fun seg => cleanSegment seg = true) segs ->
  Forall (fun seg => noSlash seg = true) segs.
Proof.
  intros H. eapply Forall_impl; [exact H|].
  intros seg Hseg. unfold cleanSegment in Hseg.
  now repeat (apply andb_true_iff in Hseg as [Hseg _]).
Qed.

(** The segments of a path written from clean segments are those segments. *)
Lemma segments_of_clean (h : Host) (segs : list string) :
  Forall (fun seg => cleanSegment seg = true) segs ->
  Fs.segments h ("/" +:+ Path.join segs) = segs.
Proof.
  intros Hclean. unfold Fs.segments, Path.resolveSegs. simpl rev. simpl app.
  rewrite gather_single_absolute by reflexivity. simpl negb.
  rewrite normalize_trailing. str_simpl. simpl.
  destruct segs as [|seg segs]; [reflexivity|].
  rewrite split_join; [|discriminate | now apply cleanSegment_noSlash].
  now rewrite normalize_of_clean.
Qed.

Lemma dirnameEnd_noSlash (b : string) :
  noSlash b = true ->
  forall i pending found,
    Path.dirnameEnd i pending found b
    = match b with
      | EmptyString => found
      | String _ _ => match pending with Some e => Some e | None => found end
      end.
Proof.
  induction b as [|c b IH]; intros H i pending found; [reflexivity|].
  simpl in H. apply andb_true_iff in H as [Hc Hb]. apply negb_true_iff in Hc.
  simpl. rewrite Hc, (IH Hb).
  destruct b; [reflexivity|]. now destruct pending.
Qed.

Lemma dirnameEnd_last (a b : string) :
  b <> EmptyString -> noSlash b = true ->
  forall i pending found,
    Path.dirnameEnd i pending found (a +:+ String "/" b) = Some (i + String.length a).
Proof.
  intros Hb Hslash. induction a as [|c a IH]; intros i pending found; str_simpl; simpl.
  - rewrite (dirnameEnd_noSlash b Hslash). destruct b; [congruence|]. f_equal. lia.
  - destruct (Ascii.eqb c "/"); rewrite IH; f_equal; lia.
Qed.

Lemma take_append (a b : string) : Js.take (String.length a) (a +:+ b) = a.
Proof. induction a as [|c a IH]; str_simpl; simpl; [now destruct b | now rewrite IH]. Qed.

Lemma join_snoc (init : list string) (last : string) :
  init <> [] -> Path.join (init ++ [last]) = Path.join init +:+ String "/" last.
Proof.
  induction init as [|seg init IH]; [congruence|]. intros _.
  destruct init as [|seg' init].
  - reflexivity.
  - change (Path.join ((seg :: seg' :: init) ++ [last]))
      with (seg +:+ "/" +:+ Path.join ((seg' :: init) ++ [last])).
    change (Path.join (seg :: seg' :: init)) with (seg +:+ "/" +:+ Path.join (seg' :: init)).
    rewrite IH by discriminate. now rewrite !append_assoc.
Qed.

Lemma join_nonempty (seg : string) (segs : list string) :
  seg <> EmptyString -> String.length (Path.join (seg :: segs)) <> 0.
Proof.
  intros Hseg. destruct seg as [|c seg]; [congruence|].
  destruct segs; simpl; [discriminate|]. str_simpl. discriminate.
Qed.

Lemma cleanSegment_nonempty (seg : string) : cleanSegment seg = true -> seg <> EmptyString.
Proof. intros H ->. discriminate H. Qed.

Lemma dirname_of_clean (init : list string) (last : string) :
  Forall (fun seg => cleanSegment seg = true) (init ++ [last]) ->
  Path.dirname ("/" +:+ Path.join (init ++ [last])) = "/" +:+ Path.join init.
Proof.
  intros Hclean. apply Forall_app in Hclean as [Hinit Hlast].
  inversion Hlast as [|? ? Hl _]; subst.
  pose proof (cleanSegment_nonempty last Hl) as Hne.
  assert (Hslash : noSlash last = true).
  { unfold cleanSegment in Hl. now repeat (apply andb_true_iff in Hl as [Hl _]). }
  str_simpl. unfold Path.dirname. simpl Ascii.eqb. cbv iota.
  destruct init as [|seg init].
  - simpl app. simpl Path.join. rewrite (dirnameEnd_noSlash last Hslash).
    now destruct last.
  - rewrite join_snoc by discriminate.
    rewrite (dirnameEnd_last _ last Hne Hslash).
    inversion Hinit as [|? ? Hseg _]; subst.
    pose proof (join_nonempty seg init (cleanSegment_nonempty seg Hseg)) as Hlen.
    remember (Path.join (seg :: init)) as dir eqn:Hdir.
    destruct (String.length dir) as [|n] eqn:Hn; [congruence|].
    change (1 + S n) with (S (S n)). simpl Nat.eqb. simpl andb. cbv iota.
    change (Js.take (S (S n)) (String "/" (dir +:+ String "/" last)))
      with (String "/" (Js.take (S n) (dir +:+ String "/" last))).
    now rewrite <- Hn, take_append.
Qed.

Lemma resolve_join (processCwd : string) (args : list string) :
  Path.isAbsolute processCwd = true ->
  Path.resolve processCwd args = "/" +:+ Path.join (Path.resolveSegs processCwd args) /\
  Forall (fun seg => cleanSegment seg = true) (Path.resolveSegs processCwd args).
Proof.
  intros Habs. unfold Path.resolve, Path.resolveSegs.
  pose proof (gather_last_absolute (rev args) processCwd Habs) as Hg.
  destruct (Path.gather (rev args ++ [processCwd])) as [p abs].
  simpl in Hg. subst abs. split; [reflexivity|].
  apply normalize_clean; [constructor | apply split_noSlash].
Qed.

(** A path written from clean segments is its own canonical form. *)
Lemma canonical_of_clean (segs : list string) :
  Forall (fun seg => cleanSegment seg = true) segs ->
  canonical ("/" +:+ Path.join segs) = "/" +:+ Path.join segs.
Proof.
  intros Hclean. unfold canonical. str_simpl. simpl.
  destruct segs as [|seg segs]; [reflexivity|].
  rewrite split_join; [|discriminate | now apply cleanSegment_noSlash].
  now rewrite normalize_of_clean.
Qed.

(** ** The file system *)

Lemma clearWay_insert_dir (done todo key : list string) (m : gmap (list string) Entry) :
  Fs.clearWay done todo m = true -> Fs.clearWay done todo (<[key := Dir]> m) = true.
Proof.
  revert done. induction todo as [|seg rest IH]; intros done; simpl; [reflexivity|].
  destruct (decide (key = done ++ [seg])) as [->|Hne].
  - rewrite lookup_insert_eq. destruct (m !! (done ++ [seg])) as [[c|]|]; [discriminate| |]; apply IH.
  - rewrite lookup_insert_ne by assumption.
    destruct (m !! (done ++ [seg])) as [[c|]|]; [discriminate| |]; apply IH.
Qed.

(** With a clear way the directories are created. *)
Lemma mkdirGo_succeeds (done todo : list string) (m : gmap (list string) Entry) :
  Fs.clearWay done todo m = true -> exists m', Fs.mkdirGo done todo m = Some m'.
Proof.
  revert done m. induction todo as [|seg rest IH]; intros done m; simpl.
  - intros _. now exists m.
  - destruct (m !! (done ++ [seg])) as [[c|]|]; [discriminate| |].
    + apply IH.
    + intros H. apply IH. now apply clearWay_insert_dir.
Qed.

(** [mkdir] never replaces an entry. *)
Lemma mkdirGo_preserves (done todo : list string) (m m' : gmap (list string) Entry)
    (key : list string) (e : Entry) :
  Fs.mkdirGo done todo m = Some m' -> m !! key = Some e -> m' !! key = Some e.
Proof.
  revert done m. induction todo as [|seg rest IH]; intros done m; simpl.
  - now intros [= <-].
  - destruct (m !! (done ++ [seg])) as [[c|]|] eqn:Hd; [discriminate| |].
    + apply IH.
    + intros Hgo Hkey. apply (IH _ _ Hgo).
      rewrite lookup_insert_ne; [assumption | congruence].
Qed.

(** [mkdir] touches no path deeper than the directory it is asked for. *)
Lemma mkdirGo_deeper (done todo : list string) (m m' : gmap (list string) Entry)
    (key : list string) :
  Fs.mkdirGo done todo m = Some m' ->
  length done + length todo < length key -> m' !! key = m !! key.
Proof.
  revert done m. induction todo as [|seg rest IH]; intros done m; simpl.
  - now intros [= <-].
  - intros Hgo Hlen.
    assert (Hne : done ++ [seg] <> key).
    { intros <-. rewrite length_app in Hlen. simpl in Hlen. lia. }
    assert (Hlen' : length (done ++ [seg]) + length rest < length key).
    { rewrite length_app. simpl. lia. }
    destruct (m !! (done ++ [seg])) as [[c|]|]; [discriminate| |].
    + now apply (IH _ _ Hgo).
    + rewrite (IH _ _ Hgo Hlen'). now rewrite lookup_insert_ne.
Qed.

(** After [mkdir] every directory on the way exists. *)
Lemma mkdirGo_creates (done todo : list string) (m m' : gmap (list string) Entry) (k : nat) :
  Fs.mkdirGo done todo m = Some m' -> 1 <= k <= length todo ->
  m' !! (done ++ take k todo) = Some Dir.
Proof.
  revert done m k. induction todo as [|seg rest IH]; intros done m k; simpl.
  - intros _ Hk. lia.
  - intros Hgo Hk. destruct k as [|k]; [lia|]. simpl.
    assert (Hfirst : m' !! (done ++ [seg]) = Some Dir).
    { destruct (m !! (done ++ [seg])) as [[c|]|] eqn:Hd; [discriminate| |].
      - now apply (mkdirGo_preserves _ _ _ _ _ _ Hgo).
      - apply (mkdirGo_preserves _ _ _ _ _ _ Hgo). apply lookup_insert_eq. }
    destruct k as [|k].
    + now rewrite take_0.
    + replace (done ++ seg :: take (S k) rest) with ((done ++ [seg]) ++ take (S k) rest)
        by now rewrite <- app_assoc.
      destruct (m !! (done ++ [seg])) as [[c|]|]; [discriminate| |];
        apply (IH _ _ _ Hgo); lia.
Qed.

(** *** The walk through a path *)

Lemma steady_app (named : bool) (l1 l2 : list string) :
  steady named (l1 ++ l2) = steady named l1 && steady (namedAfter named l1) l2.
Proof.
  revert named. induction l1 as [|seg l1 IH]; intros named; [reflexivity|].
  cbn [app steady namedAfter].
  destruct (String.eqb seg "" || String.eqb seg "."); [apply IH|].
  destruct (String.eqb seg ".."); [|apply IH].
  now rewrite IH, andb_assoc.
Qed.

Lemma cleanSegment_tests (seg : string) :
  cleanSegment seg = true ->
  String.eqb seg "" = false /\ String.eqb seg "." = false /\ String.eqb seg ".." = false.
Proof.
  unfold cleanSegment. intros H.
  apply andb_prop in H as [H Hdd]. apply andb_prop in H as [H Hd].
  apply andb_prop in H as [_ He].
  repeat split; [destruct (String.eqb seg "") | destruct (String.eqb seg ".")
                | destruct (String.eqb seg "..")]; easy.
Qed.

Lemma steady_clean (named : bool) (segs : list string) :
  Forall (fun seg => cleanSegment seg = true) segs -> steady named segs = true.
Proof.
  intros Hclean. revert named. induction Hclean as [|seg segs Hseg _ IH]; intros named;
    [reflexivity|].
  cbn [steady]. destruct (cleanSegment_tests _ Hseg) as (-> & -> & ->). apply IH.
Qed.

Lemma walk_steady (m : gmap (list string) Entry) (allow : bool) (stack : list string)
    (named : bool) (components : list string) :
  steady named components = true -> Fs.walk m allow stack named components = Fs.Through.
Proof.
  revert stack named. induction components as [|seg rest IH]; intros stack named;
    [reflexivity|].
  cbn [steady Fs.walk].
  destruct (String.eqb seg "" || String.eqb seg "."); [apply IH|].
  destruct (String.eqb seg ".."); [|apply IH].
  intros H. apply andb_prop in H as [Hnamed Hrest].
  destruct named; [discriminate|]. cbn [andb].
  destruct stack as [|top below]; [destruct allow; now apply IH|].
  destruct (String.eqb top ".."); now apply IH.
Qed.

(** Directories that stay make a walk that went through go through. *)
Lemma walk_dirs (m m' : gmap (list string) Entry) (allow : bool) (stack : list string)
    (named : bool) (components : list string) :
  (forall segs, Fs.isDir m segs = true -> Fs.isDir m' segs = true) ->
  Fs.walk m allow stack named components = Fs.Through ->
  Fs.walk m' allow stack named components = Fs.Through.
Proof.
  intros Hdirs. revert stack named. induction components as [|seg rest IH];
    intros stack named; [reflexivity|].
  cbn [Fs.walk].
  destruct (String.eqb seg "" || String.eqb seg "."); [apply IH|].
  destruct (String.eqb seg ".."); [|apply IH].
  destruct (named && negb (Fs.isDir m (rev stack))) eqn:Hcheck.
  { now destruct (m !! rev stack) as [[c|]|]. }
  assert (Hcheck' : named && negb (Fs.isDir m' (rev stack)) = false).
  { destruct named; [|reflexivity]. cbn [andb] in *.
    apply negb_false_iff in Hcheck. now rewrite (Hdirs _ Hcheck). }
  rewrite Hcheck'.
  destruct stack as [|top below]; [destruct allow; apply IH|].
  destruct (String.eqb top ".."); apply IH.
Qed.

Lemma isDir_subseteq (m m' : gmap (list string) Entry) (segs : list string) :
  m ⊆ m' -> Fs.isDir m segs = true -> Fs.isDir m' segs = true.
Proof.
  intros Hsub. unfold Fs.isDir. destruct segs as [|seg segs]; [reflexivity|].
  destruct (m !! (seg :: segs)) as [[c|]|] eqn:Hm; try discriminate.
  now rewrite (lookup_weaken _ _ _ _ Hm Hsub).
Qed.

Lemma access_subseteq (h : Host) (p : string) (m m' : gmap (list string) Entry) :
  m ⊆ m' -> Fs.access h p m = Fs.Through -> Fs.access h p m' = Fs.Through.
Proof.
  intros Hsub. unfold Fs.access. destruct (String.eqb p ""); [discriminate|].
  apply walk_dirs. intros segs. now apply isDir_subseteq.
Qed.

Lemma namedAfter_snoc (named : bool) (l : list string) (seg : string) :
  namedAfter named (l ++ [seg])
  = if String.eqb seg "" || String.eqb seg "." then namedAfter named l
    else if String.eqb seg ".." then false else true.
Proof.
  revert named. induction l as [|x l IH]; intros named; cbn [app namedAfter].
  - destruct (String.eqb seg "" || String.eqb seg "."); [reflexivity|].
    now destruct (String.eqb seg "..").
  - destruct (String.eqb x "" || String.eqb x "."); [apply IH|].
    destruct (String.eqb x ".."); apply IH.
Qed.

(** What [normalize] keeps of a relative path: [..] segments first, then
    names. *)
Lemma normalize_steady (stack segs : list string) :
  steady false (rev stack) = true ->
  steady false (Path.normalize true stack segs) = true.
Proof.
  revert stack. induction segs as [|seg rest IH]; intros stack Hstack; [exact Hstack|].
  cbn [Path.normalize].
  destruct (String.eqb seg "" || String.eqb seg ".") eqn:Hskip; [now apply IH|].
  destruct (String.eqb seg "..") eqn:Hup.
  - apply String.eqb_eq in Hup. subst seg.
    destruct stack as [|top below]; [now apply IH|].
    cbn [rev] in Hstack. rewrite steady_app in Hstack.
    apply andb_prop in Hstack as [Hbelow Htop].
    destruct (String.eqb top "..") eqn:Htop'.
    + apply String.eqb_eq in Htop'. subst top. apply IH.
      cbn [rev]. rewrite !steady_app, Hbelow, Htop. cbn [andb].
      now rewrite namedAfter_snoc.
    + now apply IH.
  - apply IH. cbn [rev]. rewrite steady_app, Hstack. cbn [andb steady].
    now rewrite Hskip, Hup.
Qed.

Lemma normalize_In (allow : bool) (stack segs : list string) (seg : string) :
  In seg (Path.normalize allow stack segs) -> In seg stack \/ In seg segs.
Proof.
  revert stack. induction segs as [|x rest IH]; intros stack.
  - cbn [Path.normalize]. intros Hin. left. now apply in_rev.
  - cbn [Path.normalize].
    destruct (String.eqb x "" || String.eqb x ".").
    { intros Hin. destruct (IH _ Hin); [now left | right; now right]. }
    destruct (String.eqb x "..").
    + destruct stack as [|top below].
      * destruct allow; intros Hin; destruct (IH _ Hin) as [[<-|[]]|H] || destruct (IH _ Hin) as [[]|H];
          right; (now left) || (now right).
      * destruct (String.eqb top ".."); intros Hin; destruct (IH _ Hin) as [H|H].
        -- destruct H as [<-|H]; [right; now left | now left].
        -- right; now right.
        -- left; now right.
        -- right; now right.
    + intros Hin. destruct (IH _ Hin) as [[<-|H]|H]; [right; now left | now left | right; now right].
Qed.

(** Every path that [resolve] returns, for whatever working directory, is
    one that the walk passes. *)
Lemma resolve_steady (processCwd : string) (args : list string) :
  Path.resolve processCwd args <> "" /\
  steady false (Path.split (Path.resolve processCwd args)) = true.
Proof.
  unfold Path.resolve.
  destruct (Path.gather (rev args ++ [processCwd])) as [resolvedPath resolvedAbsolute].
  set (kept := Path.normalize (negb resolvedAbsolute) [] (Path.split resolvedPath)).
  assert (Hslash : Forall (fun seg => noSlash seg = true) kept).
  { apply List.Forall_forall. intros seg Hin.
    destruct (normalize_In _ _ _ _ Hin) as [[]|Hin'].
    exact (proj1 (List.Forall_forall _ _) (split_noSlash resolvedPath) _ Hin'). }
  destruct resolvedAbsolute.
  - rewrite append_cons, append_nil. split; [discriminate|].
    cbn [Path.split]. change (Ascii.eqb "/" "/") with true. cbv iota. cbn [steady].
    change (String.eqb "" "" || String.eqb "" ".") with true. cbv iota.
    destruct kept as [|seg segs] eqn:Hkept; [reflexivity|].
    rewrite split_join by (assumption || discriminate).
    apply steady_clean. rewrite <- Hkept. unfold kept.
    apply normalize_clean; [constructor | apply split_noSlash].
  - destruct (String.eqb_spec (Path.join kept) "") as [Hempty|Hfull].
    + split; [discriminate | reflexivity].
    + split; [exact Hfull|].
      destruct kept as [|seg segs] eqn:Hkept; [now elim Hfull|].
      rewrite split_join by (assumption || discriminate).
      rewrite <- Hkept. unfold kept. now apply normalize_steady.
Qed.

Lemma access_resolve (h : Host) (processCwd : string) (args : list string)
    (m : gmap (list string) Entry) :
  Fs.access h (Path.resolve processCwd args) m = Fs.Through.
Proof.
  destruct (resolve_steady processCwd args) as [Hne Hsteady].
  unfold Fs.access. apply String.eqb_neq in Hne. rewrite Hne.
  now apply walk_steady.
Qed.

(** *** The operations *)

Lemma mkdirWalk_preserves (allow : bool) (stack components : list string)
    (m m' : gmap (list string) Entry) (key : list string) (e : Entry) :
  Fs.mkdirWalk allow stack components m = Some m' -> m !! key = Some e -> m' !! key = Some e.
Proof.
  revert stack m. induction components as [|seg rest IH]; intros stack m; cbn [Fs.mkdirWalk].
  - now intros [= <-].
  - destruct (String.eqb seg "" || String.eqb seg "."); [apply IH|].
    destruct (String.eqb seg "..").
    { destruct stack as [|top below]; [destruct allow; apply IH|].
      destruct (String.eqb top ".."); apply IH. }
    destruct (m !! rev (seg :: stack)) as [[c|]|] eqn:Hd; [discriminate|apply IH|].
    intros Hgo Hkey. apply (IH _ _ Hgo).
    rewrite lookup_insert_ne; [exact Hkey|]. intros Heq. congruence.
Qed.

Lemma mkdirWalk_no_file (allow : bool) (stack components : list string)
    (m m' : gmap (list string) Entry) (key : list string) :
  Fs.mkdirWalk allow stack components m = Some m' ->
  (forall c, m !! key <> Some (File c)) -> forall c, m' !! key <> Some (File c).
Proof.
  revert stack m. induction components as [|seg rest IH]; intros stack m; cbn [Fs.mkdirWalk].
  - now intros [= <-].
  - destruct (String.eqb seg "" || String.eqb seg "."); [apply IH|].
    destruct (String.eqb seg "..").
    { destruct stack as [|top below]; [destruct allow; apply IH|].
      destruct (String.eqb top ".."); apply IH. }
    destruct (m !! rev (seg :: stack)) as [[c|]|] eqn:Hd; [discriminate|apply IH|].
    intros Hgo Hkey. apply (IH _ _ Hgo). intros c.
    destruct (decide (rev (seg :: stack) = key)) as [<-|Hne].
    + now rewrite lookup_insert_eq.
    + rewrite lookup_insert_ne by assumption. apply Hkey.
Qed.

(** Along clean segments the recursive [mkdir] makes the prefixes, one
    after the other. *)
Lemma mkdirWalk_clean (allow : bool) (stack components : list string)
    (m : gmap (list string) Entry) :
  Forall (fun seg => cleanSegment seg = true) components ->
  Fs.mkdirWalk allow stack components m = Fs.mkdirGo (rev stack) components m.
Proof.
  intros Hclean. revert stack m. induction Hclean as [|seg rest Hseg _ IH]; intros stack m;
    [reflexivity|].
  cbn [Fs.mkdirWalk Fs.mkdirGo].
  destruct (cleanSegment_tests _ Hseg) as (-> & -> & ->). cbn [orb rev].
  destruct (m !! (rev stack ++ [seg])) as [[c|]|]; [reflexivity | apply IH | apply IH].
Qed.

(** The two ways [mkdir] ends: directories made, nothing else touched, or
    an error that leaves the world as it is. *)
Lemma mkdir_cases (h : Host) (p : string) (w : World) :
  (exists m, Fs.mkdir h p w = Ok tt {| fs := m; trace := trace w |} /\
             fs w ⊆ m /\
             forall key, (forall c, fs w !! key <> Some (File c)) ->
                         forall c, m !! key <> Some (File c)) \/
  (exists e, Fs.mkdir h p w = Throw e w).
Proof.
  unfold Fs.mkdir. destruct (String.eqb p ""); [right; eauto|].
  destruct (Fs.mkdirWalk _ _ _ (fs w)) as [m|] eqn:Hgo.
  - left. exists m. split; [reflexivity|]. split.
    + apply map_subseteq_spec. intros key e. now apply (mkdirWalk_preserves _ _ _ _ _ _ _ Hgo).
    + intros key. now apply (mkdirWalk_no_file _ _ _ _ _ _ Hgo).
  - right. destruct (fs w !! Fs.segments h p) as [[c|]|]; eauto.
Qed.

(** The two ways [writeFile] ends: the file written at the entry the path
    names, which is no directory, or an error that leaves the world as it
    is. *)
Lemma writeFile_cases (h : Host) (p content : string) (w : World) :
  (Fs.writeFile h p content w
   = Ok tt {| fs := <[Fs.segments h p := File content]> (fs w);
              trace := trace w ++ [EvWriteFile p content] |} /\
   Fs.access h p (fs w) = Fs.Through /\
   Fs.isDir (fs w) (Fs.segments h p) = false /\
   Fs.isDir (fs w) (removelast (Fs.segments h p)) = true /\
   Fs.trailing p = false) \/
  (exists e, Fs.writeFile h p content w = Throw e w).
Proof.
  unfold Fs.writeFile. destruct (Fs.access h p (fs w)); [|right; eauto|right; eauto].
  destruct (Fs.isDir (fs w) (Fs.segments h p)); [right; eauto|].
  destruct (Fs.isDir (fs w) (removelast (Fs.segments h p))); [|right; eauto].
  destruct (Fs.trailing p); [right; eauto|]. left. auto.
Qed.

Lemma split_canonical (segs : list string) :
  Forall (fun seg => cleanSegment seg = true) segs ->
  Path.split ("/" +:+ Path.join segs)
  = "" :: match segs with [] => [""] | _ => segs end.
Proof.
  intros Hclean. rewrite append_cons, append_nil. cbn [Path.split].
  change (Ascii.eqb "/" "/") with true. cbv iota. f_equal.
  destruct segs as [|seg segs']; [reflexivity|].
  apply split_join; [discriminate | now apply cleanSegment_noSlash].
Qed.

(** On a path written from clean segments the recursive [mkdir] is
    [mkdirGo] from the root. *)
Lemma mkdir_clean (h : Host) (segs : list string) (w : World) :
  Forall (fun seg => cleanSegment seg = true) segs ->
  Fs.mkdir h ("/" +:+ Path.join segs) w
  = match Fs.mkdirGo [] segs (fs w) with
    | Some m => Ok tt {| fs := m; trace := trace w |}
    | None =>
        match fs w !! segs with
        | Some (File _) => Throw (SystemError "EEXIST" ("/" +:+ Path.join segs)) w
        | _ => Throw (SystemError "ENOTDIR" ("/" +:+ Path.join segs)) w
        end
    end.
Proof.
  intros Hclean. unfold Fs.mkdir, Fs.start.
  rewrite segments_of_clean by exact Hclean.
  rewrite split_canonical by exact Hclean.
  rewrite append_cons, append_nil.
  change (String.eqb (String "/" (Path.join segs)) "") with false.
  change (Path.isAbsolute (String "/" (Path.join segs))) with true.
  cbn [fst snd Fs.mkdirWalk].
  change (String.eqb "" "" || String.eqb "" ".") with true. cbv iota.
  destruct segs as [|seg segs']; [reflexivity|].
  now rewrite mkdirWalk_clean.
Qed.

(** Nothing exists at a path that the walk passes: the entry it names is
    not there, or it is a regular file and the path asks for a
    directory. *)
Lemma existsSync_false_lookup (h : Host) (p : string) (w : World) :
  Fs.access h p (fs w) = Fs.Through ->
  Fs.existsSync h p w = false ->
  Fs.segments h p <> [] /\
  (fs w !! Fs.segments h p = None \/
   Fs.trailing p = true /\ exists c, fs w !! Fs.segments h p = Some (File c)).
Proof.
  unfold Fs.existsSync, Fs.lookup. intros ->.
  destruct (Fs.segments h p) as [|seg segs]; [discriminate|].
  destruct (fs w !! (seg :: segs)) as [[c|]|]; [|discriminate|].
  - destruct (Fs.trailing p); [|discriminate]. intros _. split; [discriminate|].
    right. eauto.
  - intros _. split; [discriminate | now left].
Qed.

Lemma removelast_snoc {A} (l : list A) (x : A) : removelast (l ++ [x]) = l.
Proof. apply removelast_last. Qed.

Lemma access_canonical (h : Host) (segs : list string) (m : gmap (list string) Entry) :
  Forall (fun seg => cleanSegment seg = true) segs ->
  Fs.access h ("/" +:+ Path.join segs) m = Fs.Through.
Proof.
  intros Hclean. unfold Fs.access.
  rewrite split_canonical by exact Hclean. rewrite append_cons, append_nil.
  change (String.eqb (String "/" (Path.join segs)) "") with false. cbv iota.
  apply walk_steady. cbn [steady].
  change (String.eqb "" "" || String.eqb "" ".") with true. cbv iota.
  destruct segs as [|seg segs']; [reflexivity | now apply steady_clean].
Qed.

Lemma trailing_canonical (init : list string) (base : string) :
  Forall (fun seg => cleanSegment seg = true) (init ++ [base]) ->
  Fs.trailing ("/" +:+ Path.join (init ++ [base])) = false.
Proof.
  intros Hclean. unfold Fs.trailing. rewrite split_canonical by exact Hclean.
  assert (Hlast : List.last ("" :: match init ++ [base] with
                                    | [] => [""]
                                    | _ => init ++ [base]
                                    end) "" = base).
  { destruct (init ++ [base]) as [|x l] eqn:Heq; [now destruct init|].
    rewrite <- Heq. change ("" :: init ++ [base]) with (("" :: init) ++ [base]).
    apply last_last. }
  rewrite Hlast.
  apply Forall_app in Hclean as [_ Hbase]. inversion Hbase as [|? ? Hb _]; subst.
  destruct (cleanSegment_tests _ Hb) as (-> & -> & _). reflexivity.
Qed.

(** C2 as stated fails, in two ways. Nothing exists at [/a/b], yet the
    call cannot create it, because [/a] is a regular file. And nothing
    exists at [/proj/new/], with no file in the way, yet the call cannot
    create it: a path that ends in a slash asks for a directory, and
    [writeFile] fails on it. *)
Lemma writeIfMissing_not_created_counterexample :
  (Fs.existsSync demoHost "/a/b" blockedWorld = false /\
   writeIfMissing demoHost "/a/b" "c1" blockedWorld
   = Throw (SystemError "EEXIST" "/a") blockedWorld) /\
  (Fs.existsSync demoHost "/proj/new/" demoWorld = false /\
   Fs.clearWay [] (Fs.segments demoHost (Path.dirname "/proj/new/")) (fs demoWorld) = true /\
   writeIfMissing demoHost "/proj/new/" "c1" demoWorld
   = Throw (SystemError "EISDIR" "/proj/new/") demoWorld).
Proof.
  split; [split; reflexivity|]. split; [reflexivity|]. split; reflexivity.
Qed.

(** C2, amended. For a path in canonical form (absolute and normalized,
    without a trailing slash: the form in which [resolve] returns a path
    and the callers pass it), on a state where nothing exists at [path]
    and no regular file stands on the way to its directory,
    [writeIfMissing path c1] creates the missing directories, writes
    [c1], replaces no entry and returns [created]; the next
    [writeIfMissing path c2] returns [skipped], raises no error and leaves
    the state as it is, so the file still holds [c1]. *)
Theorem writeIfMissing_created_then_skipped (h : Host) (path c1 c2 : string) (w : World) :
  canonical path = path ->
  Fs.existsSync h path w = false ->
  Fs.clearWay [] (Fs.segments h (Path.dirname path)) (fs w) = true ->
  exists w1,
    writeIfMissing h path c1 w = Ok created w1 /\
    Fs.readFile h path w1 = Ok c1 w1 /\
    (forall k, Fs.isDir (fs w1) (take k (Fs.segments h (Path.dirname path))) = true) /\
    (forall key e, fs w !! key = Some e -> fs w1 !! key = Some e) /\
    trace w1 = (trace w ++ [EvWriteFile path c1])%list /\
    writeIfMissing h path c2 w1 = Ok skipped w1.
Proof.
  intros Hcanon Hmissing Hclear.
  assert (Hclean : Forall (fun seg => cleanSegment seg = true)
                     (Path.normalize false [] (Path.split path)))
    by (apply normalize_clean; [constructor | apply split_noSlash]).
  unfold canonical in Hcanon.
  remember (Path.normalize false [] (Path.split path)) as segs eqn:Hnormal.
  clear Hnormal.
  assert (Haccess : forall m, Fs.access h path m = Fs.Through)
    by (intros m; rewrite <- Hcanon; now apply access_canonical).
  assert (Hsegs : Fs.segments h path = segs)
    by (rewrite <- Hcanon; now apply segments_of_clean).
  destruct (existsSync_false_lookup _ _ _ (Haccess _) Hmissing) as [Hnonroot Hnone].
  rewrite Hsegs in Hnonroot, Hnone.
  destruct (exists_last Hnonroot) as (dsegs & base & Hlast).
  assert (Htrailing : Fs.trailing path = false)
    by (rewrite <- Hcanon, Hlast; apply trailing_canonical; now rewrite <- Hlast).
  destruct Hnone as [Hnone | [Htrue _]]; [|congruence].
  assert (Hdclean : Forall (fun seg => cleanSegment seg = true) dsegs)
    by (rewrite Hlast in Hclean; now apply Forall_app in Hclean).
  assert (Hdirname : Path.dirname path = "/" +:+ Path.join dsegs)
    by (rewrite <- Hcanon, Hlast; apply dirname_of_clean; now rewrite <- Hlast).
  assert (Hdsegs : Fs.segments h (Path.dirname path) = dsegs)
    by (rewrite Hdirname; now apply segments_of_clean).
  rewrite Hdsegs in *.
  destruct (mkdirGo_succeeds _ _ _ Hclear) as [m' Hgo].
  assert (Hmkdir : Fs.mkdir h (Path.dirname path) w = Ok tt {| fs := m'; trace := trace w |})
    by (rewrite Hdirname, mkdir_clean, Hgo by exact Hdclean; reflexivity).
  assert (Hnone' : m' !! segs = None).
  { rewrite (mkdirGo_deeper _ _ _ _ segs Hgo); [assumption|].
    rewrite Hlast, length_app. simpl. lia. }
  assert (Hparent : Fs.isDir m' dsegs = true).
  { unfold Fs.isDir. destruct dsegs as [|d ds] eqn:Hds; [reflexivity|].
    pose proof (mkdirGo_creates [] _ _ _ (length (d :: ds)) Hgo ltac:(simpl; lia)) as Hdir.
    rewrite firstn_all in Hdir. simpl in Hdir. now rewrite Hdir. }
  assert (Hprefixes : forall k, Fs.isDir m' (take k dsegs) = true).
  { intros k. destruct (le_lt_dec k (length dsegs)) as [Hle|Hgt].
    - destruct k as [|k]; [now rewrite take_0|].
      pose proof (mkdirGo_creates [] _ _ _ (S k) Hgo ltac:(lia)) as Hdir.
      rewrite app_nil_l in Hdir. unfold Fs.isDir. rewrite Hdir.
      now destruct (take (S k) dsegs).
    - now rewrite take_ge by lia. }
  exists {| fs := <[segs := File c1]> m'; trace := (trace w ++ [EvWriteFile path c1])%list |}.
  assert (Hlookup1 : forall tr, Fs.lookup h path {| fs := <[segs := File c1]> m'; trace := tr |}
                                = Some (File c1)).
  { intros tr. unfold Fs.lookup. rewrite Haccess, Hsegs. cbn [fs].
    destruct segs as [|seg segs'] eqn:Heq; [congruence|].
    now rewrite lookup_insert_eq, Htrailing. }
  split; [|split; [|split; [|split; [|split]]]].
  - unfold writeIfMissing. rewrite Hmissing. unfold mbind, M_bind, bind. rewrite Hmkdir.
    unfold Fs.writeFile. cbn [fs trace]. rewrite Haccess, Hsegs, Htrailing.
    assert (Hnotdir : Fs.isDir m' segs = false).
    { unfold Fs.isDir. destruct segs; [congruence|]. now rewrite Hnone'. }
    rewrite Hnotdir, Hlast, removelast_snoc, Hparent. reflexivity.
  - unfold Fs.readFile. now rewrite Hlookup1.
  - intros k. simpl fs. specialize (Hprefixes k). unfold Fs.isDir in *.
    destruct (take k dsegs) as [|d ds] eqn:Htake; [reflexivity|].
    rewrite lookup_insert_ne; [exact Hprefixes|].
    intros Heq. assert (Hl : length segs = length (d :: ds)) by now rewrite Heq.
    rewrite <- Htake, Hlast, length_app, length_take in Hl. simpl in Hl. lia.
  - intros key e Hkey. simpl fs.
    rewrite lookup_insert_ne; [now apply (mkdirGo_preserves _ _ _ _ _ _ Hgo)|].
    intros <-. congruence.
  - reflexivity.
  - unfold writeIfMissing, Fs.existsSync. now rewrite Hlookup1.
Qed.

Lemma writeIfMissing_created_then_skipped_witness :
  exists w1,
    writeIfMissing demoHost "/proj/src/ui/button.tsx" "first" demoWorld = Ok created w1 /\
    Fs.readFile demoHost "/proj/src/ui/button.tsx" w1 = Ok "first" w1 /\
    writeIfMissing demoHost "/proj/src/ui/button.tsx" "second" w1 = Ok skipped w1.
Proof.
  destruct (writeIfMissing_created_then_skipped demoHost "/proj/src/ui/button.tsx"
              "first" "second" demoWorld)
    as (w1 & Hcreated & Hread & _ & _ & _ & Hskipped).
  - reflexivity.
  - reflexivity.
  - reflexivity.
  - exists w1. auto.
Defined.

(** ** Alias resolution *)

(** C9. Without [components.json] in the working directory,
    [readAliasContext] throws the error that tells the user to run the
    init step, touches nothing, and [applyRegistryItem], the command that
    calls it, aborts with that error before it reads or writes anything. *)
Theorem readAliasContext_missing_configuration (h : Host) (cwd : string) (w : World) :
  Fs.existsSync h (Path.resolve (processCwd h) [cwd; "components.json"]) w = false ->
  readAliasContext h cwd w
  = Throw (JsError "Missing components.json in current directory. Run shadcn init first.") w /\
  forall item,
    applyRegistryItem h cwd item w
    = Throw (JsError "Missing components.json in current directory. Run shadcn init first.") w.
Proof.
  intros Hmissing.
  assert (Hthrow : readAliasContext h cwd w
    = Throw (JsError "Missing components.json in current directory. Run shadcn init first.") w).
  { unfold readAliasContext. now rewrite Hmissing. }
  split; [exact Hthrow|].
  intros item. unfold applyRegistryItem, mbind, M_bind, bind. now rewrite Hthrow.
Qed.

Lemma readAliasContext_missing_configuration_witness :
  applyRegistryItem demoHost "/elsewhere" brandingLogoWithBadgeItem demoWorld
  = Throw (JsError "Missing components.json in current directory. Run shadcn init first.")
          demoWorld.
Proof.
  apply (readAliasContext_missing_configuration demoHost "/elsewhere" demoWorld).
  reflexivity.
Defined.



(** ** The exporter *)

Lemma bind_run {A B} (m : M A) (k : A -> M B) (w : World) :
  (m ≫= k) w = match m w with
               | Ok a w' => k a w'
               | Throw e w' => Throw e w'
               end.
Proof. reflexivity. Qed.

(** Reading the templates of an item leaves the world as it is. *)
Lemma readTemplateFiles_world (h : Host) (root : string) (item : RegistryItem)
    (pending : list RegistryFile) (collected : list ExportedRegistryFile.t) (w : World) :
  match readTemplateFiles h root item pending collected w with
  | Ok _ w' => w' = w
  | Throw _ w' => w' = w
  end.
Proof.
  revert collected. induction pending as [|file rest IH]; intros collected; simpl.
  - reflexivity.
  - destruct (Fs.existsSync h _ w); simpl; [|reflexivity].
    rewrite bind_run. unfold Fs.readFile.
    destruct (Fs.lookup h _ w) as [[src|]|]; try reflexivity.
    rewrite bind_run. unfold rewriteImports.
    destruct (applyImportReplacements h src _); [|reflexivity].
    apply IH.
Qed.

(** A source that is no regular file stops the reading of the item. *)
Lemma readTemplateFiles_missing (h : Host) (root : string) (item : RegistryItem)
    (pending : list RegistryFile) (collected : list ExportedRegistryFile.t) (w : World)
    (file : RegistryFile) :
  In file pending ->
  missingFile h (Path.resolve (processCwd h) [root; source file]) w ->
  exists e, readTemplateFiles h root item pending collected w = Throw e w.
Proof.
  intros Hin Hmissing. revert collected.
  induction pending as [|first rest IH]; intros collected; [destruct Hin|]. simpl.
  destruct (Fs.existsSync h _ w); simpl; [|eauto].
  rewrite bind_run. unfold Fs.readFile.
  destruct (Fs.lookup h (Path.resolve (processCwd h) [root; source first]) w)
    as [[src|]|] eqn:Hlookup; [|eauto|eauto].
  rewrite bind_run. unfold rewriteImports.
  destruct (applyImportReplacements h src _); [|unfold throw; eauto].
  destruct Hin as [->|Hin].
  - now destruct (Hmissing src).
  - now apply IH.
Qed.

Lemma writeJson_trace (h : Host) (path : string) (value : JsonDoc) (w : World) :
  match writeJson h path value w with
  | Ok _ w' =>
      trace w' = trace w ++ [EvWriteFile path (JSON_stringify h value +:+ String "010"%char "")]
  | Throw _ w' => trace w' = trace w
  end.
Proof.
  unfold writeJson. rewrite bind_run.
  destruct (mkdir_cases h (Path.dirname path) w) as [(m & -> & _) | (e & ->)]; [|reflexivity].
  destruct (writeFile_cases h path (JSON_stringify h value +:+ String "010"%char "")
              {| fs := m; trace := trace w |}) as [(-> & _) | (e & ->)]; reflexivity.
Qed.

(** The writes of the export loop: one per item, in catalog order, each of
    the document built from what was read for that item; on an error, for
    the items before the failing one only. [run] pairs the items written
    with the files read for them. *)
Lemma exportItems_trace (h : Host) (root outDir : string) (pending : list RegistryItem)
    (acc : list ManifestItem.t) (w : World) :
  match exportItems h root outDir pending acc w with
  | Ok exportedItems w' =>
      exists run,
        map fst run = pending /\
        exportedItems = acc ++ map (fun p => manifestItemOf (fst p) (snd p)) run /\
        trace w' = trace w ++
                   map (fun p => itemWrite h outDir (fst p) (exportedItemOf (fst p) (snd p))) run
  | Throw _ w' =>
      exists run rest,
        pending = map fst run ++ rest /\ rest <> [] /\
        trace w' = trace w ++
                   map (fun p => itemWrite h outDir (fst p) (exportedItemOf (fst p) (snd p))) run
  end.
Proof.
  revert acc w. induction pending as [|item rest IH]; intros acc w; simpl.
  - exists []. simpl. now rewrite !app_nil_r.
  - rewrite bind_run. unfold readTemplateContent.
    pose proof (readTemplateFiles_world h root item (files item) [] w) as Hworld.
    destruct (readTemplateFiles h root item (files item) [] w) as [exported w1|e w1];
      subst w1.
    2:{ exists [], (item :: rest). simpl. now rewrite app_nil_r. }
    rewrite bind_run.
    pose proof (writeJson_trace h
                  (Path.resolve (processCwd h) [outDir; slugForItem item +:+ ".json"])
                  (ItemDoc (exportedItemOf item exported)) w) as Hwrite.
    destruct (writeJson h _ _ w) as [[] w2|e w2].
    2:{ exists [], (item :: rest). simpl. now rewrite app_nil_r. }
    specialize (IH (acc ++ [manifestItemOf item exported]) w2).
    destruct (exportItems h root outDir rest _ w2) as [exportedItems w3|e w3].
    + destruct IH as (run & Hfst & Hitems & Htrace).
      exists ((item, exported) :: run). simpl.
      rewrite Hfst, Hitems, Htrace, Hwrite, <- !app_assoc. auto.
    + destruct IH as (run & rest' & Hpending & Hrest & Htrace).
      exists ((item, exported) :: run), rest'. simpl.
      rewrite Hpending, Htrace, Hwrite, <- !app_assoc. auto.
Qed.

Lemma exportItems_app (h : Host) (root outDir : string) (before after : list RegistryItem)
    (acc : list ManifestItem.t) (w : World) :
  exportItems h root outDir (before ++ after) acc w
  = match exportItems h root outDir before acc w with
    | Ok exportedItems w' => exportItems h root outDir after exportedItems w'
    | Throw e w' => Throw e w'
    end.
Proof.
  revert acc w. induction before as [|item rest IH]; intros acc w; simpl; [reflexivity|].
  rewrite !bind_run.
  destruct (readTemplateContent h root item w) as [exported w1|e w1]; [|reflexivity].
  rewrite !bind_run.
  destruct (writeJson h _ _ w1) as [[] w2|e w2]; [|reflexivity].
  apply IH.
Qed.

(** The loop stops at an item one of whose sources is no regular file
    when the loop comes to it. *)
Lemma exportItems_missing (h : Host) (root outDir : string)
    (before after : list RegistryItem) (item : RegistryItem) (file : RegistryFile) (w : World) :
  In file (files item) ->
  (forall exportedItems w', exportItems h root outDir before [] w = Ok exportedItems w' ->
     missingFile h (Path.resolve (processCwd h) [root; source file]) w') ->
  exists e w' run,
    exportItems h root outDir (before ++ item :: after) [] w = Throw e w' /\
    length run <= length before /\
    trace w' = trace w ++
               map (fun p => itemWrite h outDir (fst p) (exportedItemOf (fst p) (snd p))) run.
Proof.
  intros Hin Hmissing. rewrite exportItems_app.
  pose proof (exportItems_trace h root outDir before [] w) as Hbefore.
  destruct (exportItems h root outDir before [] w) as [exportedItems w1|e w1].
  - destruct Hbefore as (run & Hfst & _ & Htrace).
    destruct (readTemplateFiles_missing h root item (files item) [] w1 file Hin
                (Hmissing _ _ eq_refl)) as [e He].
    exists e, w1, run. simpl. rewrite bind_run. unfold readTemplateContent. rewrite He.
    repeat split; [|exact Htrace].
    rewrite <- Hfst, length_map. lia.
  - destruct Hbefore as (run & rest & Hpending & _ & Htrace).
    exists e, w1, run. repeat split; [|exact Htrace].
    rewrite Hpending, length_app, length_map. lia.
Qed.

(** C4. When a source of a catalog item is no regular file under the
    template root at the time the exporter comes to that item,
    [exportRegistry] throws, and all it has written by then are per-item
    documents of items before that one: the manifest is not written. *)
Theorem exportRegistry_missing_source (h : Host) (outDir : string)
    (before after : list RegistryItem) (item : RegistryItem) (file : RegistryFile) (w : World) :
  In file (files item) ->
  (forall exportedItems w',
     exportItems h (templateRootOf h) outDir before [] w = Ok exportedItems w' ->
     missingFile h (Path.resolve (processCwd h) [templateRootOf h; source file]) w') ->
  exists e w' run,
    exportRegistryOf (before ++ item :: after) h outDir w = Throw e w' /\
    length run <= length before /\
    trace w' = trace w ++
               map (fun p => itemWrite h outDir (fst p) (exportedItemOf (fst p) (snd p))) run.
Proof.
  intros Hin Hmissing. unfold exportRegistryOf. fold (templateRootOf h).
  destruct (Fs.existsSync h (templateRootOf h) w); simpl.
  - destruct (exportItems_missing h (templateRootOf h) outDir before after item file w
                Hin Hmissing) as (e & w' & run & Hthrow & Hlen & Htrace).
    exists e, w', run. rewrite bind_run, Hthrow. auto.
  - exists (JsError ("Missing templates directory: " +:+ templateRootOf h)), w, [].
    simpl. rewrite app_nil_r. repeat split. lia.
Qed.

Lemma exportRegistry_missing_source_witness :
  exists e w',
    exportRegistry demoHost "/proj/public/r" demoWorld = Throw e w' /\
    trace w' = [].
Proof.
  destruct (exportRegistry_missing_source demoHost "/proj/public/r" []
              [brandingLogoWithBadgeItem] fumadocsSdkLayoutItem
              {| source := "fumadocs/blocks/sdk-layout/index.ts";
                 target := "sdk-layout/index.ts";
                 replaceImports := None |} demoWorld)
    as (e & w' & run & Hthrow & Hlen & Htrace).
  - left. reflexivity.
  - intros exportedItems w' [= _ <-] c. discriminate.
  - exists e, w'. split; [exact Hthrow|].
    destruct run; [exact Htrace | simpl in Hlen; lia].
Defined.

(** *** A missing source stays missing unless the exporter writes it *)

Lemma mkdirGo_no_file (done todo : list string) (m m' : gmap (list string) Entry)
    (key : list string) :
  Fs.mkdirGo done todo m = Some m' ->
  (forall c, m !! key <> Some (File c)) -> forall c, m' !! key <> Some (File c).
Proof.
  revert done m. induction todo as [|seg rest IH]; intros done m; simpl.
  - now intros [= <-].
  - destruct (m !! (done ++ [seg])) as [[c|]|] eqn:Hd; [discriminate| |].
    + apply IH.
    + intros Hgo Hkey. apply (IH _ _ Hgo). intros c.
      destruct (decide (done ++ [seg] = key)) as [<-|Hne].
      * now rewrite lookup_insert_eq.
      * rewrite lookup_insert_ne by assumption. apply Hkey.
Qed.

(** No regular file is found at a path that the walk passes: the path
    asks for a directory, or names the root, or the entry it names is no
    regular file. *)
Lemma missingFile_spec (h : Host) (p : string) (w : World) :
  Fs.access h p (fs w) = Fs.Through ->
  missingFile h p w <->
  Fs.trailing p = true \/ Fs.segments h p = [] \/
  forall c, fs w !! Fs.segments h p <> Some (File c).
Proof.
  intros Haccess. unfold missingFile, Fs.lookup. rewrite Haccess.
  destruct (Fs.segments h p) as [|seg segs].
  { split; [intros _; right; now left | intros _ c; discriminate]. }
  destruct (Fs.trailing p).
  - split; [now left|]. intros _ c.
    now destruct (fs w !! (seg :: segs)) as [[c'|]|].
  - split.
    + intros Hmissing. right. right. intros c Hfile. apply (Hmissing c). now rewrite Hfile.
    + intros [Hfalse|[Hroot|Hmissing]] c; [discriminate..|].
      destruct (fs w !! (seg :: segs)) as [[c'|]|] eqn:Hfound; try discriminate.
      intros [= ->]. now apply (Hmissing c).
Qed.

Lemma writeJson_missing (h : Host) (path : string) (value : JsonDoc) (w w' : World)
    (sourcePath : string) :
  (forall m, Fs.access h sourcePath m = Fs.Through) ->
  writeJson h path value w = Ok tt w' ->
  Fs.segments h path <> Fs.segments h sourcePath ->
  missingFile h sourcePath w -> missingFile h sourcePath w'.
Proof.
  intros Haccess. unfold writeJson. rewrite bind_run.
  destruct (mkdir_cases h (Path.dirname path) w) as [(m & -> & _ & Hfiles) | (e & ->)];
    [|discriminate].
  destruct (writeFile_cases h path (JSON_stringify h value +:+ String "010"%char "")
              {| fs := m; trace := trace w |}) as [(-> & _) | (e & ->)]; [|discriminate].
  intros [= <-] Hne Hmissing.
  apply (missingFile_spec _ _ _ (Haccess _)).
  apply (missingFile_spec _ _ _ (Haccess _)) in Hmissing as [Htrailing|[Hroot|Hmissing]];
    [now left | right; now left |].
  right. right. cbn [fs]. intros c. rewrite lookup_insert_ne by assumption. now apply Hfiles.
Qed.

Lemma exportItems_missing_preserved (h : Host) (root outDir : string)
    (pending : list RegistryItem) (acc exportedItems : list ManifestItem.t) (w w' : World)
    (sourcePath : string) :
  (forall m, Fs.access h sourcePath m = Fs.Through) ->
  exportItems h root outDir pending acc w = Ok exportedItems w' ->
  (forall item, In item pending ->
     Fs.segments h (Path.resolve (processCwd h) [outDir; slugForItem item +:+ ".json"])
     <> Fs.segments h sourcePath) ->
  missingFile h sourcePath w -> missingFile h sourcePath w'.
Proof.
  intros Haccess. revert acc w. induction pending as [|item rest IH]; intros acc w; simpl.
  - now intros [= _ <-].
  - rewrite bind_run. unfold readTemplateContent.
    pose proof (readTemplateFiles_world h root item (files item) [] w) as Hworld.
    destruct (readTemplateFiles h root item (files item) [] w) as [exported w1|e w1];
      [subst w1|discriminate].
    rewrite bind_run.
    destruct (writeJson h _ _ w) as [[] w2|e w2] eqn:Hwrite; [|discriminate].
    intros Hrun Hother Hmissing.
    apply (IH _ _ Hrun); [intros it Hit; apply Hother; now right|].
    apply (writeJson_missing _ _ _ _ _ _ Haccess Hwrite); [apply Hother; now left | assumption].
Qed.

(** The same for a source that is missing when the export starts, as long
    as no earlier item is exported to the very path of that source. *)
Lemma exportRegistry_missing_at_start (h : Host) (outDir : string)
    (before after : list RegistryItem) (item : RegistryItem) (file : RegistryFile) (w : World) :
  In file (files item) ->
  missingFile h (Path.resolve (processCwd h) [templateRootOf h; source file]) w ->
  (forall earlier, In earlier before ->
     Fs.segments h (Path.resolve (processCwd h) [outDir; slugForItem earlier +:+ ".json"])
     <> Fs.segments h (Path.resolve (processCwd h) [templateRootOf h; source file])) ->
  exists e w' run,
    exportRegistryOf (before ++ item :: after) h outDir w = Throw e w' /\
    length run <= length before /\
    trace w' = trace w ++
               map (fun p => itemWrite h outDir (fst p) (exportedItemOf (fst p) (snd p))) run.
Proof.
  intros Hin Hmissing Hother. unfold exportRegistryOf. fold (templateRootOf h).
  destruct (Fs.existsSync h (templateRootOf h) w); simpl.
  - destruct (exportItems_missing h (templateRootOf h) outDir before after item file w Hin)
      as (e & w' & run & Hthrow & Hlen & Htrace).
    { intros exportedItems w' Hrun.
      apply (exportItems_missing_preserved _ _ _ _ _ _ _ _ _ (access_resolve h _ _) Hrun);
        assumption. }
    exists e, w', run. rewrite bind_run, Hthrow. auto.
  - exists (JsError ("Missing templates directory: " +:+ templateRootOf h)), w, [].
    simpl. rewrite app_nil_r. repeat split. lia.
Qed.

Lemma zip_with_run {A B C D} (f : A -> C -> D) (g : A * B -> C) (run : list (A * B)) :
  zip_with f (map fst run) (map g run) = map (fun p => f (fst p) (g p)) run.
Proof. induction run as [|p run IH]; simpl; [reflexivity | now rewrite IH]. Qed.

Lemma manifestItemOf_paths (item : RegistryItem) (exported : list ExportedRegistryFile.t) :
  map ManifestFile.path (ManifestItem.files (manifestItemOf item exported))
  = map ExportedRegistryFile.path exported.
Proof.
  simpl. induction exported as [|file rest IH]; simpl; [reflexivity | now rewrite IH].
Qed.

(** C3 as stated fails: the export of the shipped catalog stops at the
    first template that is missing and writes nothing. *)
Lemma exportRegistry_incomplete_counterexample :
  exportRegistry demoHost "/proj/public/r" demoWorld
  = Throw (JsError ("Missing template source for registry export: "
                    +:+ "/pkg/templates/fumadocs/blocks/sdk-layout/index.ts"))
          demoWorld.
Proof. reflexivity. Qed.

(** C3, amended. An export that completes has written exactly one
    document per catalog item, in catalog order, at [outDir/<slug>.json],
    and after all of them the manifest at [outDir/registry.json]; the
    entries of the manifest correspond to the per-item documents one to
    one, with the same name and the same file paths. *)
Theorem exportRegistry_writes (h : Host) (catalog : list RegistryItem) (outDir : string)
    (w w' : World) :
  exportRegistryOf catalog h outDir w = Ok tt w' ->
  exists (docs : list ExportedRegistryItem.t) (manifest : RegistryManifest.t),
    length docs = length catalog /\
    trace w' = trace w ++ zip_with (itemWrite h outDir) catalog docs ++
               [manifestWrite h outDir manifest;
                EvLog ("Exported " +:+ pretty (length catalog) +:+ " registry item(s) to "
                       +:+ outDir)] /\
    Forall2 (fun item doc => ExportedRegistryItem.name doc = slugForItem item) catalog docs /\
    Forall2 (fun entry doc =>
               ManifestItem.name entry = ExportedRegistryItem.name doc /\
               map ManifestFile.path (ManifestItem.files entry)
               = map ExportedRegistryFile.path (ExportedRegistryItem.files doc))
            (RegistryManifest.items manifest) docs.
Proof.
  unfold exportRegistryOf. fold (templateRootOf h).
  destruct (Fs.existsSync h (templateRootOf h) w); simpl; [|discriminate].
  rewrite bind_run.
  pose proof (exportItems_trace h (templateRootOf h) outDir catalog [] w) as Hloop.
  destruct (exportItems h (templateRootOf h) outDir catalog [] w) as [exportedItems w1|e w1];
    [|discriminate].
  destruct Hloop as (run & Hfst & Hitems & Htrace). simpl in Hitems.
  rewrite bind_run.
  pose proof (writeJson_trace h (Path.resolve (processCwd h) [outDir; "registry.json"])
                (ManifestDoc (manifestOf exportedItems)) w1) as Hwrite.
  destruct (writeJson h _ _ w1) as [[] w2|e w2]; [|discriminate].
  unfold consoleLog. intros [= <-].
  exists (map (fun p => exportedItemOf (fst p) (snd p)) run), (manifestOf exportedItems).
  split; [|split; [|split]].
  - now rewrite length_map, <- Hfst, length_map.
  - simpl trace. rewrite Hwrite, Htrace, <- Hfst, zip_with_run, <- !app_assoc. reflexivity.
  - rewrite <- Hfst. clear. induction run as [|p run IH]; simpl; constructor; auto.
  - simpl. rewrite Hitems. clear. induction run as [|p run IH]; simpl; constructor; auto.
    split; [reflexivity | apply manifestItemOf_paths].
Qed.

Lemma exportRegistry_writes_witness :
  exists w' doc manifest,
    exportRegistryOf [brandingLogoWithBadgeItem] demoHost "/proj/public/r" demoWorld = Ok tt w' /\
    trace w' = [itemWrite demoHost "/proj/public/r" brandingLogoWithBadgeItem doc;
                manifestWrite demoHost "/proj/public/r" manifest;
                EvLog "Exported 1 registry item(s) to /proj/public/r"] /\
    map ManifestItem.name (RegistryManifest.items manifest) = ["branding-logo-with-badge"].
Proof.
  assert (Hrun : exists w', exportRegistryOf [brandingLogoWithBadgeItem] demoHost
                              "/proj/public/r" demoWorld = Ok tt w')
    by (eexists; vm_compute; reflexivity).
  destruct Hrun as [w' Hrun].
  destruct (exportRegistry_writes demoHost [brandingLogoWithBadgeItem] "/proj/public/r"
              demoWorld w' Hrun) as (docs & manifest & Hlen & Htrace & Hnames & Hpaths).
  destruct docs as [|doc [|doc' docs]]; try discriminate.
  exists w', doc, manifest. split; [exact Hrun|]. split; [exact Htrace|].
  inversion Hpaths as [|entry doc0 entries docs0 [Hname _] Hrest Hitems]; subst.
  inversion Hrest; subst. simpl. rewrite Hname.
  inversion Hnames as [|? ? ? ? Hslug]; subst. rewrite Hslug. reflexivity.
Defined.

(** * Further properties *)

(** ** The materializer *)

Lemma lookup_mono (h : Host) (p : string) (w w' : World) (e : Entry) :
  fs w ⊆ fs w' -> Fs.lookup h p w = Some e -> Fs.lookup h p w' = Some e.
Proof.
  unfold Fs.lookup. intros Hsub.
  destruct (Fs.access h p (fs w)) eqn:Haccess; try discriminate.
  rewrite (access_subseteq _ _ _ _ Hsub Haccess).
  destruct (Fs.segments h p) as [|seg segs]; [auto|].
  destruct (fs w !! (seg :: segs)) as [found|] eqn:Hfound; [|easy].
  rewrite (lookup_weaken _ _ _ _ Hfound Hsub). now destruct found.
Qed.

Lemma existsSync_mono (h : Host) (p : string) (w w' : World) :
  fs w ⊆ fs w' -> Fs.existsSync h p w = true -> Fs.existsSync h p w' = true.
Proof.
  unfold Fs.existsSync. intros Hsub.
  destruct (Fs.lookup h p w) as [e|] eqn:Hl; [|discriminate].
  now rewrite (lookup_mono h p w w' e Hsub Hl).
Qed.

Lemma mkdirGo_subseteq (done todo : list string) (m m' : gmap (list string) Entry) :
  Fs.mkdirGo done todo m = Some m' -> m ⊆ m'.
Proof.
  intros Hgo. apply map_subseteq_spec. intros key e.
  now apply (mkdirGo_preserves _ _ _ _ _ _ Hgo).
Qed.

(** The three ways a call of [writeIfMissing] ends on a path that the
    walk passes, with the world each leaves: nothing done, directories
    created only (an error), or the file written where nothing was. *)
Lemma writeIfMissing_cases (h : Host) (path content : string) (w : World) :
  (forall m, Fs.access h path m = Fs.Through) ->
  let r := writeIfMissing h path content w in
  (r = Ok skipped w /\ Fs.existsSync h path w = true) \/
  (exists e m, r = Throw e {| fs := m; trace := trace w |} /\ fs w ⊆ m /\
               Fs.existsSync h path w = false) \/
  (exists m, r = Ok created {| fs := <[Fs.segments h path := File content]> m;
                               trace := trace w ++ [EvWriteFile path content] |} /\
             fs w ⊆ m /\ m !! Fs.segments h path = None /\ Fs.segments h path <> [] /\
             Fs.trailing path = false).
Proof.
  intros Haccess. unfold writeIfMissing.
  destruct (Fs.existsSync h path w) eqn:Hex; [now left|]. right.
  destruct (existsSync_false_lookup _ _ _ (Haccess _) Hex) as [Hroot Hnone].
  rewrite bind_run.
  destruct (mkdir_cases h (Path.dirname path) w) as [(m & -> & Hsub & Hfiles) | (e & ->)].
  2:{ left. exists e, (fs w). destruct w as [m0 tr]. auto. }
  rewrite bind_run.
  destruct (writeFile_cases h path content {| fs := m; trace := trace w |})
    as [(-> & _ & Hdir & _ & Htrailing) | (e & ->)]; [|left; eauto].
  right. exists m. cbn [fs trace] in *. repeat split; auto.
  destruct Hnone as [Hnone | [Htrue _]]; [|congruence].
  destruct (m !! Fs.segments h path) as [[c|]|] eqn:Hm; [| |reflexivity].
  - exfalso. apply (Hfiles (Fs.segments h path)) with (c := c); [|exact Hm].
    intros c'. now rewrite Hnone.
  - unfold Fs.isDir in Hdir. rewrite Hm in Hdir. now destruct (Fs.segments h path).
Qed.

Lemma writeIfMissing_keeps (h : Host) (path content : string) (w : World) :
  (forall m, Fs.access h path m = Fs.Through) ->
  fs w ⊆ fs (worldOf (writeIfMissing h path content w)).
Proof.
  intros Haccess.
  destruct (writeIfMissing_cases h path content w Haccess)
    as [[-> _] | [(e & m & -> & Hsub & _) | (m & -> & Hsub & Hnone & _)]]; simpl; auto.
  etransitivity; [exact Hsub|]. now apply insert_subseteq.
Qed.

Lemma writeIfMissing_exists_after (h : Host) (path content : string) (w w' : World)
    (outcome : WriteOutcome) :
  (forall m, Fs.access h path m = Fs.Through) ->
  writeIfMissing h path content w = Ok outcome w' -> Fs.existsSync h path w' = true.
Proof.
  intros Haccess.
  destruct (writeIfMissing_cases h path content w Haccess)
    as [[-> Hex] | [(e & m & -> & _) | (m & -> & _ & _ & Hroot & Htrailing)]].
  - now intros [= _ <-].
  - discriminate.
  - intros [= _ <-]. unfold Fs.existsSync, Fs.lookup. rewrite Haccess. cbn [fs].
    destruct (Fs.segments h path); [congruence|].
    now rewrite lookup_insert_eq, Htrailing.
Qed.

Lemma writeIfMissing_trace (h : Host) (path content : string) (w : World) :
  trace (worldOf (writeIfMissing h path content w)) = trace w \/
  trace (worldOf (writeIfMissing h path content w)) = trace w ++ [EvWriteFile path content].
Proof.
  unfold writeIfMissing. destruct (Fs.existsSync h path w); [now left|].
  rewrite bind_run.
  destruct (mkdir_cases h (Path.dirname path) w) as [(m & -> & _) | (e & ->)]; [|now left].
  rewrite bind_run.
  destruct (writeFile_cases h path content {| fs := m; trace := trace w |})
    as [(-> & _) | (e & ->)]; [now right | now left].
Qed.

(** X1. For every path that [resolve] returns (the form in which the
    callers pass it), whatever [writeIfMissing] returns or throws, every
    file and directory that existed before is still there with the same
    content, and the call has written at most the one file it was asked
    for; when it returns, something exists at the path, and it has skipped
    exactly when something existed there before. *)
Theorem writeIfMissing_never_replaces (h : Host) (args : list string) (content : string)
    (w : World) :
  fs w ⊆ fs (worldOf (writeIfMissing h (Path.resolve (processCwd h) args) content w)) /\
  (trace (worldOf (writeIfMissing h (Path.resolve (processCwd h) args) content w)) = trace w \/
   trace (worldOf (writeIfMissing h (Path.resolve (processCwd h) args) content w))
   = trace w ++ [EvWriteFile (Path.resolve (processCwd h) args) content]) /\
  (forall outcome w',
     writeIfMissing h (Path.resolve (processCwd h) args) content w = Ok outcome w' ->
     Fs.existsSync h (Path.resolve (processCwd h) args) w' = true /\
     (outcome = skipped <-> Fs.existsSync h (Path.resolve (processCwd h) args) w = true)).
Proof.
  pose proof (access_resolve h (processCwd h) args) as Haccess.
  split; [now apply writeIfMissing_keeps|]. split; [apply writeIfMissing_trace|].
  intros outcome w' Hrun.
  split; [now apply (writeIfMissing_exists_after _ _ _ _ _ _ Haccess Hrun)|].
  destruct (writeIfMissing_cases h _ content w Haccess)
    as [[Hr Hex] | [(e & m & Hr & _) | (m & Hr & _)]]; rewrite Hr in Hrun.
  - injection Hrun as <- _. tauto.
  - discriminate.
  - injection Hrun as <- _. split; [discriminate|].
    intros Hex. unfold writeIfMissing in Hr. rewrite Hex in Hr. discriminate.
Qed.

(** The restriction is needed: on a path that goes up from a directory
    that does not exist, nothing is found, the directory is made on the
    way, and the file that the path then names is replaced. *)
Example writeIfMissing_replaces_through_missing_directory :
  fs demoWorld !! ["proj"; "components.json"] = Some (File "{}") /\
  Fs.existsSync demoHost "/proj/missing/../components.json" demoWorld = false /\
  exists w',
    writeIfMissing demoHost "/proj/missing/../components.json" "new" demoWorld
    = Ok created w' /\
    fs w' !! ["proj"; "components.json"] = Some (File "new") /\
    fs w' !! ["proj"; "missing"] = Some Dir.
Proof.
  split; [reflexivity|]. split; [reflexivity|].
  eexists. split; [vm_compute; reflexivity|]. split; reflexivity.
Qed.

(** ** Applying an item *)

Lemma consoleLog_run (message : string) (w : World) :
  consoleLog message w = Ok tt {| fs := fs w; trace := trace w ++ [EvLog message] |}.
Proof. reflexivity. Qed.

Lemma applyFiles_keeps (h : Host) (aliases : AliasContext) (componentsRoot templateRoot : string)
    (pending : list RegistryFile) (w : World) :
  fs w ⊆ fs (worldOf (applyFiles h aliases componentsRoot templateRoot pending w)).
Proof.
  revert w. induction pending as [|file rest IH]; intros w; simpl; [reflexivity|].
  rewrite bind_run. unfold Fs.readFile.
  destruct (Fs.lookup h _ w) as [[src|]|]; simpl; try reflexivity.
  rewrite bind_run. unfold rewriteImports.
  destruct (applyImportReplacements h src _) as [transformed|]; simpl; [|reflexivity].
  rewrite bind_run.
  pose proof (writeIfMissing_keeps h
                (Path.resolve (processCwd h) [componentsRoot; target file]) transformed w
                (access_resolve h _ _)) as Hw.
  destruct (writeIfMissing h _ transformed w) as [outcome w1|e w1]; simpl in Hw; [|exact Hw].
  rewrite bind_run, consoleLog_run.
  etransitivity; [exact Hw|].
  match goal with |- _ ⊆ fs (worldOf (applyFiles _ _ _ _ _ ?w')) => exact (IH w') end.
Qed.

Lemma readAliasContext_world (h : Host) (cwd : string) (w : World) :
  worldOf (readAliasContext h cwd w) = w.
Proof.
  unfold readAliasContext. destruct (Fs.existsSync h _ w); simpl; [|reflexivity].
  rewrite bind_run. unfold Fs.readFile.
  destruct (Fs.lookup h _ w) as [[raw|]|]; simpl; try reflexivity.
  now destruct (JSON_parse h raw).
Qed.

(** X2. Adding an item never replaces or removes a file or directory of
    the project: whatever [applyRegistryItem] returns or throws, every entry
    that existed before is still there unchanged, as long as the package
    manager it may spawn keeps them too (it spawns none for an item without
    dependencies). *)
Theorem applyRegistryItem_keeps_entries (h : Host) (cwd : string) (item : RegistryItem)
    (w : World) :
  nullish (dependencies item) [] = [] \/
  (forall command args dir m, m ⊆ snd (spawnSync h command args dir m)) ->
  fs w ⊆ fs (worldOf (applyRegistryItem h cwd item w)).
Proof.
  intros Hdeps. unfold applyRegistryItem. rewrite bind_run.
  pose proof (readAliasContext_world h cwd w) as Hread.
  destruct (readAliasContext h cwd w) as [resolved w1|e w1]; simpl in Hread; subst w1;
    [|reflexivity].
  destruct (List.find _ _) as [templateRoot|]; [|reflexivity].
  rewrite bind_run.
  pose proof (applyFiles_keeps h (ResolvedAliases.aliases resolved)
                (ResolvedAliases.componentsRoot resolved) templateRoot (files item) w) as Hfiles.
  destruct (applyFiles h _ _ templateRoot (files item) w) as [[] w1|e w1]; simpl in Hfiles;
    [|exact Hfiles].
  etransitivity; [exact Hfiles|].
  destruct (nullish (dependencies item) []) as [|dep deps] eqn:Hn; [reflexivity|].
  destruct Hdeps as [Hnone|Hspawn]; [discriminate|].
  unfold installDepsIfNeeded. rewrite bind_run, consoleLog_run, bind_run. unfold spawn.
  simpl fs.
  pose proof (Hspawn (packageManagerName
                        (detectPackageManager h cwd w1))
                (match detectPackageManager h cwd w1 with
                 | npm => "install" :: dep :: deps
                 | _ => "add" :: dep :: deps
                 end) cwd (fs w1)) as Hkeep.
  destruct (spawnSync h _ _ cwd (fs w1)) as [status m]. simpl in Hkeep.
  destruct status as [[| |]|]; simpl; exact Hkeep.
Qed.

Lemma applyRegistryItem_keeps_entries_witness :
  fs demoWorld ⊆ fs (worldOf (applyRegistryItem demoHost "/proj" brandingLogoWithBadgeItem
                                demoWorld)).
Proof.
  apply (applyRegistryItem_keeps_entries demoHost "/proj" brandingLogoWithBadgeItem demoWorld).
  left. reflexivity.
Defined.

(** X3. A failed dependency install never fails the command:
    [installDepsIfNeeded] returns whatever the exit status of the package
    manager. Without dependencies it leaves the world as it is; otherwise
    it spawns the detected package manager once, in [cwd], with the verb
    [install] for npm and [add] for the others, followed by the
    dependencies, and the file system is the one that process leaves. *)
Theorem installDepsIfNeeded_never_throws (h : Host) (cwd : string) (deps : list string)
    (w : World) :
  exists w',
    installDepsIfNeeded h cwd deps w = Ok tt w' /\
    (deps = [] -> w' = w) /\
    (deps <> [] ->
     spawnsOf (trace w')
     = spawnsOf (trace w)
       ++ [EvSpawn (packageManagerName (detectPackageManager h cwd w))
             (match detectPackageManager h cwd w with
              | npm => "install"
              | _ => "add"
              end :: deps) cwd] /\
     fs w' = snd (spawnSync h (packageManagerName (detectPackageManager h cwd w))
                    (match detectPackageManager h cwd w with
                     | npm => "install"
                     | _ => "add"
                     end :: deps) cwd (fs w))).
Proof.
  destruct deps as [|dep deps].
  - exists w. repeat split; congruence.
  - unfold installDepsIfNeeded. rewrite bind_run, consoleLog_run, bind_run. unfold spawn.
    cbn [fs trace].
    replace (match detectPackageManager h cwd w with
             | npm => "install" :: dep :: deps
             | _ => "add" :: dep :: deps
             end)
      with (match detectPackageManager h cwd w with
            | npm => "install"
            | _ => "add"
            end :: dep :: deps)
      by now destruct (detectPackageManager h cwd w).
    destruct (spawnSync h _ _ cwd (fs w)) as [status m].
    destruct status as [[| |]|]; cbn; eexists; (split; [reflexivity|]);
      (split; [discriminate|]); intros _; cbn [trace fs]; unfold spawnsOf;
      rewrite !List.filter_app; cbn; rewrite ?app_nil_r; (split; reflexivity).
Qed.

Lemma lookup_fs (h : Host) (p : string) (w w' : World) :
  fs w = fs w' -> Fs.lookup h p w = Fs.lookup h p w'.
Proof. unfold Fs.lookup. now intros ->. Qed.

Lemma existsSync_fs (h : Host) (p : string) (w w' : World) :
  fs w = fs w' -> Fs.existsSync h p w = Fs.existsSync h p w'.
Proof. unfold Fs.existsSync. intros H. now rewrite (lookup_fs h p w w' H). Qed.

Lemma settled_mono (h : Host) (aliases : AliasContext) (componentsRoot templateRoot : string)
    (m m' : gmap (list string) Entry) (file : RegistryFile) :
  m ⊆ m' -> settled h aliases componentsRoot templateRoot m file ->
  settled h aliases componentsRoot templateRoot m' file.
Proof.
  intros Hsub (src & transformed & Hsrc & Hre & Hex).
  exists src, transformed. repeat split; [|exact Hre|].
  - now apply (lookup_mono h _ {| fs := m; trace := [] |} {| fs := m'; trace := [] |}).
  - now apply (existsSync_mono h _ {| fs := m; trace := [] |} {| fs := m'; trace := [] |}).
Qed.

Lemma applyFiles_settles (h : Host) (aliases : AliasContext)
    (componentsRoot templateRoot : string) (pending : list RegistryFile) (w w1 : World) :
  applyFiles h aliases componentsRoot templateRoot pending w = Ok tt w1 ->
  Forall (settled h aliases componentsRoot templateRoot (fs w1)) pending.
Proof.
  revert w. induction pending as [|file rest IH]; intros w; simpl; [constructor|].
  rewrite bind_run. unfold Fs.readFile.
  destruct (Fs.lookup h _ w) as [[src|]|] eqn:Hsrc; try discriminate.
  rewrite bind_run. unfold rewriteImports.
  destruct (applyImportReplacements h src _) as [transformed|] eqn:Hre; [|discriminate].
  simpl. rewrite bind_run.
  pose proof (writeIfMissing_keeps h
                (Path.resolve (processCwd h) [componentsRoot; target file]) transformed w
                (access_resolve h _ _)) as Hkeep.
  destruct (writeIfMissing h _ transformed w) as [outcome w2|e w2] eqn:Hwrite; [|discriminate].
  simpl in Hkeep. rewrite bind_run, consoleLog_run.
  intros Hrest. constructor; [|exact (IH _ Hrest)].
  pose proof (applyFiles_keeps h aliases componentsRoot templateRoot rest
                {| fs := fs w2; trace := trace w2 ++
                     [EvLog (match outcome with created => "Created" | skipped => "Skipped" end
                             +:+ " " +:+ Path.resolve (processCwd h) [componentsRoot; target file])] |})
    as Hlater.
  rewrite Hrest in Hlater. simpl in Hlater.
  apply (settled_mono h aliases componentsRoot templateRoot (fs w2)); [exact Hlater|].
  exists src, transformed. repeat split; [|exact Hre|].
  - apply (lookup_mono h _ w); [exact Hkeep | exact Hsrc].
  - rewrite <- (writeIfMissing_exists_after _ _ _ _ _ _ (access_resolve h _ _) Hwrite).
    now apply existsSync_fs.
Qed.

Lemma applyFiles_skips (h : Host) (aliases : AliasContext)
    (componentsRoot templateRoot : string) (pending : list RegistryFile) (w : World) :
  Forall (settled h aliases componentsRoot templateRoot (fs w)) pending ->
  applyFiles h aliases componentsRoot templateRoot pending w
  = Ok tt {| fs := fs w;
             trace := trace w ++
               map (fun file => EvLog ("Skipped " +:+
                      Path.resolve (processCwd h) [componentsRoot; target file])) pending |}.
Proof.
  revert w. induction pending as [|file rest IH]; intros w Hall; simpl.
  - rewrite app_nil_r. now destruct w.
  - inversion Hall as [|? ? (src & transformed & Hsrc & Hre & Hex) Hrest]; subst.
    rewrite bind_run. unfold Fs.readFile.
    rewrite (lookup_fs h _ w {| fs := fs w; trace := [] |} eq_refl), Hsrc.
    rewrite bind_run. unfold rewriteImports. rewrite Hre. simpl.
    rewrite bind_run. unfold writeIfMissing.
    rewrite (existsSync_fs h _ w {| fs := fs w; trace := [] |} eq_refl), Hex.
    rewrite bind_run, consoleLog_run, IH by exact Hrest.
    simpl. now rewrite <- app_assoc.
Qed.

(** X4. Adding an item twice is adding it once: after a pass over the
    files of an item that completed, a second pass completes too, skips
    every file and leaves the file system exactly as the first pass left
    it; all it does is log one [Skipped] line per file. *)
Theorem applyFiles_twice (h : Host) (aliases : AliasContext)
    (componentsRoot templateRoot : string) (pending : list RegistryFile) (w w1 : World) :
  applyFiles h aliases componentsRoot templateRoot pending w = Ok tt w1 ->
  applyFiles h aliases componentsRoot templateRoot pending w1
  = Ok tt {| fs := fs w1;
             trace := trace w1 ++
               map (fun file => EvLog ("Skipped " +:+
                      Path.resolve (processCwd h) [componentsRoot; target file])) pending |}.
Proof.
  intros Hfirst. apply applyFiles_skips. exact (applyFiles_settles _ _ _ _ _ _ _ Hfirst).
Qed.

Lemma applyFiles_twice_witness :
  exists w1,
    applyFiles demoHost DEFAULT_ALIASES "/proj/src/components" "/pkg/templates"
      (files brandingLogoWithBadgeItem) demoWorld = Ok tt w1 /\
    applyFiles demoHost DEFAULT_ALIASES "/proj/src/components" "/pkg/templates"
      (files brandingLogoWithBadgeItem) w1
    = Ok tt {| fs := fs w1;
               trace := trace w1 ++
                 [EvLog "Skipped /proj/src/components/components/branding/logo-with-badge.tsx"] |}.
Proof.
  assert (Hrun : exists w1,
    applyFiles demoHost DEFAULT_ALIASES "/proj/src/components" "/pkg/templates"
      (files brandingLogoWithBadgeItem) demoWorld = Ok tt w1)
    by (eexists; vm_compute; reflexivity).
  destruct Hrun as [w1 Hrun]. exists w1. split; [exact Hrun|].
  exact (applyFiles_twice demoHost DEFAULT_ALIASES "/proj/src/components" "/pkg/templates"
           (files brandingLogoWithBadgeItem) demoWorld w1 Hrun).
Defined.

(** ** The exporter: names and places of the documents *)

Lemma replaceAll_slash (seen s : string) :
  RegExp.replaceFrom [RegExp.Lit "/"%char] "-" seen 0 s = slashesToDashes s.
Proof.
  revert seen. induction s as [|c s IH]; intros seen; [reflexivity|].
  cbn [RegExp.replaceFrom RegExp.matchesAt RegExp.atomMatches slashesToDashes length].
  rewrite Ascii.eqb_sym.
  destruct (Ascii.eqb c "/"%char) eqn:Hc.
  - destruct s; cbn [RegExp.matchesAt andb]; cbn [RegExp.GetSubstitution];
      rewrite IH; reflexivity.
  - rewrite andb_false_l, IH. reflexivity.
Qed.

Lemma slashesToDashes_noSlash (s : string) : noSlash (slashesToDashes s) = true.
Proof.
  induction s as [|c s IH]; [reflexivity|]. simpl.
  destruct (Ascii.eqb c "/"%char) eqn:Hc; simpl; [exact IH|]. now rewrite Hc.
Qed.

Lemma slashesToDashes_length (s : string) :
  String.length (slashesToDashes s) = String.length s.
Proof. induction s as [|c s IH]; simpl; congruence. Qed.

Lemma slashesToDashes_id (s : string) : noSlash s = true -> slashesToDashes s = s.
Proof.
  induction s as [|c s IH]; [reflexivity|]. simpl.
  destruct (Ascii.eqb c "/"%char); simpl; [discriminate|]. intros H. now rewrite IH.
Qed.

Lemma slugForItem_dashes (item : RegistryItem) : slugForItem item = slashesToDashes (id item).
Proof. unfold slugForItem, RegExp.replaceAll. simpl. apply replaceAll_slash. Qed.

Lemma noSlash_append (a b : string) : noSlash (a +:+ b) = noSlash a && noSlash b.
Proof.
  induction a as [|c a IH]; [reflexivity|]. rewrite append_cons. simpl.
  now rewrite IH, andb_assoc.
Qed.

(** A slug followed by [.json] is a clean segment, whatever the slug. *)
Lemma document_name_clean (slug : string) :
  noSlash slug = true -> cleanSegment (slug +:+ ".json") = true.
Proof.
  intros Hslug. unfold cleanSegment.
  rewrite noSlash_append, Hslug. simpl.
  assert (Hlen : String.length (slug +:+ ".json") >= 5)
    by (rewrite length_append; simpl; lia).
  destruct (String.eqb_spec (slug +:+ ".json") "") as [E|_];
    [rewrite E in Hlen; simpl in Hlen; lia|].
  destruct (String.eqb_spec (slug +:+ ".json") ".") as [E|_];
    [rewrite E in Hlen; simpl in Hlen; lia|].
  destruct (String.eqb_spec (slug +:+ ".json") "..") as [E|_];
    [rewrite E in Hlen; simpl in Hlen; lia|].
  reflexivity.
Qed.

Lemma gather_shape (paths : list string) :
  fst (Path.gather paths) = "" \/ exists a, fst (Path.gather paths) = a +:+ "/".
Proof.
  induction paths as [|p rest IH]; [now left|]. simpl.
  destruct (String.eqb p ""); [exact IH|].
  destruct (Path.isAbsolute p); [right; now exists p|].
  destruct (Path.gather rest) as [acc abs]. right. exists (acc +:+ p).
  simpl. now rewrite append_assoc.
Qed.

Lemma cleanSegment_relative (seg : string) :
  cleanSegment seg = true -> String.eqb seg "" = false /\ Path.isAbsolute seg = false.
Proof.
  unfold cleanSegment. intros H.
  apply andb_prop in H as [H _]. apply andb_prop in H as [H _].
  apply andb_prop in H as [Hns Hne]. split.
  - now destruct (String.eqb seg "").
  - destruct seg as [|c seg]; [reflexivity|]. simpl in Hns.
    unfold Path.isAbsolute. cbn [Js.startsWith].
    destruct (Ascii.eqb_spec c "/"%char) as [->|Hc]; [discriminate|].
    destruct (Ascii.eqb_spec "/"%char c) as [E|_]; [now symmetry in E|reflexivity].
Qed.

Lemma normalize_push (allow : bool) (stack : list string) (seg : string) :
  cleanSegment seg = true ->
  Path.normalize allow stack [seg; ""] = (rev stack ++ [seg])%list.
Proof.
  intros Hclean. unfold cleanSegment in Hclean.
  apply andb_prop in Hclean as [Hclean Hdd]. apply andb_prop in Hclean as [Hclean Hd].
  apply andb_prop in Hclean as [_ He].
  simpl. destruct (String.eqb seg ""); [discriminate|].
  destruct (String.eqb seg "."); [discriminate|].
  destruct (String.eqb seg ".."); [discriminate|]. reflexivity.
Qed.

(** Resolving a clean segment against a directory names an entry of
    that directory. *)
Lemma resolveSegs_child (processCwd dir seg : string) :
  cleanSegment seg = true ->
  Path.resolveSegs processCwd [dir; seg] = (Path.resolveSegs processCwd [dir] ++ [seg])%list.
Proof.
  intros Hclean. unfold Path.resolveSegs.
  change (rev [dir; seg] ++ [processCwd])%list with (seg :: [dir; processCwd]).
  change (rev [dir] ++ [processCwd])%list with [dir; processCwd].
  destruct (cleanSegment_relative seg Hclean) as [Hne Hrel].
  generalize [dir; processCwd]. intros rest.
  cbn [Path.gather]. rewrite Hne, Hrel.
  pose proof (gather_shape rest) as Hshape.
  destruct (Path.gather rest) as [acc abs]. simpl in Hshape.
  assert (Hseg : Path.split seg = [seg]).
  { apply noSlash_split. unfold cleanSegment in Hclean.
    now repeat (apply andb_prop in Hclean as [Hclean _]). }
  destruct Hshape as [-> | [a ->]].
  - rewrite append_nil.
    change (seg +:+ "/") with (seg +:+ String "/" "").
    rewrite split_app, Hseg. simpl Path.split. simpl app.
    rewrite normalize_push by exact Hclean. reflexivity.
  - rewrite append_assoc. rewrite append_cons, append_nil.
    rewrite split_app.
    change (seg +:+ "/") with (seg +:+ String "/" "").
    rewrite split_app, Hseg.
    change (a +:+ "/") with (a +:+ String "/" "").
    rewrite split_app. simpl (Path.split "").
    simpl ([seg] ++ [""])%list.
    rewrite !normalize_app.
    rewrite normalize_push by exact Hclean.
    rewrite rev_involutive.
    set (kept := Path.normalize (negb abs) [] (Path.split a)).
    assert (Hdrop : forall stack, Path.normalize (negb abs) stack [""] = rev stack)
      by (intros stack; reflexivity).
    rewrite Hdrop, rev_involutive. reflexivity.
Qed.

Lemma segments_resolve (h : Host) (args : list string) :
  Path.isAbsolute (processCwd h) = true ->
  Fs.segments h (Path.resolve (processCwd h) args) = Path.resolveSegs (processCwd h) args.
Proof.
  intros Habs. destruct (resolve_join (processCwd h) args Habs) as [-> Hclean].
  now apply segments_of_clean.
Qed.

(** X5. The slug of an item is its id with every slash replaced by a
    dash: it holds no slash, is as long as the id, and is the id itself
    when the id holds no slash. *)
Theorem slugForItem_shape (item : RegistryItem) :
  slugForItem item = slashesToDashes (id item) /\
  noSlash (slugForItem item) = true /\
  String.length (slugForItem item) = String.length (id item) /\
  (noSlash (id item) = true -> slugForItem item = id item).
Proof.
  rewrite slugForItem_dashes. split; [reflexivity|]. split; [apply slashesToDashes_noSlash|].
  split; [apply slashesToDashes_length | apply slashesToDashes_id].
Qed.

Lemma document_segments (h : Host) (outDir name : string) :
  Path.isAbsolute (processCwd h) = true -> cleanSegment name = true ->
  Fs.segments h (Path.resolve (processCwd h) [outDir; name])
  = (Fs.segments h (Path.resolve (processCwd h) [outDir]) ++ [name])%list.
Proof.
  intros Habs Hclean. rewrite !segments_resolve by exact Habs.
  now apply resolveSegs_child.
Qed.

(** X6. Whatever the ids of the items (slashes, dots, [..]), every file
    that the exporter writes, whether it returns or throws, is a direct
    entry of the output directory: the document [<slug>.json] of an item
    of the catalog, or the manifest [registry.json]. *)
Theorem exported_documents_in_outDir (h : Host) (catalog : list RegistryItem)
    (outDir : string) (w : World) :
  Path.isAbsolute (processCwd h) = true ->
  exists events,
    trace (worldOf (exportRegistryOf catalog h outDir w)) = trace w ++ events /\
    forall path content, In (EvWriteFile path content) events ->
      exists name,
        (name = "registry.json" \/
         exists item, In item catalog /\ name = slugForItem item +:+ ".json") /\
        path = Path.resolve (processCwd h) [outDir; name] /\
        Fs.segments h path
        = (Fs.segments h (Path.resolve (processCwd h) [outDir]) ++ [name])%list.
Proof.
  intros Habs.
  assert (Hitem : forall (run : list (RegistryItem * list ExportedRegistryFile.t)) path content,
            (forall p, In p run -> In (fst p) catalog) ->
            In (EvWriteFile path content)
               (map (fun p => itemWrite h outDir (fst p) (exportedItemOf (fst p) (snd p))) run) ->
            exists name,
              (name = "registry.json" \/
               exists item, In item catalog /\ name = slugForItem item +:+ ".json") /\
              path = Path.resolve (processCwd h) [outDir; name] /\
              Fs.segments h path
              = (Fs.segments h (Path.resolve (processCwd h) [outDir]) ++ [name])%list).
  { intros run path content Hrun Hin. apply in_map_iff in Hin as (p & Hev & Hp).
    unfold itemWrite in Hev. injection Hev as <- _.
    exists (slugForItem (fst p) +:+ ".json"). split; [right; exists (fst p); auto|].
    split; [reflexivity|]. apply document_segments; [exact Habs|].
    apply document_name_clean. rewrite slugForItem_dashes. apply slashesToDashes_noSlash. }
  assert (Hmembers : forall (run : list (RegistryItem * list ExportedRegistryFile.t)) rest,
            catalog = map fst run ++ rest -> forall p, In p run -> In (fst p) catalog).
  { intros run rest -> p Hp. apply in_or_app. left. now apply in_map. }
  unfold exportRegistryOf.
  destruct (Fs.existsSync h _ w); cbn [negb].
  2:{ exists []. cbn. split; [now rewrite app_nil_r | intros path content []]. }
  rewrite bind_run.
  pose proof (exportItems_trace h
                (Path.resolve (processCwd h) [moduleDirname h; "../../templates"])
                outDir catalog [] w) as Hitems.
  destruct (exportItems h _ outDir catalog [] w) as [exportedItems w1|err w1].
  - destruct Hitems as (run & Hfst & _ & Htrace).
    assert (Hrun : forall p, In p run -> In (fst p) catalog)
      by (apply (Hmembers run []); now rewrite app_nil_r).
    rewrite bind_run.
    pose proof (writeJson_trace h (Path.resolve (processCwd h) [outDir; "registry.json"])
                  (ManifestDoc (manifestOf exportedItems)) w1) as Hmanifest.
    destruct (writeJson h _ _ w1) as [[] w2|err w2].
    + exists (map (fun p => itemWrite h outDir (fst p) (exportedItemOf (fst p) (snd p))) run
              ++ [manifestWrite h outDir (manifestOf exportedItems);
                  EvLog ("Exported " +:+ pretty (length catalog) +:+ " registry item(s) to "
                         +:+ outDir)]).
      split.
      * rewrite consoleLog_run. cbn [worldOf trace].
        rewrite Hmanifest, Htrace, <- !app_assoc. reflexivity.
      * intros path content Hin. apply in_app_or in Hin as [Hin|[Hin|[Hin|[]]]].
        -- now apply (Hitem run path content).
        -- unfold manifestWrite in Hin. injection Hin as <- _. exists "registry.json".
           split; [now left|]. split; [reflexivity|]. now apply document_segments.
        -- discriminate.
    + exists (map (fun p => itemWrite h outDir (fst p) (exportedItemOf (fst p) (snd p))) run).
      cbn [worldOf]. rewrite Hmanifest, Htrace. split; [reflexivity|].
      intros path content Hin. now apply (Hitem run path content).
  - destruct Hitems as (run & rest & Hpending & _ & Htrace).
    exists (map (fun p => itemWrite h outDir (fst p) (exportedItemOf (fst p) (snd p))) run).
    cbn [worldOf]. rewrite Htrace. split; [reflexivity|].
    intros path content Hin. apply (Hitem run path content); [|exact Hin].
    now apply (Hmembers run rest).
Qed.

Lemma exported_documents_in_outDir_witness :
  exists events,
    trace (worldOf (exportRegistryOf [brandingLogoWithBadgeItem] demoHost "/proj/public/r"
                      demoWorld))
    = trace demoWorld ++ events /\
    forall path content, In (EvWriteFile path content) events ->
      exists name,
        (name = "registry.json" \/
         exists item, In item [brandingLogoWithBadgeItem] /\
                      name = slugForItem item +:+ ".json") /\
        path = Path.resolve (processCwd demoHost) ["/proj/public/r"; name] /\
        Fs.segments demoHost path
        = (Fs.segments demoHost (Path.resolve (processCwd demoHost) ["/proj/public/r"])
           ++ [name])%list.
Proof.
  exact (exported_documents_in_outDir demoHost [brandingLogoWithBadgeItem] "/proj/public/r"
           demoWorld eq_refl).
Defined.

(** ** The exporter: what it reads and what it leaves alone *)

Lemma readTemplateFiles_result (h : Host) (root : string) (item : RegistryItem)
    (pending : list RegistryFile) (collected exported : list ExportedRegistryFile.t)
    (w w' : World) :
  readTemplateFiles h root item pending collected w = Ok exported w' ->
  exists outs,
    exported = collected ++ outs /\
    Forall2 (fun file out =>
               ExportedRegistryFile.path out
               = "registry/chris-lally/" +:+ slugForItem item +:+ "/" +:+ target file /\
               ExportedRegistryFile.type out = fileTypeForTarget (target file) /\
               ExportedRegistryFile.target out = Some (target file) /\
               exists src,
                 Fs.lookup h (Path.resolve (processCwd h) [root; source file]) w
                 = Some (File src) /\
                 applyImportReplacements h src
                   (interpolateReplacements DEFAULT_ALIASES (replaceImports file))
                 = Some (ExportedRegistryFile.content out))
            pending outs.
Proof.
  revert collected. induction pending as [|file rest IH]; intros collected; simpl.
  - intros [= <- _]. exists []. split; [now rewrite app_nil_r | constructor].
  - destruct (Fs.existsSync h _ w); simpl; [|discriminate].
    rewrite bind_run. unfold Fs.readFile.
    destruct (Fs.lookup h _ w) as [[src|]|] eqn:Hsrc; try discriminate.
    rewrite bind_run. unfold rewriteImports.
    destruct (applyImportReplacements h src _) as [content|] eqn:Hre; [|discriminate].
    simpl. intros Hrest. destruct (IH _ Hrest) as (outs & -> & Hall).
    eexists (_ :: outs). split; [now rewrite <- app_assoc|].
    constructor; [|exact Hall]. simpl. repeat split. now exists src.
Qed.

(** X7. When [readTemplateContent] returns, it has changed nothing, and
    it returns one exported file per file of the item, in order: the path
    is [registry/chris-lally/<slug>/<target>], the type is the one
    [fileTypeForTarget] gives the target, and the content is the template
    source with its imports rewritten under the default aliases. *)
Theorem readTemplateContent_result (h : Host) (root : string) (item : RegistryItem)
    (exported : list ExportedRegistryFile.t) (w w' : World) :
  readTemplateContent h root item w = Ok exported w' ->
  w' = w /\
  Forall2 (fun file out =>
             ExportedRegistryFile.path out
             = "registry/chris-lally/" +:+ slugForItem item +:+ "/" +:+ target file /\
             ExportedRegistryFile.type out = fileTypeForTarget (target file) /\
             ExportedRegistryFile.target out = Some (target file) /\
             exists src,
               Fs.lookup h (Path.resolve (processCwd h) [root; source file]) w
               = Some (File src) /\
               applyImportReplacements h src
                 (interpolateReplacements DEFAULT_ALIASES (replaceImports file))
               = Some (ExportedRegistryFile.content out))
          (files item) exported.
Proof.
  unfold readTemplateContent. intros Hrun. split.
  - pose proof (readTemplateFiles_world h root item (files item) [] w) as Hw.
    now rewrite Hrun in Hw.
  - destruct (readTemplateFiles_result _ _ _ _ _ _ _ _ Hrun) as (outs & -> & Hall).
    exact Hall.
Qed.

Lemma readTemplateContent_result_witness :
  exists exported,
    readTemplateContent demoHost "/pkg/templates" brandingLogoWithBadgeItem demoWorld
    = Ok exported demoWorld /\
    map ExportedRegistryFile.path exported
    = ["registry/chris-lally/branding-logo-with-badge/components/branding/logo-with-badge.tsx"].
Proof.
  assert (Hrun : exists exported,
    readTemplateContent demoHost "/pkg/templates" brandingLogoWithBadgeItem demoWorld
    = Ok exported demoWorld) by (eexists; vm_compute; reflexivity).
  destruct Hrun as [exported Hrun]. exists exported. split; [exact Hrun|].
  destruct (readTemplateContent_result _ _ _ _ _ _ Hrun) as [_ Hall].
  inversion Hall as [|file out rest outs (Hpath & _) Hnil]; subst.
  inversion Hnil; subst. simpl. now rewrite Hpath.
Defined.

Lemma writeFile_frame (h : Host) (p content : string) (w : World) (key : list string)
    (e : Entry) :
  fs w !! key = Some e ->
  e = Dir \/ key <> Fs.segments h p ->
  fs (worldOf (Fs.writeFile h p content w)) !! key = Some e.
Proof.
  intros Hkey Hfree.
  destruct (writeFile_cases h p content w) as [(-> & _ & Hdir & _) | (err & ->)];
    [|exact Hkey].
  simpl. destruct (decide (key = Fs.segments h p)) as [->|Hne].
  - destruct Hfree as [-> | Hfree]; [|contradiction].
    unfold Fs.isDir in Hdir. rewrite Hkey in Hdir.
    destruct (Fs.segments h p); discriminate.
  - now rewrite lookup_insert_ne.
Qed.

Lemma mkdir_frame (h : Host) (p : string) (w : World) :
  fs w ⊆ fs (worldOf (Fs.mkdir h p w)).
Proof.
  destruct (mkdir_cases h p w) as [(m & -> & Hsub & _) | (e & ->)];
    [exact Hsub | reflexivity].
Qed.

Lemma writeJson_frame (h : Host) (path : string) (value : JsonDoc) (w : World)
    (key : list string) (e : Entry) :
  fs w !! key = Some e ->
  e = Dir \/ key <> Fs.segments h path ->
  fs (worldOf (writeJson h path value w)) !! key = Some e.
Proof.
  intros Hkey Hfree. unfold writeJson.
  change (fs (worldOf ((Fs.mkdir h (Path.dirname path) ≫=
            (fun _ => Fs.writeFile h path (JSON_stringify h value +:+ String "010"%char ""))) w))
          !! key = Some e).
  rewrite bind_run.
  pose proof (mkdir_frame h (Path.dirname path) w) as Hsub.
  destruct (Fs.mkdir h (Path.dirname path) w) as [[] w1|err w1]; simpl in Hsub.
  - apply writeFile_frame; [|exact Hfree].
    exact (lookup_weaken _ _ _ _ Hkey Hsub).
  - simpl. exact (lookup_weaken _ _ _ _ Hkey Hsub).
Qed.

Lemma exportItems_frame (h : Host) (root outDir : string) (pending : list RegistryItem)
    (acc : list ManifestItem.t) (w : World) (key : list string) (e : Entry) :
  fs w !! key = Some e ->
  e = Dir \/
  (forall item, In item pending ->
     key <> Fs.segments h (Path.resolve (processCwd h) [outDir; slugForItem item +:+ ".json"])) ->
  fs (worldOf (exportItems h root outDir pending acc w)) !! key = Some e.
Proof.
  revert acc w. induction pending as [|item rest IH]; intros acc w Hkey Hfree; [exact Hkey|].
  cbn [exportItems]. rewrite bind_run.
  pose proof (readTemplateFiles_world h root item (files item) [] w) as Hread.
  unfold readTemplateContent.
  destruct (readTemplateFiles h root item (files item) [] w) as [exported w1|err w1];
    subst w1; [|exact Hkey].
  rewrite bind_run.
  pose proof (writeJson_frame h
                (Path.resolve (processCwd h) [outDir; slugForItem item +:+ ".json"])
                (ItemDoc (exportedItemOf item exported)) w key e Hkey) as Hwrite.
  destruct (writeJson h _ _ w) as [[] w2|err w2]; simpl in Hwrite.
  - apply IH.
    + apply Hwrite. destruct Hfree as [->|Hfree]; [now left|right; apply Hfree; now left].
    + destruct Hfree as [->|Hfree]; [now left|right].
      intros other Hin. apply Hfree. now right.
  - simpl. apply Hwrite.
    destruct Hfree as [->|Hfree]; [now left|right; apply Hfree; now left].
Qed.

(** X8. Whether the export returns or throws, it removes nothing and
    replaces no directory; the only files whose content it may replace
    are the documents it writes, [<outDir>/<slug>.json] for the items of
    the catalog and [<outDir>/registry.json]. *)
Theorem exportRegistry_touches_only_outputs (h : Host) (catalog : list RegistryItem)
    (outDir : string) (w : World) (key : list string) (e : Entry) :
  fs w !! key = Some e ->
  e = Dir \/
  (key <> Fs.segments h (Path.resolve (processCwd h) [outDir; "registry.json"]) /\
   forall item, In item catalog ->
     key <> Fs.segments h (Path.resolve (processCwd h) [outDir; slugForItem item +:+ ".json"])) ->
  fs (worldOf (exportRegistryOf catalog h outDir w)) !! key = Some e.
Proof.
  intros Hkey Hfree. unfold exportRegistryOf.
  destruct (Fs.existsSync h _ w); simpl; [|exact Hkey].
  rewrite bind_run.
  pose proof (exportItems_frame h
                (Path.resolve (processCwd h) [moduleDirname h; "../../templates"])
                outDir catalog [] w key e Hkey) as Hitems.
  destruct (exportItems h _ outDir catalog [] w) as [exportedItems w1|err w1];
    simpl in Hitems.
  - rewrite bind_run.
    pose proof (writeJson_frame h (Path.resolve (processCwd h) [outDir; "registry.json"])
                  (ManifestDoc (manifestOf exportedItems)) w1 key e) as Hwrite.
    destruct (writeJson h _ _ w1) as [[] w2|err w2]; simpl in Hwrite; simpl.
    + apply Hwrite; [apply Hitems|]; destruct Hfree as [->|[Hm Hi]]; auto.
    + apply Hwrite; [apply Hitems|]; destruct Hfree as [->|[Hm Hi]]; auto.
  - simpl. apply Hitems. destruct Hfree as [->|[Hm Hi]]; auto.
Qed.

Lemma exportRegistry_touches_only_outputs_witness :
  fs (worldOf (exportRegistryOf [brandingLogoWithBadgeItem] demoHost "/proj/public/r" demoWorld))
  !! ["proj"; "components.json"] = Some (File "{}").
Proof.
  apply (exportRegistry_touches_only_outputs demoHost [brandingLogoWithBadgeItem]
           "/proj/public/r" demoWorld ["proj"; "components.json"] (File "{}")).
  - reflexivity.
  - right. split.
    + vm_compute. discriminate.
    + intros item [<-|[]]. vm_compute. discriminate.
Defined.

(** ** Titles *)

Lemma capitalizeWords_length (afterWord : bool) (text : string) :
  String.length (capitalizeWords afterWord text) = String.length text.
Proof.
  revert afterWord. induction text as [|c text IH]; intros afterWord; [reflexivity|].
  cbn [capitalizeWords String.length]. now rewrite IH.
Qed.

Lemma dashesToSpaces_length (text : string) :
  String.length (dashesToSpaces text) = String.length text.
Proof. induction text as [|c text IH]; [reflexivity|]. cbn [dashesToSpaces String.length]. now rewrite IH. Qed.

Lemma isWordChar_toUpperCase (c : ascii) : isWordChar (toUpperCase c) = isWordChar c.
Proof. destruct c as [[] [] [] [] [] [] [] []]; reflexivity. Qed.

Lemma toUpperCase_idempotent (c : ascii) : toUpperCase (toUpperCase c) = toUpperCase c.
Proof. destruct c as [[] [] [] [] [] [] [] []]; reflexivity. Qed.

Lemma capitalizeWords_idempotent (afterWord : bool) (text : string) :
  capitalizeWords afterWord (capitalizeWords afterWord text) = capitalizeWords afterWord text.
Proof.
  revert afterWord. induction text as [|c text IH]; intros afterWord; [reflexivity|].
  cbn [capitalizeWords].
  destruct (isWordChar c && negb afterWord) eqn:Hcap.
  - rewrite isWordChar_toUpperCase, Hcap, toUpperCase_idempotent. now rewrite IH.
  - rewrite Hcap. now rewrite IH.
Qed.

(** Capitalizing brings back neither a dash nor an underscore. *)
Lemma dashesToSpaces_capitalizeWords (afterWord : bool) (text : string) :
  dashesToSpaces (capitalizeWords afterWord (dashesToSpaces text))
  = capitalizeWords afterWord (dashesToSpaces text).
Proof.
  revert afterWord. induction text as [|c text IH]; intros afterWord; [reflexivity|].
  cbn [capitalizeWords dashesToSpaces]. rewrite IH. f_equal.
  destruct afterWord; destruct c as [[] [] [] [] [] [] [] []]; reflexivity.
Qed.

Lemma dashesToSpaces_no_dash (text : string) :
  Js.includes (dashesToSpaces text) "-" = false /\ Js.includes (dashesToSpaces text) "_" = false.
Proof.
  induction text as [|c text [IHd IHu]]; [split; reflexivity|].
  cbn [dashesToSpaces Js.includes Js.startsWith]. rewrite IHd, IHu.
  split; destruct c as [[] [] [] [] [] [] [] []]; reflexivity.
Qed.

(** X9. A title is as long as the text it is made from and holds neither
    a dash nor an underscore; making a title of a title changes nothing. *)
Theorem titleCase_shape (text : string) :
  String.length (titleCase text) = String.length text /\
  Js.includes (titleCase text) "-" = false /\
  Js.includes (titleCase text) "_" = false /\
  titleCase (titleCase text) = titleCase text.
Proof.
  unfold titleCase. split; [now rewrite capitalizeWords_length, dashesToSpaces_length|].
  rewrite <- (dashesToSpaces_capitalizeWords false text) at 1 2.
  destruct (dashesToSpaces_no_dash (capitalizeWords false (dashesToSpaces text))) as [Hd Hu].
  split; [exact Hd|]. split; [exact Hu|].
  rewrite dashesToSpaces_capitalizeWords. apply capitalizeWords_idempotent.
Qed.

(** ** Placeholders and rewriting *)

(** A pattern that begins with a brace matches nowhere in a text without
    one. *)
Lemma replaceFrom_noBrace (re : list RegExp.atom) (template before seen s : string) :
  noBrace before = true ->
  RegExp.replaceFrom (RegExp.Lit "{"%char :: re) template seen 0 (before +:+ String "{" s)
  = before +:+ RegExp.replaceFrom (RegExp.Lit "{"%char :: re) template (seen +:+ before) 0
                 (String "{" s).
Proof.
  revert seen. induction before as [|c before IH]; intros seen Hfree.
  - now rewrite !append_nil, append_empty_r.
  - cbn [noBrace] in Hfree. apply andb_prop in Hfree as [Hc Hfree].
    rewrite !append_cons. cbn [RegExp.replaceFrom RegExp.matchesAt RegExp.atomMatches].
    destruct (Ascii.eqb_spec "{"%char c) as [<-|_]; [discriminate|].
    rewrite andb_false_l, IH by exact Hfree.
    now rewrite append_assoc, append_cons, append_nil.
Qed.

Lemma replaceFrom_noBrace_all (re : list RegExp.atom) (template seen s : string) :
  noBrace s = true ->
  RegExp.replaceFrom (RegExp.Lit "{"%char :: re) template seen 0 s = s.
Proof.
  revert seen. induction s as [|c s IH]; intros seen Hfree; [reflexivity|].
  cbn [noBrace] in Hfree. apply andb_prop in Hfree as [Hc Hfree].
  cbn [RegExp.replaceFrom RegExp.matchesAt RegExp.atomMatches].
  destruct (Ascii.eqb_spec "{"%char c) as [<-|_]; [discriminate|].
  now rewrite andb_false_l, IH.
Qed.

Lemma noBrace_append (a b : string) : noBrace (a +:+ b) = noBrace a && noBrace b.
Proof.
  induction a as [|c a IH]; [reflexivity|]. rewrite append_cons. cbn [noBrace].
  now rewrite IH, andb_assoc.
Qed.

(** The placeholder [{name}] replaced in a text that holds it once, between
    two parts without a brace. *)
Lemma replaceAll_placeholder (name value before rest : string) :
  noBrace before = true -> noBrace rest = true -> dollarFree value = true ->
  RegExp.replaceAll (String "{" (name +:+ "}")) value
    (before +:+ String "{" (name +:+ "}") +:+ rest)
  = before +:+ value +:+ rest.
Proof.
  intros Hbefore Hrest Hvalue. unfold RegExp.replaceAll.
  cbn [list_ascii_of_string map]. rewrite append_cons.
  rewrite replaceFrom_noBrace by exact Hbefore. f_equal.
  set (re := map RegExp.Lit (list_ascii_of_string (name +:+ "}"))).
  assert (Hmatch : RegExp.matchesAt (RegExp.Lit "{"%char :: re)
                     (String "{" ((name +:+ "}") +:+ rest)) = true).
  { cbn [RegExp.matchesAt RegExp.atomMatches]. rewrite Ascii.eqb_refl, andb_true_l.
    pose proof (matchesAt_lits (name +:+ "}") [] ((name +:+ "}") +:+ rest)) as Hlits.
    rewrite app_nil_r in Hlits. apply Hlits. now exists rest. }
  assert (Hlen : length re = String.length (name +:+ "}"))
    by (unfold re; now rewrite length_map, length_chars).
  cbn [RegExp.replaceFrom]. rewrite Hmatch.
  rewrite GetSubstitution_dollarFree by exact Hvalue. f_equal.
  cbn [length]. rewrite Hlen, replaceFrom_skip. now apply replaceFrom_noBrace_all.
Qed.

(** A placeholder with another name is left as it is. *)
Lemma replaceAll_other (name other value before rest : string) :
  noBrace before = true -> noBrace (other +:+ "}" +:+ rest) = true ->
  Js.startsWith (other +:+ "}" +:+ rest) (name +:+ "}") = false ->
  RegExp.replaceAll (String "{" (name +:+ "}")) value
    (before +:+ String "{" (other +:+ "}") +:+ rest)
  = before +:+ String "{" (other +:+ "}") +:+ rest.
Proof.
  intros Hbefore Hrest Hother. unfold RegExp.replaceAll.
  cbn [list_ascii_of_string map]. rewrite append_cons, append_assoc.
  rewrite replaceFrom_noBrace by exact Hbefore. f_equal.
  cbn [RegExp.replaceFrom RegExp.matchesAt RegExp.atomMatches].
  rewrite Ascii.eqb_refl, andb_true_l.
  destruct (RegExp.matchesAt _ (other +:+ "}" +:+ rest)) eqn:Hmatch.
  - pose proof (matchesAt_lits (name +:+ "}") [] (other +:+ "}" +:+ rest)) as Hlits.
    rewrite app_nil_r in Hlits. apply Hlits in Hmatch as (tail & Htail & _).
    assert (Hstarts : Js.startsWith (other +:+ "}" +:+ rest) (name +:+ "}") = true)
      by (apply startsWith_beginsWith; now exists tail).
    congruence.
  - f_equal. now apply replaceFrom_noBrace_all.
Qed.

(** X10. A target template without a brace is left as it is, and a
    placeholder standing between two parts without a brace is replaced by
    the alias of its name, when the alias holds no [$] and, for the
    aliases that later replacements scan again, no brace. *)
Theorem interpolateTargetPath_placeholders (aliases : AliasContext) (before rest : string) :
  noBrace before = true -> noBrace rest = true ->
  interpolateTargetPath (before +:+ rest) aliases = before +:+ rest /\
  (dollarFree (componentsAlias aliases) = true -> noBrace (componentsAlias aliases) = true ->
   interpolateTargetPath (before +:+ "{componentsAlias}" +:+ rest) aliases
   = before +:+ componentsAlias aliases +:+ rest) /\
  (dollarFree (uiAlias aliases) = true -> noBrace (uiAlias aliases) = true ->
   interpolateTargetPath (before +:+ "{uiAlias}" +:+ rest) aliases
   = before +:+ uiAlias aliases +:+ rest) /\
  (dollarFree (utilsAlias aliases) = true ->
   interpolateTargetPath (before +:+ "{utilsAlias}" +:+ rest) aliases
   = before +:+ utilsAlias aliases +:+ rest).
Proof.
  intros Hbefore Hrest. unfold interpolateTargetPath.
  assert (Hplain : forall name value s, noBrace s = true ->
            RegExp.replaceAll (String "{" name) value s = s).
  { intros name value s Hs. unfold RegExp.replaceAll. cbn [list_ascii_of_string map].
    now apply replaceFrom_noBrace_all. }
  assert (Hrest' : forall name, noBrace (name +:+ "}" +:+ rest) = noBrace name).
  { intros name. rewrite !noBrace_append, Hrest. cbn [noBrace].
    now rewrite !andb_true_r. }
  assert (Hcat : forall value, noBrace value = true ->
            noBrace (before +:+ value +:+ rest) = true).
  { intros value Hvalue. now rewrite !noBrace_append, Hbefore, Hvalue, Hrest. }
  split; [|split; [|split]].
  - assert (Hfree : noBrace (before +:+ rest) = true)
      by now rewrite noBrace_append, Hbefore, Hrest.
    rewrite (Hplain "componentsAlias}" _ _ Hfree), (Hplain "uiAlias}" _ _ Hfree).
    exact (Hplain "utilsAlias}" _ _ Hfree).
  - intros Hdollar Hbrace.
    pose proof (replaceAll_placeholder "componentsAlias" _ _ _ Hbefore Hrest Hdollar) as Hfirst.
    change (String "{" ("componentsAlias" +:+ "}")) with "{componentsAlias}" in Hfirst.
    rewrite Hfirst.
    rewrite (Hplain "uiAlias}" _ _ (Hcat _ Hbrace)).
    exact (Hplain "utilsAlias}" _ _ (Hcat _ Hbrace)).
  - intros Hdollar Hbrace.
    pose proof (replaceAll_other "componentsAlias" "uiAlias" (componentsAlias aliases)
                  _ _ Hbefore (eq_trans (Hrest' _) eq_refl) eq_refl) as Hfirst.
    change (String "{" ("componentsAlias" +:+ "}")) with "{componentsAlias}" in Hfirst.
    change (String "{" ("uiAlias" +:+ "}")) with "{uiAlias}" in Hfirst.
    rewrite Hfirst.
    pose proof (replaceAll_placeholder "uiAlias" _ _ _ Hbefore Hrest Hdollar) as Hsecond.
    change (String "{" ("uiAlias" +:+ "}")) with "{uiAlias}" in Hsecond.
    rewrite Hsecond.
    exact (Hplain "utilsAlias}" _ _ (Hcat _ Hbrace)).
  - intros Hdollar.
    pose proof (replaceAll_other "componentsAlias" "utilsAlias" (componentsAlias aliases)
                  _ _ Hbefore (eq_trans (Hrest' _) eq_refl) eq_refl) as Hfirst.
    change (String "{" ("componentsAlias" +:+ "}")) with "{componentsAlias}" in Hfirst.
    change (String "{" ("utilsAlias" +:+ "}")) with "{utilsAlias}" in Hfirst.
    rewrite Hfirst.
    pose proof (replaceAll_other "uiAlias" "utilsAlias" (uiAlias aliases)
                  _ _ Hbefore (eq_trans (Hrest' _) eq_refl) eq_refl) as Hsecond.
    change (String "{" ("uiAlias" +:+ "}")) with "{uiAlias}" in Hsecond.
    change (String "{" ("utilsAlias" +:+ "}")) with "{utilsAlias}" in Hsecond.
    rewrite Hsecond.
    pose proof (replaceAll_placeholder "utilsAlias" _ _ _ Hbefore Hrest Hdollar) as Hthird.
    change (String "{" ("utilsAlias" +:+ "}")) with "{utilsAlias}" in Hthird.
    exact Hthird.
Qed.

Lemma interpolateTargetPath_placeholders_witness :
  interpolateTargetPath "{uiAlias}/combobox" DEFAULT_ALIASES = "@/components/ui/combobox".
Proof.
  exact (proj1 (proj2 (proj2
           (interpolateTargetPath_placeholders DEFAULT_ALIASES "" "/combobox" eq_refl eq_refl)))
           eq_refl eq_refl).
Defined.

Lemma rewriteEntries_without_from (h : Host) (content : string)
    (entries : list (string * string)) :
  Js.includes content "from " = false ->
  Forall (fun entry => dottedKey (fst entry) = true) entries ->
  rewriteEntries h content entries = Some content.
Proof.
  intros Hfree Hkeys. induction Hkeys as [|[from to] rest Hkey _ IH]; [reflexivity|].
  cbn [rewriteEntries]. unfold replaceImport.
  rewrite compile_importPattern by exact Hkey.
  rewrite replace_no_match; [exact IH|].
  intros before after Hsplit.
  destruct (RegExp.matchesAt (importRegex from) after) eqn:Hmatch; [|reflexivity].
  apply matchesAt_importRegex, importAtHead_from, startsWith_beginsWith in Hmatch
    as [tail Htail].
  assert (Hcontains : Js.includes content "from " = true)
    by (apply includes_contains; exists before, tail; now rewrite Hsplit, Htail).
  congruence.
Qed.

(** X11. A text in which [from] followed by a space does not occur is
    left as it is by every mapping whose keys hold ordinary characters and
    dots, whatever the replacements are. *)
Theorem applyImportReplacements_without_from (h : Host) (content : string)
    (replaceImports : option (list (string * string))) :
  Js.includes content "from " = false ->
  Forall (fun entry => dottedKey (fst entry) = true) (nullish replaceImports []) ->
  applyImportReplacements h content replaceImports = Some content.
Proof.
  intros Hfree Hkeys. destruct replaceImports as [entries|]; [|reflexivity].
  now apply rewriteEntries_without_from.
Qed.

Lemma applyImportReplacements_without_from_witness :
  applyImportReplacements demoHost "export * from'./types';"
    (Some [("../../../lib/cn", "$&{utilsAlias}")])
  = Some "export * from'./types';".
Proof.
  apply (applyImportReplacements_without_from demoHost "export * from'./types';"
           (Some [("../../../lib/cn", "$&{utilsAlias}")])).
  - reflexivity.
  - repeat constructor.
Defined.

(** ** The command line *)

Lemma runCliOf_add (catalog : list RegistryItem) (h : Host) (rest : list string) (w : World) :
  Cli.runCliOf catalog h ("add" :: rest) w = Cli.add catalog h rest w.
Proof. reflexivity. Qed.

Lemma In_unique (seen values : list string) (value : string) :
  In value (Cli.unique seen values) -> In value values.
Proof.
  revert seen. induction values as [|v later IH]; intros seen; [easy|].
  cbn [Cli.unique]. destruct (existsb (String.eqb v) seen).
  - intros Hin. right. exact (IH _ Hin).
  - intros [->|Hin]; [now left | right; exact (IH _ Hin)].
Qed.

Lemma existsb_eqb_In (value : string) (values : list string) :
  existsb (String.eqb value) values = true <-> In value values.
Proof.
  rewrite existsb_exists. split.
  - intros (x & Hin & Heq). apply String.eqb_eq in Heq. now subst.
  - intros Hin. exists value. split; [exact Hin | apply String.eqb_refl].
Qed.

(** X12. [add] either reports a usage error, and then it has changed
    nothing (no file, no log line, no process) and sets the exit code 1,
    or it applies one item of the catalog, the one whose id is made of the
    first two segments of its argument; in that case it leaves the exit
    code alone, also when applying the item throws. *)
Theorem add_applies_catalog_items_only (catalog : list RegistryItem) (h : Host)
    (rest : list string) (w : World) :
  (Cli.settled (Cli.runCliOf catalog h ("add" :: rest) w) = Cli.Fulfilled /\
   Cli.after (Cli.runCliOf catalog h ("add" :: rest) w) = w /\
   Cli.exitCode (Cli.runCliOf catalog h ("add" :: rest) w) = Some 1%Z /\
   length (Cli.errors (Cli.runCliOf catalog h ("add" :: rest) w)) = 2) \/
  (exists arg more namespace' name' item,
     rest = arg :: more /\
     Path.split arg !! 0 = Some namespace' /\ Path.split arg !! 1 = Some name' /\
     In namespace' (map namespace catalog) /\
     In item catalog /\ id item = namespace' +:+ "/" +:+ name' /\
     Cli.runCliOf catalog h ("add" :: rest) w
     = Cli.finish (applyRegistryItem h (processCwd h) item w) /\
     Cli.exitCode (Cli.runCliOf catalog h ("add" :: rest) w) = None).
Proof.
  rewrite runCliOf_add. unfold Cli.add.
  destruct rest as [|arg more]; [left; cbn; auto|].
  cbn [head nullish].
  destruct (Cli.falsy (Some arg)); [left; cbn; auto|].
  destruct (Path.split arg !! 0) as [namespace'|] eqn:Hns; [|left; cbn; auto].
  destruct (Path.split arg !! 1) as [name'|] eqn:Hname;
    [|left; rewrite orb_true_r; cbn; auto].
  destruct (Cli.falsy (Some namespace') || Cli.falsy (Some name')); [left; cbn; auto|].
  cbn [nullish].
  destruct (existsb (String.eqb namespace') (Cli.unique [] (map namespace catalog)))
    eqn:Hknown; cbn [negb]; [|left; cbn; auto].
  destruct (findIn catalog (namespace' +:+ "/" +:+ name')) as [item|] eqn:Hfind;
    [|left; cbn; auto].
  right. exists arg, more, namespace', name', item.
  destruct (findIn_some _ _ _ Hfind) as [Hin Hid].
  apply existsb_eqb_In, In_unique in Hknown.
  repeat (split; [assumption || reflexivity|]).
  now destruct (applyRegistryItem h (processCwd h) item w).
Qed.

Lemma add_parts (catalog : list RegistryItem) (h : Host) (arg arg' : string)
    (more more' : list string) (w : World) :
  arg <> "" -> arg' <> "" ->
  Path.split arg !! 0 = Path.split arg' !! 0 ->
  Path.split arg !! 1 = Path.split arg' !! 1 ->
  Cli.add catalog h (arg :: more) w = Cli.add catalog h (arg' :: more') w.
Proof.
  intros Harg Harg' H0 H1. unfold Cli.add. cbn [head nullish Cli.falsy].
  apply String.eqb_neq in Harg, Harg'. rewrite Harg, Harg', H0, H1. reflexivity.
Qed.

Lemma slash_nonempty (a b : string) : a +:+ "/" +:+ b <> "".
Proof. destruct a; [rewrite append_nil | rewrite append_cons]; discriminate. Qed.

(** X13. [add] reads the first two segments of its first argument and
    nothing else: further segments and further arguments change nothing. *)
Theorem add_ignores_the_rest (catalog : list RegistryItem) (h : Host)
    (namespace' name' extra : string) (more : list string) (w : World) :
  noSlash namespace' = true -> noSlash name' = true ->
  Cli.runCliOf catalog h
    ("add" :: (namespace' +:+ "/" +:+ name' +:+ "/" +:+ extra) :: more) w
  = Cli.runCliOf catalog h ["add"; namespace' +:+ "/" +:+ name'] w.
Proof.
  intros Hns Hname. rewrite !runCliOf_add.
  apply add_parts; try apply slash_nonempty.
  - change (namespace' +:+ "/" +:+ name' +:+ "/" +:+ extra)
      with (namespace' +:+ String "/" (name' +:+ "/" +:+ extra)).
    change (namespace' +:+ "/" +:+ name') with (namespace' +:+ String "/" name').
    rewrite !split_app, (noSlash_split _ Hns). reflexivity.
  - change (namespace' +:+ "/" +:+ name' +:+ "/" +:+ extra)
      with (namespace' +:+ String "/" (name' +:+ String "/" extra)).
    change (namespace' +:+ "/" +:+ name') with (namespace' +:+ String "/" name').
    rewrite !split_app, (noSlash_split _ Hns), (noSlash_split _ Hname). reflexivity.
Qed.

Lemma add_ignores_the_rest_witness :
  Cli.runCliOf items demoHost ["add"; "branding/logo-with-badge/extra"; "--force"] demoWorld
  = Cli.runCliOf items demoHost ["add"; "branding/logo-with-badge"] demoWorld.
Proof.
  exact (add_ignores_the_rest items demoHost "branding" "logo-with-badge" "extra" ["--force"]
           demoWorld eq_refl eq_refl).
Defined.

Lemma outDirOf_default (registryArgs : list string) (outDir : string) :
  Forall (fun arg => arg <> "--out") registryArgs -> Cli.outDirOf registryArgs outDir = outDir.
Proof.
  induction 1 as [|arg later Harg _ IH]; [reflexivity|].
  cbn [Cli.outDirOf]. apply String.eqb_neq in Harg. now rewrite Harg.
Qed.

Lemma outDirOf_app (before later : list string) (outDir : string) :
  Forall (fun arg => arg <> "--out") before ->
  Cli.outDirOf (before ++ later) outDir = Cli.outDirOf later outDir.
Proof.
  induction 1 as [|arg before Harg _ IH]; [reflexivity|].
  cbn [app Cli.outDirOf]. apply String.eqb_neq in Harg. now rewrite Harg.
Qed.

Lemma outDirOf_choice (registryArgs : list string) (outDir : string) :
  (Cli.outDirOf registryArgs outDir = outDir \/ In (Cli.outDirOf registryArgs outDir) registryArgs)
  /\ (outDir <> "" -> Cli.outDirOf registryArgs outDir <> "").
Proof.
  remember (length registryArgs) as n eqn:Hn.
  revert registryArgs outDir Hn.
  induction n as [n IH] using lt_wf_ind. intros registryArgs outDir ->.
  destruct registryArgs as [|arg later]; [split; [now left | easy]|].
  cbn [Cli.outDirOf].
  assert (Hlater : forall dir,
            (Cli.outDirOf later dir = dir \/ In (Cli.outDirOf later dir) (arg :: later)) /\
            (dir <> "" -> Cli.outDirOf later dir <> "")).
  { intros dir. destruct (IH (length later) (Nat.lt_succ_diag_r _) later dir eq_refl)
      as [[Heq|Hin] Hne]; (split; [|exact Hne]); [now left | right; now right]. }
  destruct (String.eqb arg "--out"); [|apply Hlater].
  destruct later as [|value later']; [split; [now left | easy]|].
  destruct (String.eqb_spec value "") as [->|Hvalue]; [apply Hlater|].
  assert (Hlt : length later' < length (arg :: value :: later')) by (simpl; lia).
  destruct (IH _ Hlt later' value eq_refl) as [[Heq|Hin] Hne].
  - split; [right; rewrite Heq; right; now left | intros _; now apply Hne].
  - split; [right; right; now right | intros _; now apply Hne].
Qed.

(** X14. [registry export] exports the catalog to one directory, resolved
    against the working directory. The directory is never the empty
    string; it is [public/r] or one of the arguments, [public/r] when no
    argument is [--out], and the value that follows the only [--out] when
    that value is not empty. *)
Theorem registry_export_outDir (catalog : list RegistryItem) (h : Host)
    (registryArgs : list string) (w : World) :
  exists outDir,
    Cli.runCliOf catalog h ("registry" :: "export" :: registryArgs) w
    = Cli.finish (exportRegistryOf catalog h
                    (Path.resolve (processCwd h) [processCwd h; outDir]) w) /\
    outDir <> "" /\
    (outDir = "public/r" \/ In outDir registryArgs) /\
    (Forall (fun arg => arg <> "--out") registryArgs -> outDir = "public/r") /\
    (forall before value later,
       registryArgs = before ++ "--out" :: value :: later ->
       Forall (fun arg => arg <> "--out") before -> value <> "" ->
       Forall (fun arg => arg <> "--out") later ->
       outDir = value).
Proof.
  exists (Cli.outDirOf registryArgs "public/r"). split; [reflexivity|].
  destruct (outDirOf_choice registryArgs "public/r") as [Hchoice Hne].
  split; [now apply Hne|]. split; [exact Hchoice|]. split; [apply outDirOf_default|].
  intros before value later -> Hbefore Hvalue Hlater.
  rewrite outDirOf_app by exact Hbefore. cbn [Cli.outDirOf].
  apply String.eqb_neq in Hvalue.
  change (String.eqb "--out" "--out") with true. cbv iota.
  rewrite Hvalue. now apply outDirOf_default.
Qed.

Lemma logAll_run (lines : list string) (w : World) :
  Cli.logAll lines w = Ok tt {| fs := fs w; trace := trace w ++ map EvLog lines |}.
Proof.
  revert w. induction lines as [|line later IH]; intros w.
  - cbn. rewrite app_nil_r. now destruct w.
  - cbn [Cli.logAll map].
    change ((consoleLog line ≫= (fun _ => Cli.logAll later)) w = 
            Ok tt {| fs := fs w; trace := trace w ++ EvLog line :: map EvLog later |}).
    rewrite bind_run, consoleLog_run, IH. cbn [fs trace].
    now rewrite <- app_assoc.
Qed.

Lemma printHelpOf_run (catalog : list RegistryItem) (w : World) :
  Cli.printHelpOf catalog w
  = Ok tt {| fs := fs w;
             trace := trace w ++
               map EvLog (Cli.helpLines ++
                          map Cli.namespaceLine (Cli.groupByNamespace catalog [])) |}.
Proof.
  unfold Cli.printHelpOf.
  change ((Cli.logAll Cli.helpLines ≫=
           (fun _ => Cli.logAll (map Cli.namespaceLine (Cli.groupByNamespace catalog [])))) w
          = Ok tt {| fs := fs w;
                     trace := trace w ++
                       map EvLog (Cli.helpLines ++
                                  map Cli.namespaceLine (Cli.groupByNamespace catalog [])) |}).
  rewrite bind_run, !logAll_run. cbn [fs trace].
  now rewrite map_app, <- app_assoc.
Qed.

Ltac only_logs :=
  cbn [Cli.finish Cli.settled Cli.after Cli.exitCode Cli.errors fs trace];
  split; [reflexivity|]; split; [reflexivity|];
  split; [first [eexists; reflexivity | eexists [_]; reflexivity]|];
  left; split; [reflexivity|]; split; [reflexivity|].

(** X15. Every command but [add] and [registry] only writes lines: the
    call is fulfilled, the file system is as before and no process is
    started. The exit code is left alone exactly for the commands the
    program knows ([init], [doctor], [help], [--help], [-h], or none);
    any other command sets it to 1 and is named on the error stream. *)
Theorem other_commands_only_log (catalog : list RegistryItem) (h : Host)
    (argv : list string) (w : World) :
  head argv <> Some "add" -> head argv <> Some "registry" ->
  Cli.settled (Cli.runCliOf catalog h argv w) = Cli.Fulfilled /\
  fs (Cli.after (Cli.runCliOf catalog h argv w)) = fs w /\
  (exists lines, trace (Cli.after (Cli.runCliOf catalog h argv w)) = trace w ++ map EvLog lines) /\
  (Cli.exitCode (Cli.runCliOf catalog h argv w) = None /\
   Cli.errors (Cli.runCliOf catalog h argv w) = [] /\
   (Cli.falsy (head argv) = true \/
    exists known, head argv = Some known /\ In known ["--help"; "-h"; "help"; "init"; "doctor"])
   \/
   exists unknown,
     head argv = Some unknown /\
     ~ In unknown [""; "--help"; "-h"; "help"; "init"; "add"; "doctor"; "registry"] /\
     Cli.exitCode (Cli.runCliOf catalog h argv w) = Some 1%Z /\
     Cli.errors (Cli.runCliOf catalog h argv w) = ["Unknown command: " +:+ unknown]).
Proof.
  intros Hadd Hregistry. unfold Cli.runCliOf, Cli.parseArgs. cbn [Cli.command Cli.rest].
  destruct (Cli.falsy (head argv)) eqn:Hfalsy.
  { rewrite printHelpOf_run. only_logs. now left. }
  destruct argv as [|command rest]; [discriminate|].
  cbn [head nullish] in *. cbn [Cli.falsy] in Hfalsy.
  destruct (String.eqb_spec command "--help") as [->|Hc1].
  { cbn [orb]. rewrite printHelpOf_run. only_logs. right. exists "--help". split; [reflexivity | cbn; auto 10]. }
  destruct (String.eqb_spec command "-h") as [->|Hc2].
  { cbn [orb]. rewrite printHelpOf_run. only_logs. right. exists "-h". split; [reflexivity | cbn; auto 10]. }
  destruct (String.eqb_spec command "help") as [->|Hc3].
  { cbn [orb]. rewrite printHelpOf_run. only_logs. right. exists "help". split; [reflexivity | cbn; auto 10]. }
  cbn [orb].
  destruct (String.eqb_spec command "init") as [->|Hc4].
  { rewrite consoleLog_run. only_logs. right. exists "init". split; [reflexivity | cbn; auto 10]. }
  destruct (String.eqb_spec command "add") as [->|Hc5]; [congruence|].
  destruct (String.eqb_spec command "doctor") as [->|Hc6].
  { rewrite consoleLog_run. only_logs. right. exists "doctor". split; [reflexivity | cbn; auto 10]. }
  destruct (String.eqb_spec command "registry") as [->|Hc7]; [congruence|].
  change (((consoleLog "" ;; Cli.printHelpOf catalog) : M unit) w)
    with ((consoleLog "" ≫= (fun _ => Cli.printHelpOf catalog)) w).
  rewrite bind_run, consoleLog_run, printHelpOf_run.
  cbn [Cli.finish Cli.settled Cli.after Cli.exitCode Cli.errors fs trace].
  split; [reflexivity|]. split; [reflexivity|]. split.
  - eexists (_ :: _). rewrite <- app_assoc. reflexivity.
  - right. exists command. split; [reflexivity|]. split; [|split; reflexivity].
    apply String.eqb_neq in Hfalsy.
    intros [E|[E|[E|[E|[E|[E|[E|[E|[]]]]]]]]]; congruence.
Qed.

Lemma other_commands_only_log_witness :
  fs (Cli.after (Cli.runCliOf items demoHost ["doctor"; "now"] demoWorld)) = fs demoWorld /\
  fs (Cli.after (Cli.runCliOf items demoHost ["remove"] demoWorld)) = fs demoWorld.
Proof.
  split.
  - apply (other_commands_only_log items demoHost ["doctor"; "now"] demoWorld); discriminate.
  - apply (other_commands_only_log items demoHost ["remove"] demoWorld); discriminate.
Defined.

Lemma mapGet_mapSet (key key' : string) (value : list string)
    (entries : list (string * list string)) :
  Cli.mapGet key' (Cli.mapSet key value entries)
  = if String.eqb key key' then Some value else Cli.mapGet key' entries.
Proof.
  induction entries as [|[k v] later IH]; cbn [Cli.mapSet Cli.mapGet].
  - reflexivity.
  - destruct (String.eqb_spec k key) as [->|Hk]; cbn [Cli.mapGet].
    + now destruct (String.eqb key key').
    + destruct (String.eqb_spec k key') as [->|Hk'].
      * destruct (String.eqb_spec key key') as [->|_]; congruence.
      * exact IH.
Qed.

Lemma mapSet_keys (key : string) (value : list string) (entries : list (string * list string)) :
  map fst (Cli.mapSet key value entries)
  = if existsb (String.eqb key) (map fst entries) then map fst entries
    else map fst entries ++ [key].
Proof.
  induction entries as [|[k v] later IH]; [reflexivity|].
  cbn [Cli.mapSet map fst existsb]. rewrite (String.eqb_sym key k).
  destruct (String.eqb k key); cbn [map fst orb]; [reflexivity|].
  rewrite IH. now destruct (existsb (String.eqb key) (map fst later)).
Qed.

Lemma unique_ext (seen seen' values : list string) :
  (forall value, existsb (String.eqb value) seen = existsb (String.eqb value) seen') ->
  Cli.unique seen values = Cli.unique seen' values.
Proof.
  revert seen seen'. induction values as [|value later IH]; intros seen seen' Hsame;
    [reflexivity|].
  cbn [Cli.unique]. rewrite <- Hsame.
  destruct (existsb (String.eqb value) seen); [now apply IH|].
  f_equal. apply IH. intros other. cbn [existsb]. now rewrite Hsame.
Qed.

Lemma unique_fresh (seen values : list string) :
  List.NoDup (Cli.unique seen values) /\
  forall value, In value (Cli.unique seen values) -> existsb (String.eqb value) seen = false.
Proof.
  revert seen. induction values as [|value later IH]; intros seen.
  - split; [constructor | easy].
  - cbn [Cli.unique]. destruct (existsb (String.eqb value) seen) eqn:Hseen; [apply IH|].
    destruct (IH (value :: seen)) as [Hnodup Hfresh]. split.
    + constructor; [|exact Hnodup]. intros Hin. apply Hfresh in Hin.
      cbn [existsb] in Hin. now rewrite String.eqb_refl in Hin.
    + intros other [<-|Hin]; [exact Hseen|].
      apply Hfresh in Hin. cbn [existsb] in Hin. now apply orb_false_elim in Hin.
Qed.

Lemma mapGet_In (key : string) (value : list string) (entries : list (string * list string)) :
  List.NoDup (map fst entries) -> In (key, value) entries ->
  Cli.mapGet key entries = Some value.
Proof.
  induction entries as [|[k v] later IH]; [easy|].
  cbn [map fst Cli.mapGet]. intros Hnodup. apply List.NoDup_cons_iff in Hnodup as [Hk Hnodup].
  intros [[= -> ->]|Hin]; [now rewrite String.eqb_refl|].
  destruct (String.eqb_spec k key) as [->|_]; [|now apply IH].
  exfalso. apply Hk. now apply (in_map fst) in Hin.
Qed.

Lemma groupByNamespace_invariant (pending : list RegistryItem)
    (byNamespace : list (string * list string)) :
  map fst (Cli.groupByNamespace pending byNamespace)
  = map fst byNamespace ++ Cli.unique (map fst byNamespace) (map namespace pending) /\
  forall key,
    nullish (Cli.mapGet key (Cli.groupByNamespace pending byNamespace)) []
    = nullish (Cli.mapGet key byNamespace) []
      ++ map name (List.filter (fun item => String.eqb (namespace item) key) pending).
Proof.
  revert byNamespace. induction pending as [|item later IH]; intros byNamespace.
  - split; [now rewrite app_nil_r | intros key; now rewrite app_nil_r].
  - cbn [Cli.groupByNamespace map Cli.unique List.filter].
    destruct (IH (Cli.mapSet (namespace item)
                    (nullish (Cli.mapGet (namespace item) byNamespace) [] ++ [name item])
                    byNamespace)) as [Hkeys Hnames].
    split.
    + rewrite Hkeys, mapSet_keys.
      destruct (existsb (String.eqb (namespace item)) (map fst byNamespace)); [reflexivity|].
      rewrite <- app_assoc. cbn [app]. do 2 f_equal. apply unique_ext.
      intros value. rewrite existsb_app. cbn [existsb]. now rewrite orb_false_r, orb_comm.
    + intros key. rewrite Hnames, mapGet_mapSet.
      destruct (String.eqb (namespace item) key) eqn:Hkey.
      * apply String.eqb_eq in Hkey. subst key. cbn [nullish map].
        now rewrite <- app_assoc.
      * reflexivity.
Qed.

(** X16. The help lists the catalog: after the fixed lines it writes one
    line per namespace, in the order in which the namespaces first occur
    in the catalog, and the line of a namespace names the items of that
    namespace, all of them and in catalog order. It changes nothing
    else. *)
Theorem printHelp_lists_the_catalog (catalog : list RegistryItem) (w : World) :
  exists groups,
    Cli.printHelpOf catalog w
    = Ok tt {| fs := fs w;
               trace := trace w ++
                 map EvLog (Cli.helpLines ++ map Cli.namespaceLine groups) |} /\
    map fst groups = Cli.unique [] (map namespace catalog) /\
    Forall (fun group =>
              snd group
              = map name (List.filter (fun item => String.eqb (namespace item) (fst group))
                            catalog) /\
              snd group <> [])
           groups.
Proof.
  exists (Cli.groupByNamespace catalog []). split; [apply printHelpOf_run|].
  destruct (groupByNamespace_invariant catalog []) as [Hkeys Hnames].
  cbn [map app] in Hkeys. split; [exact Hkeys|].
  assert (Hnodup : List.NoDup (map fst (Cli.groupByNamespace catalog [])))
    by (rewrite Hkeys; apply unique_fresh).
  apply List.Forall_forall. intros [key names] Hin. cbn [fst snd].
  pose proof (Hnames key) as Hkey.
  rewrite (mapGet_In _ _ _ Hnodup Hin) in Hkey. cbn [nullish Cli.mapGet app] in Hkey.
  split; [exact Hkey|].
  assert (Hmember : In key (map namespace catalog)).
  { apply (In_unique []). rewrite <- Hkeys. now apply (in_map fst) in Hin. }
  apply in_map_iff in Hmember as (item & Hns & Hitem).
  rewrite Hkey. intros Hempty.
  assert (Hfiltered : In item (List.filter (fun item => String.eqb (namespace item) key) catalog))
    by (apply filter_In; split; [exact Hitem | now apply String.eqb_eq]).
  apply (in_map name) in Hfiltered. now rewrite Hempty in Hfiltered.
Qed.

(** ** Applying an item: the order of its effects *)

Lemma spawnsOf_log (events : list Event) (message : string) :
  spawnsOf (events ++ [EvLog message]) = spawnsOf events.
Proof. unfold spawnsOf. rewrite List.filter_app. cbn. apply app_nil_r. Qed.

Lemma writeIfMissing_spawns (h : Host) (path content : string) (w : World) :
  spawnsOf (trace (worldOf (writeIfMissing h path content w))) = spawnsOf (trace w).
Proof.
  destruct (writeIfMissing_trace h path content w) as [-> | ->]; [reflexivity|].
  unfold spawnsOf. rewrite List.filter_app. cbn. apply app_nil_r.
Qed.

Lemma applyFiles_spawns (h : Host) (aliases : AliasContext)
    (componentsRoot templateRoot : string) (pending : list RegistryFile) (w : World) :
  spawnsOf (trace (worldOf (applyFiles h aliases componentsRoot templateRoot pending w)))
  = spawnsOf (trace w).
Proof.
  revert w. induction pending as [|file rest IH]; intros w; [reflexivity|].
  cbn [applyFiles]. rewrite bind_run. unfold Fs.readFile.
  destruct (Fs.lookup h _ w) as [[src|]|]; try reflexivity.
  rewrite bind_run. unfold rewriteImports.
  destruct (applyImportReplacements h src _) as [transformed|]; [|reflexivity].
  cbn [ret]. rewrite bind_run.
  pose proof (writeIfMissing_spawns h
                (Path.resolve (processCwd h) [componentsRoot; target file]) transformed w)
    as Hwrite.
  destruct (writeIfMissing h _ transformed w) as [outcome w1|e w1]; cbn [worldOf] in Hwrite;
    [|exact Hwrite].
  rewrite bind_run, consoleLog_run.
  match goal with
  | |- spawnsOf (trace (worldOf (applyFiles _ _ _ _ _ ?w'))) = _ => rewrite (IH w')
  end.
  cbn [trace]. now rewrite spawnsOf_log.
Qed.

Lemma installDepsIfNeeded_spawns (h : Host) (cwd : string) (deps : list string) (w : World) :
  exists w',
    installDepsIfNeeded h cwd deps w = Ok tt w' /\
    length (spawnsOf (trace w'))
    = length (spawnsOf (trace w)) + match deps with [] => 0 | _ => 1 end.
Proof.
  destruct deps as [|dep deps]; [exists w; split; [reflexivity | lia]|].
  unfold installDepsIfNeeded. rewrite bind_run, consoleLog_run, bind_run. unfold spawn.
  cbn [fs trace].
  destruct (spawnSync h _ _ cwd (fs w)) as [status m].
  destruct status as [[| |]|]; cbn; eexists; (split; [reflexivity|]);
    cbn [trace]; unfold spawnsOf; rewrite !List.filter_app; cbn;
    rewrite ?app_nil_r, length_app; cbn; lia.
Qed.

(** X17. Dependencies are installed last and only when every file went
    through: when [applyRegistryItem] throws, it has started no process;
    when it returns, it has started the package manager once if the item
    declares dependencies, and no process otherwise. *)
Theorem applyRegistryItem_installs_last (h : Host) (cwd : string) (item : RegistryItem)
    (w : World) :
  (forall e w', applyRegistryItem h cwd item w = Throw e w' ->
     spawnsOf (trace w') = spawnsOf (trace w)) /\
  (forall w', applyRegistryItem h cwd item w = Ok tt w' ->
     length (spawnsOf (trace w'))
     = length (spawnsOf (trace w))
       + match nullish (dependencies item) [] with [] => 0 | _ => 1 end).
Proof.
  unfold applyRegistryItem. rewrite bind_run.
  pose proof (readAliasContext_world h cwd w) as Hread.
  destruct (readAliasContext h cwd w) as [resolved w1|e w1]; cbn [worldOf] in Hread; subst w1.
  2:{ split; [now intros e' w' [= _ <-] | discriminate]. }
  destruct (List.find _ _) as [templateRoot|].
  2:{ split; [now intros e' w' [= _ <-] | discriminate]. }
  rewrite bind_run.
  pose proof (applyFiles_spawns h (ResolvedAliases.aliases resolved)
                (ResolvedAliases.componentsRoot resolved) templateRoot (files item) w)
    as Hfiles.
  destruct (applyFiles h _ _ templateRoot (files item) w) as [[] w1|e w1];
    cbn [worldOf] in Hfiles.
  2:{ split; [now intros e' w' [= _ <-] | discriminate]. }
  destruct (installDepsIfNeeded_spawns h cwd (nullish (dependencies item) []) w1)
    as (w2 & -> & Hlen).
  split; [discriminate|]. intros w' [= <-]. now rewrite Hlen, Hfiles.
Qed.

(** ** The command line and the catalog *)

Lemma unique_complete (seen values : list string) (value : string) :
  In value values -> existsb (String.eqb value) seen = false ->
  In value (Cli.unique seen values).
Proof.
  revert seen. induction values as [|v later IH]; intros seen; [easy|].
  cbn [Cli.unique]. intros [->|Hin] Hseen.
  - rewrite Hseen. now left.
  - destruct (existsb (String.eqb v) seen) eqn:Hv; [now apply IH|].
    destruct (String.eqb_spec value v) as [->|Hne]; [now left|].
    right. apply IH; [exact Hin|]. cbn [existsb].
    apply String.eqb_neq in Hne. now rewrite Hne.
Qed.

Lemma findIn_complete (catalog : list RegistryItem) (item : RegistryItem) :
  List.NoDup (map id catalog) -> In item catalog -> findIn catalog (id item) = Some item.
Proof.
  intros Hnodup Hin. destruct (findIn catalog (id item)) as [other|] eqn:Hfind.
  - destruct (findIn_some _ _ _ Hfind) as [Hother Hid].
    f_equal. now apply (unique_by_id catalog).
  - exfalso. exact (findIn_none _ _ Hfind item Hin eq_refl).
Qed.

Lemma split_pair (a b : string) :
  noSlash a = true -> noSlash b = true -> Path.split (a +:+ "/" +:+ b) = [a; b].
Proof.
  intros Ha Hb. change (a +:+ "/" +:+ b) with (a +:+ String "/" b).
  now rewrite split_app, (noSlash_split _ Ha), (noSlash_split _ Hb).
Qed.

(** X18. Every item the help lists can be added under the name the help
    shows for it: in a catalog without two items of the same id, where
    the id of the item is its namespace, a slash and its name, and neither
    part is empty or holds a slash, [add <namespace>/<name>] applies that
    item in the working directory. *)
Theorem add_finds_listed_items (catalog : list RegistryItem) (h : Host) (item : RegistryItem)
    (w : World) :
  List.NoDup (map id catalog) -> In item catalog ->
  id item = namespace item +:+ "/" +:+ name item ->
  noSlash (namespace item) = true -> noSlash (name item) = true ->
  namespace item <> "" -> name item <> "" ->
  Cli.runCliOf catalog h ["add"; namespace item +:+ "/" +:+ name item] w
  = Cli.finish (applyRegistryItem h (processCwd h) item w).
Proof.
  intros Hnodup Hin Hid Hns Hname Hns' Hname'.
  rewrite runCliOf_add. unfold Cli.add. cbn [head nullish Cli.falsy].
  pose proof (slash_nonempty (namespace item) (name item)) as Harg.
  apply String.eqb_neq in Harg. rewrite Harg.
  rewrite !(split_pair _ _ Hns Hname).
  cbn [lookup list_lookup nullish Cli.falsy].
  apply String.eqb_neq in Hns', Hname'. rewrite Hns', Hname'. cbn [orb].
  assert (Hknown : existsb (String.eqb (namespace item))
                     (Cli.unique [] (map namespace catalog)) = true).
  { apply existsb_eqb_In, unique_complete; [now apply in_map | reflexivity]. }
  rewrite Hknown. cbn [negb].
  rewrite <- Hid, (findIn_complete _ _ Hnodup Hin). reflexivity.
Qed.

Lemma add_finds_listed_items_witness :
  Cli.runCliOf items demoHost ["add"; "fumadocs/sdk-layout"] demoWorld
  = Cli.finish (applyRegistryItem demoHost "/proj" fumadocsSdkLayoutItem demoWorld).
Proof.
  apply (add_finds_listed_items items demoHost fumadocsSdkLayoutItem demoWorld).
  - repeat constructor; cbn; intuition discriminate.
  - now left.
  - reflexivity.
  - reflexivity.
  - reflexivity.
  - discriminate.
  - discriminate.
Defined.
